(** * Intermolecular-forces particle engine (public/scripts/imfs.js)

    A shallow embedding of the simulation core of [imfs.js]: the neighbour
    grid, the three pairwise force terms, the force pass with drag and
    thermostat, the integrator with walls, the collision resolver and the
    liquid/gas classifier, followed by the properties stated about them.
    Two more revisions of the same engine are embedded as modules: the
    periodic one kept at the end of [imfs.js] ([Periodic]) and the one of
    [highlow.js] ([HighLow]).

    Conventions of the embedding.
    - A JavaScript number is idealised as a real number ([R]); [Math.hypot],
      [Math.sqrt], [Math.floor] and friends are their exact counterparts.
      Rounding, overflow and NaN are outside the model.  Division follows
      Rocq's convention [x / 0 = 0].
    - The particle array is a [list Particle]; a particle object is
      identified with its index, so a grid bucket that holds references to
      particle objects is a list of indices into the current store.
    - [Math.random()] and [performance.now()] are streams supplied by the
      environment; a [World] records how far each has been consumed. *)

From Stdlib Require Import Reals Lra Lia ZArith Psatz.
From stdpp Require Import base decidable option list gmap.

#[local] Open Scope R_scope.

(** ** Numbers *)

#[global] Instance Rlt_decision (x y : R) : Decision (x < y) := Rlt_dec x y.
#[global] Instance Rle_decision (x y : R) : Decision (x <= y) := Rle_dec x y.
#[global] Instance Rgt_decision (x y : R) : Decision (x > y) := Rgt_dec x y.
#[global] Instance Rge_decision (x y : R) : Decision (x >= y) := Rge_dec x y.
#[global] Instance R_eq_decision : EqDecision R := Req_dec_T.

(** [x || d] on numbers: the default replaces a falsy (zero) value. *)
Definition orElse (x d : R) : R := if decide (x = 0) then d else x.

(** [x || d] where the property may be missing altogether. *)
Definition orElseU (x : option R) (d : R) : R :=
  match x with Some v => orElse v d | None => d end.

Definition Math_floor (x : R) : Z := Int_part x.
Definition Math_ceil (x : R) : Z := (- Int_part (- x))%Z.
Definition Math_hypot (x y : R) : R := sqrt (x * x + y * y).

Definition clamp (value min max : R) : R := Rmax min (Rmin max value).

(** ** 2D vector helpers *)

Definition Vec : Type := (R * R)%type.

Definition vAdd (a b : Vec) : Vec := (a.1 + b.1, a.2 + b.2).
Definition vSub (a b : Vec) : Vec := (a.1 - b.1, a.2 - b.2).
Definition vMul (a : Vec) (k : R) : Vec := (a.1 * k, a.2 * k).
Definition vLen (a : Vec) : R := Math_hypot a.1 a.2.
Definition vNorm (a : Vec) : Vec :=
  let L := vLen a in
  if decide (L > 1e-12) then (a.1 / L, a.2 / L) else (0, 0).

Definition vNeg (a : Vec) : Vec := (- a.1, - a.2).
Definition vDot (a b : Vec) : R := a.1 * b.1 + a.2 * b.2.

(** ** Environment: random numbers and the clock *)

(** The values [Math.random()] returns, in order.  [randNorm] redraws while
    it reads zero, so the source comes with the number of zeros that follow
    each position: the first nonzero draw from position [k] on is at
    [k + zerosFrom k]. *)
Record RandomSource : Type := mkRandomSource {
  draw : nat -> R;
  zerosFrom : nat -> nat;
  zerosFrom_nonzero : forall k, draw (k + zerosFrom k) <> 0;
  zerosFrom_zero : forall k j, (j < zerosFrom k)%nat -> draw (k + j) = 0
}.

Record World : Type := mkWorld {
  rngPos : nat;    (* draws of Math.random() consumed so far *)
  clockPos : nat   (* readings of performance.now() taken so far *)
}.

(** Computations that read the environment. *)
Definition Env (A : Type) : Type := World -> A * World.

Definition ret {A} (a : A) : Env A := fun w => (a, w).
Definition bind {A B} (m : Env A) (k : A -> Env B) : Env B :=
  fun w => let (a, w') := m w in k a w'.

Notation "'let!' x ':=' m 'in' k" := (bind m (fun x => k))
  (at level 10, x name, m at level 100, k at level 200,
   format "'[v' 'let!'  x  ':='  m  'in' '/' k ']'").

Fixpoint forEach {A} (f : A -> Env A) (l : list A) : Env (list A) :=
  match l with
  | [] => ret []
  | x :: t => let! y := f x in let! t' := forEach f t in ret (y :: t')
  end.

Section Environment.
Variable rs : RandomSource.
Variable clock : nat -> R.

Definition Math_random : Env R :=
  fun w => (draw rs (rngPos w), mkWorld (S (rngPos w)) (clockPos w)).

Definition performance_now : Env R :=
  fun w => (clock (clockPos w), mkWorld (rngPos w) (S (clockPos w))).

(** [let u = 0; while (u === 0) u = Math.random();] *)
Definition randomNonzero : Env R :=
  fun w =>
    let k := (rngPos w + zerosFrom rs (rngPos w))%nat in
    (draw rs k, mkWorld (S k) (clockPos w)).

Definition randRange (min max : R) : Env R :=
  let! u := Math_random in ret (min + u * (max - min)).

(** Gaussian(0,1) via Box-Muller. *)
Definition randNorm : Env R :=
  let! u := randomNonzero in
  let! v := randomNonzero in
  ret (sqrt (-2.0 * ln u) * cos (2.0 * PI * v)).
End Environment.

(** ** Neighbour grid *)

Module NeighborGrid.

(** [cells] is the sparse array of buckets: a missing key is an
    [undefined] slot. *)
Record t : Type := mk {
  width : R;
  height : R;
  cellSize : R;
  cols : Z;
  rows : Z;
  cells : gmap Z (list nat)
}.

Definition new (width height cellSize : R) : t :=
  let cs := Rmax 8 cellSize in
  mk width height cs
     (Z.max 1 (Math_floor (width / cs)))
     (Z.max 1 (Math_floor (height / cs)))
     ∅.

Definition clear (g : t) : t :=
  mk (width g) (height g) (cellSize g) (cols g) (rows g) ∅.

(** Clamp to valid grid bounds (no wrapping). *)
Definition cellIndex (g : t) (x y : R) : Z :=
  let cx := Z.max 0 (Z.min (cols g - 1) (Math_floor (x / cellSize g))) in
  let cy := Z.max 0 (Z.min (rows g - 1) (Math_floor (y / cellSize g))) in
  (cy * cols g + cx)%Z.

(** [insert(particle)]: the particle is the object with index [id], at
    position [p]. *)
Definition insert (g : t) (id : nat) (p : Vec) : t :=
  let idx := cellIndex g p.1 p.2 in
  mk (width g) (height g) (cellSize g) (cols g) (rows g)
     (<[idx := default [] (cells g !! idx) ++ [id]]> (cells g)).

(** The cells swept by one row of the query, left to right. *)
Definition rowVisits (g : t) (minCx maxCx cy : Z) : list nat :=
  flat_map
    (fun cx =>
       if decide (cx < 0 \/ cx >= cols g \/ cy < 0 \/ cy >= rows g)%Z
       then []
       else default [] (cells g !! (cy * cols g + cx)%Z))
    (seqZ minCx (maxCx - minCx + 1)).

(** [forNeighbors(x, y, radius, fn)] calls [fn] on these particles, in
    this order. *)
Definition forNeighbors (g : t) (x y radius : R) : list nat :=
  let r := radius in
  let minCx := Math_floor ((x - r) / cellSize g) in
  let maxCx := Math_floor ((x + r) / cellSize g) in
  let minCy := Math_floor ((y - r) / cellSize g) in
  let maxCy := Math_floor ((y + r) / cellSize g) in
  flat_map (rowVisits g minCx maxCx) (seqZ minCy (maxCy - minCy + 1)).

End NeighborGrid.

(** ** Particles and scenario parameters *)

Inductive Phase : Type := liquid | gas.

#[global] Instance Phase_eq_dec : EqDecision Phase.
Proof. solve_decision. Defined.

(** The fields of a particle the engine reads or writes ([kind], [angle]
    and [angVel] are only drawn). *)
Record Particle : Type := mkParticle {
  pos : Vec;
  vel : Vec;
  acc : Vec;
  mass : R;
  radius : R;
  state : Phase;
  gasUntil : R;
  localNeighbors : nat;
  thermalEnergy : R;
  lastStateChange : R
}.

Definition setPos (p : Particle) (v : Vec) : Particle :=
  mkParticle v (vel p) (acc p) (mass p) (radius p) (state p) (gasUntil p)
    (localNeighbors p) (thermalEnergy p) (lastStateChange p).
Definition setVel (p : Particle) (v : Vec) : Particle :=
  mkParticle (pos p) v (acc p) (mass p) (radius p) (state p) (gasUntil p)
    (localNeighbors p) (thermalEnergy p) (lastStateChange p).
Definition setAcc (p : Particle) (v : Vec) : Particle :=
  mkParticle (pos p) (vel p) v (mass p) (radius p) (state p) (gasUntil p)
    (localNeighbors p) (thermalEnergy p) (lastStateChange p).
Definition setLocalNeighbors (p : Particle) (n : nat) : Particle :=
  mkParticle (pos p) (vel p) (acc p) (mass p) (radius p) (state p) (gasUntil p)
    n (thermalEnergy p) (lastStateChange p).
Definition setThermalEnergy (p : Particle) (e : R) : Particle :=
  mkParticle (pos p) (vel p) (acc p) (mass p) (radius p) (state p) (gasUntil p)
    (localNeighbors p) e (lastStateChange p).
(** [p.state = s; p.gasUntil = u; p.lastStateChange = now]. *)
Definition setPhase (p : Particle) (s : Phase) (u now : R) : Particle :=
  mkParticle (pos p) (vel p) (acc p) (mass p) (radius p) s u
    (localNeighbors p) (thermalEnergy p) now.

(** [makeParticle(x, y, kind)]; the initial velocity is random, and [acc]
    is first assigned by [computeForces]. *)
Definition makeParticle (rs : RandomSource) (x y : R) : Env Particle :=
  let! vx := randRange rs (-20) 20 in
  let! vy := randRange rs (-20) 20 in
  let! _angle := Math_random rs in
  let! _angVel := randRange rs (-2) 2 in
  ret (mkParticle (x, y) (vx, vy) (0, 0) 1 3 liquid 0 0 0 0).

(** [this.params]: the scenario defaults plus [kT]; the three [coh*]
    weights exist only once the UI has applied a scenario. *)
Record Params : Type := mkParams {
  epsilon : R;
  sigma : R;
  viscosity : R;
  hbStrength : R;
  dipole : R;
  N : nat;
  kT : R;
  cohLJ : option R;
  cohHB : option R;
  cohDP : option R
}.

Inductive Scenario : Type := honey | dmso | hexane.

(** [{ ...scenarioDefaults(kind), kT }] (label and colour left out). *)
Definition scenarioDefaults (kind : Scenario) (kT : R) : Params :=
  match kind with
  | honey => mkParams 0.7 10 2.0 1.8 0.0 100 kT None None None
  | dmso => mkParams 0.6 10 1.2 0.0 1.6 120 kT None None None
  | hexane => mkParams 0.4 10 0.6 0.0 0.0 140 kT None None None
  end.

(** [applyIMFCoeffsFor(sim, kind)], on the parameters. *)
Definition applyIMFCoeffsFor (P : Params) (kind : Scenario) : Params :=
  let v := Rmax 0 (orElse (viscosity P) 0) in
  match kind with
  | honey =>
      mkParams (epsilon P) (sigma P) (viscosity P) (1.6 * v) 0.0 (N P) (kT P)
        (Some (1.0 + 0.6 * v)) (Some (1.2 + 0.8 * v)) (Some 1.0)
  | dmso =>
      mkParams (epsilon P) (sigma P) (viscosity P) 0.0 (1.3 * v) (N P) (kT P)
        (Some (0.9 + 0.5 * v)) (Some 1.0) (Some (1.1 + 0.7 * v))
  | hexane =>
      mkParams (epsilon P) (sigma P) (viscosity P) 0.0 0.0 (N P) (kT P)
        (Some (0.7 + 0.7 * v)) (Some 1.0) (Some 1.0)
  end.

(** ** Force model *)

Section Forces.
Variable P : Params.

(** Lennard-Jones force (soft-capped). *)
Definition ljForce (rVec : Vec) : Vec :=
  let r := vLen rVec + 1e-9 in
  (* Base cohesion from viscosity; [params.epsilon] is not read. *)
  let epsilon := 0.3 + 0.5 * orElse (viscosity P) 0 in
  let sr := sigma P / r in
  let sr2 := sr * sr in
  let sr6 := sr2 * sr2 * sr2 in
  let sr12 := sr6 * sr6 in
  let mag := 24 * epsilon * (2 * sr12 - sr6) * (1 / r) in
  let rCut := 2.5 * sigma P in
  let mag := if decide (r > rCut) then 0 else mag in
  let mag := clamp mag (-60) 60 in
  vMul (vNorm rVec) (- mag).

(** Hydrogen-bond proxy. *)
Definition hbForce (rVec : Vec) : Vec :=
  let r := vLen rVec + 1e-9 in
  let E := hbStrength P in
  if decide (E <= 0) then (0, 0) else
  let rCut := 1.8 * sigma P in
  if decide (r > rCut) then (0, 0) else
  let align := 1 in
  let f := - E * align * Rmax 0 (1 - r / rCut) in
  vMul (vNorm rVec) f.

(** Dipole-dipole proxy. *)
Definition dipoleForce (rVec : Vec) : Vec :=
  let r := vLen rVec + 1e-9 in
  let D := dipole P in
  if decide (D <= 0) then (0, 0) else
  let rCut := 2.2 * sigma P in
  if decide (r > rCut) then (0, 0) else
  let f := - D * (1 / (r * r)) * Rmax 0.1 (1 - r / rCut) in
  vMul (vNorm rVec) f.

(** The force the neighbour callback of [computeForces] adds to [a.acc]
    for a neighbour [b] at displacement [rVec], given the two phases. *)
Definition pairForce (sa sb : Phase) (rVec : Vec) : Vec :=
  let bothLiquid := bool_decide (sa = liquid) && bool_decide (sb = liquid) in
  let gasScale :=
    if bool_decide (sa = gas) || bool_decide (sb = gas) then 0.2 else 1.0 in
  let liquidCohesionBoost := if bothLiquid then 1.3 else 1.0 in
  let fLJ := vMul (ljForce rVec) (orElseU (cohLJ P) 1 * liquidCohesionBoost) in
  let fHB := vMul (hbForce rVec) (orElseU (cohHB P) 1 * liquidCohesionBoost) in
  let fDP := vMul (dipoleForce rVec) (orElseU (cohDP P) 1) in
  vAdd (vAdd (vMul fLJ gasScale) (vMul fHB gasScale)) (vMul fDP gasScale).
End Forces.

(** ** The simulation object *)

Record Sim : Type := mkSim {
  width : R;
  height : R;
  params : Params;
  particles : list Particle;
  grid : NeighborGrid.t;
  gravityOn : bool;
  heatingOn : bool;
  heatAccel : R;
  lastThermoMs : R
}.

Definition setParticles (s : Sim) (ps : list Particle) : Sim :=
  mkSim (width s) (height s) (params s) ps (grid s) (gravityOn s)
    (heatingOn s) (heatAccel s) (lastThermoMs s).
Definition setGrid (s : Sim) (g : NeighborGrid.t) : Sim :=
  mkSim (width s) (height s) (params s) (particles s) g (gravityOn s)
    (heatingOn s) (heatAccel s) (lastThermoMs s).
Definition setLastThermoMs (s : Sim) (t : R) : Sim :=
  mkSim (width s) (height s) (params s) (particles s) (grid s) (gravityOn s)
    (heatingOn s) (heatAccel s) t.

(** [for (i ...) this.grid.insert(this.particles[i])], numbering from [i]. *)
Fixpoint insertFrom (i : nat) (ps : list Particle) (g : NeighborGrid.t)
  : NeighborGrid.t :=
  match ps with
  | [] => g
  | p :: rest => insertFrom (S i) rest (NeighborGrid.insert g i (pos p))
  end.

(** [this.grid.clear()] followed by the insertion of every particle. *)
Definition rebuildGrid (g : NeighborGrid.t) (ps : list Particle)
  : NeighborGrid.t :=
  insertFrom 0 ps (NeighborGrid.clear g).

(** ** Force pass *)

(** The neighbour callback of [computeForces] for particle [i] (whose
    position was read into [ax], [ay]) and the visited particle [j]. *)
Definition forceCallback (P : Params) (i : nat) (ax ay : R)
    (ps : list Particle) (j : nat) : list Particle :=
  if decide (i = j) then ps else
  match ps !! i, ps !! j with
  | Some a, Some b =>
      let dx := (pos b).1 - ax in
      let dy := (pos b).2 - ay in
      let rVec := (dx, dy) in
      let dist := Math_hypot dx dy in
      let densityCut := 2.4 * sigma P in
      let a :=
        if decide (dist < densityCut)
        then setLocalNeighbors a (S (localNeighbors a)) else a in
      let f := pairForce P (state a) (state b) rVec in
      <[i := setAcc a (vAdd (acc a) f)]> ps
  | _, _ => ps
  end.

Definition forcesOn (P : Params) (g : NeighborGrid.t)
    (ps : list Particle) (i : nat) : list Particle :=
  match ps !! i with
  | Some a =>
      let ax := (pos a).1 in
      let ay := (pos a).2 in
      let rMax := 28 in
      foldl (forceCallback P i ax ay) ps (NeighborGrid.forNeighbors g ax ay rMax)
  | None => ps
  end.

(** The particles the periodic rescale looks at: outside a dense blob, or
    gas. *)
Definition thermostatted (p : Particle) : bool :=
  let rhoMin := 3%nat in
  bool_decide (localNeighbors p < rhoMin)%nat || bool_decide (state p = gas).

Definition kineticEnergy (p : Particle) : R :=
  0.5 * orElse (mass p) 1 * ((vel p).1 * (vel p).1 + (vel p).2 * (vel p).2).

Definition rescaleFactor (kT keAvg : R) : R :=
  let keTarget := 40 * (kT + 0.05) in
  Rmax 0.9 (Rmin 1.1 (sqrt (Rmax 1e-6 (keTarget / Rmax 1e-6 keAvg)))).

(** Gentle velocity rescale toward the target kinetic energy. *)
Definition rescaleVelocities (kT : R) (ps : list Particle) : list Particle :=
  let sel := filter (fun p => thermostatted p = true) ps in
  let keSum := foldl (fun k p => k + kineticEnergy p) 0 sel in
  let count := length sel in
  if decide (0 < count)%nat then
    let keAvg := keSum / INR count in
    let s := rescaleFactor kT keAvg in
    if decide (Rabs (s - 1) > 0.02) then
      map (fun p =>
             if thermostatted p
             then setVel p ((vel p).1 * s, (vel p).2 * s) else p) ps
    else ps
  else ps.

Section Engine.
Variable rs : RandomSource.
Variable clock : nat -> R.

(** Drag and stochastic kick on one particle. *)
Definition dragKick (gamma kickSigma : R) (p : Particle) : Env Particle :=
  let! n0 := randNorm rs in
  let ax := (acc p).1 + (- gamma * (vel p).1 + n0 * kickSigma) in
  let! n1 := randNorm rs in
  let ay := (acc p).2 + (- gamma * (vel p).2 + n1 * kickSigma) in
  ret (setAcc p (ax, ay)).

Definition computeForces (dt : R) (s : Sim) : Env Sim :=
  (* Neighbor build *)
  let g := rebuildGrid (grid s) (particles s) in
  let ps := map (fun p => setLocalNeighbors (setAcc p (0, 0)) 0) (particles s) in
  let ps := foldl (forcesOn (params s) g) ps (seq 0 (length ps)) in
  (* Drag + thermostat *)
  let gamma := 0.3 in
  let kT := Rmax 0 (orElse (kT (params s)) 0) in
  let kickSigma := sqrt (2 * gamma * kT) in
  let! ps := forEach (dragKick gamma kickSigma) ps in
  let! nowT := performance_now clock in
  let last := if decide (lastThermoMs s = 0) then nowT else lastThermoMs s in
  if decide (nowT - last > 500)
  then ret (mkSim (width s) (height s) (params s) (rescaleVelocities kT ps) g
              (gravityOn s) (heatingOn s) (heatAccel s) nowT)
  else ret (mkSim (width s) (height s) (params s) ps g
              (gravityOn s) (heatingOn s) (heatAccel s) last).
End Engine.

(** ** Walls *)

Definition handleWalls (w h : R) (p : Particle) : Particle :=
  let r := orElse (radius p) 3 in
  let e := 0.2 in
  let fx := 0.98 in
  let p :=
    if decide ((pos p).1 < r)
    then setVel (setPos p (r, (pos p).2)) (- (vel p).1 * e, (vel p).2) else p in
  let p :=
    if decide ((pos p).1 > w - r)
    then setVel (setPos p (w - r, (pos p).2)) (- (vel p).1 * e, (vel p).2)
    else p in
  let p :=
    if decide ((pos p).2 < r)
    then setVel (setPos p ((pos p).1, r)) ((vel p).1 * fx, - (vel p).2 * e)
    else p in
  let p :=
    if decide ((pos p).2 > h - r)
    then setVel (setPos p ((pos p).1, h - r)) ((vel p).1 * fx, - (vel p).2 * e)
    else p in
  p.

(** ** Collision resolver *)

(** [a.vel -= (jx, jy) / ma; b.vel += (jx, jy) / mb]. *)
Definition applyImpulse (ma mb jx jy : R) (va vb : Vec) : Vec * Vec :=
  ((va.1 - jx / ma, va.2 - jy / ma), (vb.1 + jx / mb, vb.2 + jy / mb)).

(** Friction impulse along the tangent, after the normal impulse [j]. *)
Definition frictionImpulse (mu ma mb nx ny j : R) (va vb : Vec) : Vec * Vec :=
  let rvx2 := vb.1 - va.1 in
  let rvy2 := vb.2 - va.2 in
  let tx := rvx2 - (rvx2 * nx + rvy2 * ny) * nx in
  let ty := rvy2 - (rvx2 * nx + rvy2 * ny) * ny in
  let tl := Math_hypot tx ty in
  if decide (tl > 1e-6) then
    let tx := tx / tl in
    let ty := ty / tl in
    let jt := - mu * Rabs j in
    applyImpulse ma mb (jt * tx) (jt * ty) va vb
  else (va, vb).

(** Thermal conduction: move a fraction of the kinetic-energy difference
    from the faster to the slower particle by rescaling both speeds. *)
Definition thermalConduction (ma mb : R) (va vb : Vec) : Vec * Vec :=
  let keA := 0.5 * ma * (va.1 * va.1 + va.2 * va.2) in
  let keB := 0.5 * mb * (vb.1 * vb.1 + vb.2 * vb.2) in
  let keTotal := keA + keB in
  let transferCoeff := 0.15 in
  let keDiff := keA - keB in
  let dE := transferCoeff * keDiff in
  if decide (Rabs dE > 0.1 /\ keTotal > 0.5) then
    let newKeA := Rmax 0.5 (keA - dE) in
    let newKeB := Rmax 0.5 (keB + dE) in
    let vMagA := Math_hypot va.1 va.2 in
    let vMagB := Math_hypot vb.1 vb.2 in
    if decide (vMagA > 1e-6 /\ vMagB > 1e-6) then
      let scaleA := sqrt ((2 * newKeA) / (ma * vMagA * vMagA)) in
      let scaleB := sqrt ((2 * newKeB) / (mb * vMagB * vMagB)) in
      ((va.1 * scaleA, va.2 * scaleA), (vb.1 * scaleB, vb.2 * scaleB))
    else (va, vb)
  else (va, vb).

(** The velocity part of a contact with normal [(nx, ny)]: normal impulse
    with restitution [e], friction, conduction; nothing unless the two
    approach. *)
Definition contactVelocities (e mu ma mb nx ny : R) (va vb : Vec) : Vec * Vec :=
  let rvx := vb.1 - va.1 in
  let rvy := vb.2 - va.2 in
  let vn := rvx * nx + rvy * ny in
  if decide (vn < 0) then
    let j := (- (1 + e) * vn) / (1 / ma + 1 / mb) in
    let jx := j * nx in
    let jy := j * ny in
    let '(va, vb) := applyImpulse ma mb jx jy va vb in
    let '(va, vb) := frictionImpulse mu ma mb nx ny j va vb in
    thermalConduction ma mb va vb
  else (va, vb).

(** The position part of a contact: both particles are moved apart along
    the normal, the grounded one staying put, then once more if they still
    overlap by over one percent. *)
Definition contactPositions (h : R) (a b : Particle) (nx ny overlap minDist : R)
  : Vec * Vec :=
  let invMa := 1 / orElse (mass a) 1 in
  let invMb := 1 / orElse (mass b) 1 in
  let invSum := invMa + invMb in
  let moveA := overlap * (invMa / Rmax 1e-9 invSum) in
  let moveB := overlap * (invMb / Rmax 1e-9 invSum) in
  let rA := orElse (radius a) 3 in
  let rB := orElse (radius b) 3 in
  let groundedA := bool_decide ((pos a).2 >= h - rA - 0.6) in
  let groundedB := bool_decide ((pos b).2 >= h - rB - 0.6) in
  let '(moveA, moveB) :=
    if negb groundedA && groundedB && bool_decide (ny > 0)
    then (overlap, 0) else (moveA, moveB) in
  let '(moveA, moveB) :=
    if groundedA && negb groundedB && bool_decide (ny < 0)
    then (0, overlap) else (moveA, moveB) in
  let pa := ((pos a).1 - nx * moveA, (pos a).2 - ny * moveA) in
  let pb := ((pos b).1 + nx * moveB, (pos b).2 + ny * moveB) in
  let dx2 := pb.1 - pa.1 in
  let dy2 := pb.2 - pa.2 in
  let dist2 := orElse (Math_hypot dx2 dy2) 1e-9 in
  if decide (dist2 < minDist * 0.99) then
    let overlap2 := minDist - dist2 in
    let nx2 := dx2 / dist2 in
    let ny2 := dy2 / dist2 in
    ((pa.1 - nx2 * overlap2 * 0.5, pa.2 - ny2 * overlap2 * 0.5),
     (pb.1 + nx2 * overlap2 * 0.5, pb.2 + ny2 * overlap2 * 0.5))
  else (pa, pb).

(** The body of the collision callback for the pair ([i], [j]) once it is
    known to be new; [ax], [ay] is the position of [i] read before the
    neighbour sweep started. *)
Definition resolvePair (h : R) (i j : nat) (ax ay : R) (ps : list Particle)
  : list Particle :=
  match ps !! i, ps !! j with
  | Some a, Some b =>
      let e := 0.2 in
      let mu := 0.3 in
      let dx := (pos b).1 - ax in
      let dy := (pos b).2 - ay in
      let dist := orElse (Math_hypot dx dy) 1e-9 in
      let minDist := orElse (radius a) 3 + orElse (radius b) 3 in
      if decide (dist < minDist) then
        let nx := dx / dist in
        let ny := dy / dist in
        let overlap := minDist - dist in
        let '(pa, pb) := contactPositions h a b nx ny overlap minDist in
        let '(va, vb) :=
          contactVelocities e mu (orElse (mass a) 1) (orElse (mass b) 1)
            nx ny (vel a) (vel b) in
        <[j := setVel (setPos b pb) vb]> (<[i := setVel (setPos a pa) va]> ps)
      else ps
  | _, _ => ps
  end.

Definition pairKey (i j : nat) : nat * nat :=
  if decide (i < j)%nat then (i, j) else (j, i).

(** The collision callback: particle [i] meets the visited particle [j];
    [processed] holds the pairs already handled in this call. *)
Definition collisionCallback (h : R) (i : nat) (ax ay : R)
    (st : list Particle * gset (nat * nat)) (j : nat)
  : list Particle * gset (nat * nat) :=
  let '(ps, processed) := st in
  if decide (i = j) then st else
  match ps !! j with
  | None => st
  | Some _ =>
      if decide (pairKey i j ∈ processed) then st else
      (resolvePair h i j ax ay ps, {[pairKey i j]} ∪ processed)
  end.

Definition collisionsOf (h : R) (g : NeighborGrid.t)
    (st : list Particle * gset (nat * nat)) (i : nat)
  : list Particle * gset (nat * nat) :=
  match st.1 !! i with
  | Some a =>
      let ax := (pos a).1 in
      let ay := (pos a).2 in
      let rMax := 16 in
      foldl (collisionCallback h i ax ay) st
        (NeighborGrid.forNeighbors g ax ay rMax)
  | None => st
  end.

Definition resolveCollisions (s : Sim) : Sim :=
  let g := rebuildGrid (grid s) (particles s) in
  let st :=
    foldl (collisionsOf (height s) g) (particles s, ∅)
      (seq 0 (length (particles s))) in
  setGrid (setParticles s st.1) g.

(** ** State classifier *)

(** One particle's state update at time [nowS]. *)
Definition classify (P : Params) (h nowS : R) (p : Particle) : Particle :=
  let epsBase := 0.15 + 0.25 * orElse (viscosity P) 0 in
  let c1 := 120 in
  let c2 := 10 in
  let rhoMin := 3%nat in
  let minStateDuration := 300 in
  let escapeMultiplier := 1.5 in
  let thermalBoilingThreshold := 0.4 in
  let v2 := (vel p).1 * (vel p).1 + (vel p).2 * (vel p).2 in
  let vGas2 := c1 * orElse (kT P) 0 + c2 * epsBase in
  let thermalEnergy' := orElse (thermalEnergy p) 0 in
  let timeSinceStateChange := nowS - orElse (lastStateChange p) 0 in
  match state p with
  | liquid =>
      let hotParticle := bool_decide (thermalEnergy' > 0.7) in
      let effectiveMinDuration :=
        if hotParticle then minStateDuration * 0.5 else minStateDuration in
      if decide (timeSinceStateChange < effectiveMinDuration) then p else
      if decide (localNeighbors p < rhoMin)%nat then
        let surfaceThreshold := vGas2 * 0.9 in
        if decide (v2 > surfaceThreshold /\ thermalEnergy' > 0.2) then
          let p := setPhase p gas (nowS + 1500) nowS in
          if decide ((vel p).2 < 50)
          then setVel p ((vel p).1, (vel p).2 - 30) else p
        else p
      else
        let baseEscapeThreshold := vGas2 * escapeMultiplier in
        let thermalBonus := thermalEnergy' * 0.5 in
        let escapeThreshold := baseEscapeThreshold * (1.0 - thermalBonus) in
        let veryHotBonus := if decide (thermalEnergy' > 0.7) then 0.2 else 0 in
        let finalThreshold := escapeThreshold * (1.0 - veryHotBonus) in
        if decide (v2 > finalThreshold /\ thermalEnergy' > thermalBoilingThreshold)
        then
          let p := setPhase p gas (nowS + 2000) nowS in
          if decide ((vel p).2 < 50)
          then setVel p ((vel p).1, (vel p).2 - 40) else p
        else p
  | gas =>
      if decide (timeSinceStateChange < minStateDuration) then p else
      let isRising := bool_decide ((vel p).2 < -10) in
      let isNearTop := bool_decide ((pos p).2 < h * 0.2) in
      let condenseThreshold := if isRising then 0.3 * vGas2 else 0.5 * vGas2 in
      let thermalCondenseThreshold := 0.2 in
      if bool_decide (v2 < condenseThreshold)
           && bool_decide (thermalEnergy' < thermalCondenseThreshold)
           && negb isRising
         || isNearTop
           && bool_decide (thermalEnergy' < thermalCondenseThreshold)
           && bool_decide (v2 < 0.8 * vGas2)
         || bool_decide (rhoMin <= localNeighbors p)%nat
           && negb isRising
           && bool_decide (thermalEnergy' < thermalCondenseThreshold)
      then
        let p := setPhase p liquid (gasUntil p) nowS in
        if decide ((pos p).2 + radius p < h * 0.9)
        then setThermalEnergy p (Rmax 0 (thermalEnergy' * 0.5)) else p
      else p
  end.

(** ** Step *)

(** [p.acc[1] += d]. *)
Definition addAccY (p : Particle) (d : R) : Particle :=
  setAcc p ((acc p).1, (acc p).2 + d).
Definition addAcc (p : Particle) (dx dy : R) : Particle :=
  setAcc p ((acc p).1 + dx, (acc p).2 + dy).
Definition addVelY (p : Particle) (d : R) : Particle :=
  setVel p ((vel p).1, (vel p).2 + d).

(** Number of substeps of one call of [step(dt)]. *)
Definition substepsOf (s : Sim) (dt : R) : Z :=
  if gravityOn s then
    let maxSpeed :=
      foldl (fun m p =>
               let sp := Math_hypot (vel p).1 (vel p).2 in
               if decide (sp > m) then sp else m) 0 (particles s) in
    let minR :=
      0.5 * match particles s with
            | p :: _ => orElse (radius p) 3
            | [] => 3
            end in
    let safeDisp := Rmax 2 minR in
    Z.min 12 (Z.max 2 (Math_ceil ((maxSpeed * dt) / safeDisp)))
  else 1%Z.

(** Contribution of hotspot [h] (0, 1, 2) at horizontal position [x]:
    intensity and intensity times strength, both zero outside its radius. *)
Definition hotspot (w x : R) (h : nat) : R * R :=
  let hotspotCount := 3 in
  let hotspotSpacing := w / (hotspotCount + 1) in
  let hotspotX := hotspotSpacing * (INR h + 1) in
  let distToHotspot := Rabs (x - hotspotX) in
  let hotspotRadius := w * 0.15 in
  let normalizedDist := distToHotspot / hotspotRadius in
  let hotspotIntensity := Rmax 0 ((1.0 - Rmin 1.0 normalizedDist) ^ 2) in
  if decide (hotspotIntensity > 0) then
    let hotspotStrength := orElseU ([1.0; 0.85; 0.7] !! h) 1.0 in
    (hotspotIntensity, hotspotIntensity * hotspotStrength)
  else (0, 0).

Section Step.
Variable rs : RandomSource.
Variable clock : nat -> R.

(** Heating of one particle while the stove is on. *)
Definition heatParticle (w h aH dtStep : R) (p : Particle) : Env Particle :=
  let heatingZoneHeight := h * 0.1 in
  let heatingZoneTop := h - heatingZoneHeight in
  let minHeatIntensity := 0.2 in
  let thermalGainRate := 0.03 in
  let thermalDissipationRate := 0.015 in
  let r := orElse (radius p) 3 in
  let particleBottom := (pos p).2 + r in
  let particleX := (pos p).1 in
  if decide (particleBottom >= heatingZoneTop) then
    let distFromBottom := h - particleBottom in
    let normalizedDist := Rmax 0 (Rmin 1 (distFromBottom / heatingZoneHeight)) in
    let verticalIntensity := 1.0 - normalizedDist * (1.0 - minHeatIntensity) in
    let spots := map (hotspot w particleX) [0; 1; 2]%nat in
    let totalHotspotContribution := foldl (fun t c => t + c.1) 0 spots in
    let weightedStrength := foldl (fun t c => t + c.2) 0 spots in
    let avgHotspotStrength :=
      if decide (totalHotspotContribution > 0)
      then weightedStrength / totalHotspotContribution else 0.7 in
    let horizontalIntensity :=
      0.3 + totalHotspotContribution * 0.7 * avgHotspotStrength in
    let heatIntensity := verticalIntensity * horizontalIntensity in
    let thermalGain := thermalGainRate * heatIntensity * dtStep in
    let p := setThermalEnergy p
               (Rmin 1.0 (orElse (thermalEnergy p) 0 + thermalGain)) in
    let upwardAccel := thermalEnergy p * -2000 in
    let p := addAccY p upwardAccel in
    let p :=
      if decide (thermalEnergy p > 0.2)
      then addVelY p (thermalEnergy p * -40 * dtStep) else p in
    let vibrationStrength := thermalEnergy p * 120 in
    let! u := Math_random rs in
    let vibrationX := (u - 0.5) * vibrationStrength in
    let! v := Math_random rs in
    let vibrationY := (v - 0.5) * vibrationStrength in
    let p := addAcc p vibrationX vibrationY in
    let scaledAccel := aH * heatIntensity in
    let vx := (vel p).1 in
    let vy := (vel p).2 in
    let sp := Math_hypot vx vy in
    if decide (sp > 1e-3) then
      ret (addAcc p ((vx / sp) * scaledAccel) ((vy / sp) * scaledAccel))
    else
      let! t := Math_random rs in
      let ang := t * PI * 2 in
      ret (addAcc p (cos ang * scaledAccel) (sin ang * scaledAccel))
  else
    let p := setThermalEnergy p
               (Rmax 0 (orElse (thermalEnergy p) 0
                        - thermalDissipationRate * dtStep)) in
    if decide (thermalEnergy p > 0.1) then
      let upwardAccel := thermalEnergy p * -1800 in
      let p := addAccY p upwardAccel in
      let p :=
        if decide (thermalEnergy p > 0.2)
        then addVelY p (thermalEnergy p * -35 * dtStep) else p in
      let vibrationStrength := thermalEnergy p * 80 in
      let! u := Math_random rs in
      let vibrationX := (u - 0.5) * vibrationStrength in
      let! v := Math_random rs in
      let vibrationY := (v - 0.5) * vibrationStrength in
      ret (addAcc p vibrationX vibrationY)
    else ret p.

(** With the stove off the thermal energy only dissipates. *)
Definition coolParticle (dtStep : R) (p : Particle) : Particle :=
  let thermalDissipationRate := 0.02 in
  setThermalEnergy p
    (Rmax 0 (orElse (thermalEnergy p) 0 - thermalDissipationRate * dtStep)).

(** Explicit Euler update of one particle: [p.vel += (p.acc / p.mass) *
    dtStep; p.pos += p.vel * dtStep]. *)
Definition eulerStep (dtStep : R) (p : Particle) : Particle :=
  let vx := (vel p).1 + ((acc p).1 / mass p) * dtStep in
  let vy := (vel p).2 + ((acc p).2 / mass p) * dtStep in
  let p := setVel p (vx, vy) in
  setPos p ((pos p).1 + (vel p).1 * dtStep, (pos p).2 + (vel p).2 * dtStep).

(** The Euler update, the velocity jitter of a warm particle, then the
    walls. *)
Definition integrate (w h dtStep : R) (p : Particle) : Env Particle :=
  let p := eulerStep dtStep p in
  let thermalEnergy' := orElse (thermalEnergy p) 0 in
  if decide (thermalEnergy' > 0.1) then
    let vibVelStrength := thermalEnergy' * 8 in
    let! u := Math_random rs in
    let p := setVel p ((vel p).1 + (u - 0.5) * vibVelStrength, (vel p).2) in
    let! v := Math_random rs in
    let p := setVel p ((vel p).1, (vel p).2 + (v - 0.5) * vibVelStrength) in
    ret (handleWalls w h p)
  else ret (handleWalls w h p).

(** One collision iteration: resolve, then re-clamp to the walls. *)
Definition collisionIteration (s : Sim) : Sim :=
  let s := resolveCollisions s in
  setParticles s (map (handleWalls (width s) (height s)) (particles s)).

(** The motion part of one pass of the substep loop: forces, external
    accelerations, integration, collisions. *)
Definition advance (dtStep : R) (s : Sim) : Env Sim :=
  (* Forces *)
  let! s := computeForces rs clock dtStep s in
  (* Gravity *)
  let s :=
    if gravityOn s
    then setParticles s (map (fun p => addAccY p 900) (particles s))
    else s in
  (* Heating *)
  let! ps :=
    if heatingOn s
    then forEach (heatParticle (width s) (height s) (heatAccel s) dtStep)
           (particles s)
    else ret (map (coolParticle dtStep) (particles s)) in
  let s := setParticles s ps in
  (* Buoyancy *)
  let s :=
    if gravityOn s
    then setParticles s
           (map (fun p => if decide (state p = gas) then addAccY p (-300) else p)
              (particles s))
    else s in
  (* Integrate *)
  let! ps := forEach (integrate (width s) (height s) dtStep) (particles s) in
  let s := setParticles s ps in
  (* Collisions iterations *)
  ret (Nat.iter 5 collisionIteration s).

(** The state update that ends the pass, at one reading of the clock. *)
Definition updateStates (s : Sim) : Env Sim :=
  let! nowS := performance_now clock in
  ret (setParticles s
         (map (classify (params s) (height s) nowS) (particles s))).

(** One pass of the substep loop. *)
Definition substep (dtStep : R) (s : Sim) : Env Sim :=
  let! s := advance dtStep s in
  updateStates s.

Fixpoint substeps (n : nat) (dtStep : R) (s : Sim) : Env Sim :=
  match n with
  | O => ret s
  | S n' => let! s := substep dtStep s in substeps n' dtStep s
  end.

Definition step (dt : R) (s : Sim) : Env Sim :=
  let n := substepsOf s dt in
  let dtStep := dt / IZR n in
  substeps (Z.to_nat n) dtStep s.

(** [k] consecutive calls of [step(dt)]. *)
Fixpoint steps (k : nat) (dt : R) (s : Sim) : Env Sim :=
  match k with
  | O => ret s
  | S k' => let! s := step dt s in steps k' dt s
  end.
End Step.

(** [new IMFSim(canvas)] before particles are spawned: the canvas size
    (900 by 420 when the client size is missing), the honey scenario at
    [kT = 1], gravity on, heating off. *)
Definition newSim (clientWidth clientHeight : R) : Sim :=
  let w := orElse clientWidth 900 in
  let h := orElse clientHeight 420 in
  mkSim w h (scenarioDefaults honey 1.0) []
    (NeighborGrid.new w h 24) true false 80 0.

(** ** Vocabulary of the statements *)

(** The bucket of cell [idx], empty for an [undefined] slot. *)
Definition bucket (g : NeighborGrid.t) (idx : Z) : list nat :=
  default [] (NeighborGrid.cells g !! idx).

(** A particle as [makeParticle] creates it, but at rest at [(x, y)]. *)
Definition restingAt (x y : R) : Particle :=
  mkParticle (x, y) (0, 0) (0, 0) 1 3 liquid 0 0 0 0.

(** Inside the walls with the radius as margin. *)
Definition insideWalls (w h : R) (p : Particle) : Prop :=
  radius p <= (pos p).1 <= w - radius p /\
  radius p <= (pos p).2 <= h - radius p.

(** What identifies a particle through the motion part of a step: only the
    classifier writes the phase fields, and nothing writes mass or
    radius. *)
Definition sameBody (p q : Particle) : Prop :=
  radius q = radius p /\ mass q = mass p /\ state q = state p /\
  lastStateChange q = lastStateChange p /\ gasUntil q = gasUntil p.

(** The settings a step leaves alone. *)
Definition sameSetup (s s' : Sim) : Prop :=
  width s' = width s /\ height s' = height s /\ params s' = params s /\
  gravityOn s' = gravityOn s /\ heatingOn s' = heatingOn s /\
  heatAccel s' = heatAccel s.

Definition halves : RandomSource.
Proof.
  refine (mkRandomSource (fun _ => 1 / 2) (fun _ => 0%nat) _ _).
  - intros k. lra.
  - intros k j Hj. lia.
Defined.

(** Radii that fit between the walls. *)
Definition fits (w h : R) (p : Particle) : Prop :=
  0 < radius p /\ 2 * radius p <= w /\ 2 * radius p <= h.

(** What the motion part of the engine may have done to a particle between
    two state updates, and the clock reading of the update that follows. *)
Record Frame : Type := mkFrame {
  fPos : Vec;
  fVel : Vec;
  fAcc : Vec;
  fNeighbors : nat;
  fThermal : R;
  fNow : R
}.

Definition drive (f : Frame) (p : Particle) : Particle :=
  mkParticle (fPos f) (fVel f) (fAcc f) (mass p) (radius p) (state p)
    (gasUntil p) (fNeighbors f) (fThermal f) (lastStateChange p).

Definition observe (P : Params) (h : R) (p : Particle) (f : Frame) : Particle :=
  classify P h (fNow f) (drive f p).

(** A phase transition: when, into which phase, at which thermal energy. *)
Record Flip : Type := mkFlip {
  flipTime : R;
  flipTo : Phase;
  flipThermal : R
}.

Fixpoint flips (P : Params) (h : R) (p : Particle) (fs : list Frame)
  : list Flip :=
  match fs with
  | [] => []
  | f :: rest =>
      let p' := observe P h p f in
      if decide (state p' = state p) then flips P h p' rest
      else mkFlip (fNow f) (state p') (fThermal f) :: flips P h p' rest
  end.

(** The dwell the classifier asks for before a transition: 300 ms, halved
    for a liquid particle whose thermal energy exceeds 0.7. *)
Definition dwellBefore (e : Flip) : R :=
  match flipTo e with
  | gas => if decide (flipThermal e > 0.7) then 150 else 300
  | liquid => 300
  end.

Fixpoint spaced (last : R) (l : list Flip) : Prop :=
  match l with
  | [] => True
  | e :: rest => flipTime e - last >= dwellBefore e /\ spaced (flipTime e) rest
  end.

Definition condensingThenHot : list Frame :=
  [ mkFrame (100, 200) (0, 0) (0, 0) 0 0.1 1000;
    mkFrame (100, 200) (100, 0) (0, 0) 0 0.8 1150 ].

Definition vapour : Particle :=
  mkParticle (100, 200) (0, 0) (0, 0) 1 3 gas 1700 0 0.1 200.

(** A disc of radius 5 and mass 1 at rest at [(x, y)]. *)
Definition disc5 (x y : R) : Particle :=
  mkParticle (x, y) (0, 0) (0, 0) 1 5 liquid 0 0 0 0.

(** A relation that holds between any two distinct particles of a list. *)
Definition pairwise (R : Particle -> Particle -> Prop) (ps : list Particle)
  : Prop :=
  forall i j p q, ps !! i = Some p -> ps !! j = Some q -> i <> j -> R p q.

Definition separation (p q : Particle) : R :=
  Math_hypot ((pos q).1 - (pos p).1) ((pos q).2 - (pos p).2).

(** Farther apart than every force cutoff. *)
Definition beyondCutoffs (P : Params) (p q : Particle) : Prop :=
  separation p q > 2.5 * sigma P /\ separation p q > 2.2 * sigma P /\
  separation p q > 1.8 * sigma P.

(** Not overlapping. *)
Definition noContact (p q : Particle) : Prop :=
  radius p + radius q <= separation p q.

(** What the force pass leaves on a particle with no neighbour in reach
    at [kT = 0]: the drag alone. *)
Definition dragOnly (p : Particle) : Particle :=
  setAcc (setLocalNeighbors p 0) (- 0.3 * (vel p).1, - 0.3 * (vel p).2).

(** What the motion part does, with gravity and heating off, to a particle
    that carries no more thermal energy than 0.1, once the force pass is
    over: cool, integrate, clamp to the walls. *)
Definition calmMove (w h dtStep : R) (p : Particle) : Particle :=
  handleWalls w h (eulerStep dtStep (coolParticle dtStep p)).

(** The particles the force pass leaves at [kT = 0] when none is in reach
    of another, given whether the thermostat fires. *)
Definition afterForces (fires : bool) (ps : list Particle) : list Particle :=
  if fires then rescaleVelocities 0 (map dragOnly ps) else map dragOnly ps.

(** [p] is [p0] where it was, at rest and not warm. *)
Definition still (p0 p : Particle) : Prop :=
  pos p = pos p0 /\ vel p = (0, 0) /\ radius p = radius p0 /\
  thermalEnergy p <= 0.1.

(** A particle at rest, not warm, of positive mass and radius, inside the
    walls. *)
Definition settled (w h : R) (p : Particle) : Prop :=
  vel p = (0, 0) /\ thermalEnergy p <= 0.1 /\ 0 < mass p /\ 0 < radius p /\
  insideWalls w h p.

(** The canvas of 900 by 420 with the honey scenario at [kT = 0], gravity
    and heating off, holding the given particles. *)
Definition coldSim (ps : list Particle) : Sim :=
  mkSim 900 420 (scenarioDefaults honey 0) ps (NeighborGrid.new 900 420 24)
    false false 80 0.

(** One pass of the engine on a lone particle that is not warm: drag,
    cooling, Euler update, walls. *)
Definition glide (w h dtStep : R) (p : Particle) : Particle :=
  calmMove w h dtStep (dragOnly p).

(** All the clock readings of a run fall within 500 ms of each other, so
    that the periodic thermostat never fires. *)
Definition idle (clock : nat -> R) : Prop :=
  forall i j, clock j - clock i <= 500.

(** A particle as [makeParticle] creates it, at [(x, y)] with velocity
    (10, 0). *)
Definition mover (x y : R) : Particle :=
  mkParticle (x, y) (10, 0) (0, 0) 1 3 liquid 0 0 0 0.

(** A cold liquid particle of mass 1 and radius 3 at [(x, y)], moving
    horizontally at speed [v]. *)
Definition moving (x v y : R) (p : Particle) : Prop :=
  pos p = (x, y) /\ vel p = (v, 0) /\ mass p = 1 /\ radius p = 3 /\
  thermalEnergy p = 0 /\ state p = liquid.

(** [x] modulo the domain width [w]. *)
Definition wrapped (w x : R) : R := x - IZR (Math_floor (x / w)) * w.

(** A generator that always returns 3/4. *)
Definition threeQuarters : RandomSource.
Proof.
  refine (mkRandomSource (fun _ => 3 / 4) (fun _ => 0%nat) _ _).
  - intros k. lra.
  - intros k j Hj. lia.
Defined.

(** [integrate] after cooling when both draws of the jitter return [c]. *)
Definition jitterMove (c w h dtStep : R) (p : Particle) : Particle :=
  let q := eulerStep dtStep (coolParticle dtStep p) in
  if decide (thermalEnergy q > 0.1) then
    handleWalls w h
      (setVel q ((vel q).1 + (c - 0.5) * (thermalEnergy q * 8),
                 (vel q).2 + (c - 0.5) * (thermalEnergy q * 8)))
  else handleWalls w h q.

(** A particle like [restingAt x y] but carrying thermal energy 0.5. *)
Definition warmAt (x y : R) : Particle :=
  mkParticle (x, y) (0, 0) (0, 0) 1 3 liquid 0 0 0.5 0.

(** A liquid particle of mass 1 and radius 3 at [(x, y)] with velocity
    [(v, v)] and thermal energy [t], whose last phase change is at time
    0. *)
Definition warmBody (x y v t : R) (p : Particle) : Prop :=
  pos p = (x, y) /\ vel p = (v, v) /\ thermalEnergy p = t /\
  mass p = 1 /\ radius p = 3 /\ state p = liquid /\ lastStateChange p = 0.

(** ** Spawning, particle count and scenario changes *)

Definition setParams (s : Sim) (P : Params) : Sim :=
  mkSim (width s) (height s) P (particles s) (grid s) (gravityOn s)
    (heatingOn s) (heatAccel s) (lastThermoMs s).

(** [this.params.N = n]. *)
Definition setN (P : Params) (n : nat) : Params :=
  mkParams (epsilon P) (sigma P) (viscosity P) (hbStrength P) (dipole P) n
    (kT P) (cohLJ P) (cohHB P) (cohDP P).

(** [makeParticle(Math.random() * this.width, Math.random() * this.height,
    "mol")]. *)
Definition spawnOne (rs : RandomSource) (w h : R) : Env Particle :=
  let! u := Math_random rs in
  let! v := Math_random rs in
  makeParticle rs (u * w) (v * h).

(** [for (let i = 0; i < this.params.N; i++) this.particles.push(...)],
    with [n] iterations to go. *)
Fixpoint spawnLoop (rs : RandomSource) (n : nat) (w h : R)
    (ps : list Particle) : Env (list Particle) :=
  match n with
  | O => ret ps
  | S n' => let! p := spawnOne rs w h in spawnLoop rs n' w h (ps ++ [p])
  end.

(** [spawnParticles()]: empty the store, then create [params.N]
    particles. *)
Definition spawnParticles (rs : RandomSource) (s : Sim) : Env Sim :=
  let! ps := spawnLoop rs (N (params s)) (width s) (height s) [] in
  ret (setParticles s ps).

(** [while (this.particles.length > n) this.particles.pop();] *)
Fixpoint popLoop (fuel n : nat) (ps : list Particle) : list Particle :=
  match fuel with
  | O => ps
  | S fuel' =>
      if decide (n < length ps)%nat then popLoop fuel' n (removelast ps)
      else ps
  end.

(** [while (this.particles.length < n) { ...; this.particles.push(p); }]:
    the new particles start at half the usual speed. *)
Fixpoint pushLoop (rs : RandomSource) (fuel n : nat) (w h : R)
    (ps : list Particle) : Env (list Particle) :=
  match fuel with
  | O => ret ps
  | S fuel' =>
      if decide (length ps < n)%nat then
        let! p := spawnOne rs w h in
        let p := setVel p ((vel p).1 * 0.5, (vel p).2 * 0.5) in
        pushLoop rs fuel' n w h (ps ++ [p])
      else ret ps
  end.

(** [adjustParticleCount(targetN)]; the first loop runs at most
    [particles.length] times and the second at most [n] times. *)
Definition adjustParticleCount (rs : RandomSource) (targetN : R) (s : Sim)
  : Env Sim :=
  let n := Z.to_nat (Z.max 1 (Math_floor targetN)) in
  let s := setParams s (setN (params s) n) in
  (* Remove extras *)
  let ps := popLoop (length (particles s)) n (particles s) in
  (* Add new ones *)
  let! ps := pushLoop rs n n (width s) (height s) ps in
  ret (setParticles s ps).

(** [changeScenario(kind)]: the defaults of the scenario with the current
    [kT], then a fresh set of particles. *)
Definition changeScenario (rs : RandomSource) (kind : Scenario) (s : Sim)
  : Env Sim :=
  let def := scenarioDefaults kind (kT (params s)) in
  spawnParticles rs (setParams s def).

(** ** Vocabulary of the further properties *)

(** A particle as [makeParticle] returns it when [Math.random()] keeps to
    [[0, 1)]: inside the canvas, liquid, cold, with velocity components of
    at most [vmax]. *)
Definition fresh (w h vmax : R) (p : Particle) : Prop :=
  0 <= (pos p).1 <= w /\ 0 <= (pos p).2 <= h /\
  - vmax <= (vel p).1 <= vmax /\ - vmax <= (vel p).2 <= vmax /\
  mass p = 1 /\ radius p = 3 /\ state p = liquid /\ thermalEnergy p = 0 /\
  lastStateChange p = 0.

(** [q] has the same [f] as [p]. *)
Definition keeps {A} (f : Particle -> A) (p q : Particle) : Prop := f q = f p.

(** What the force pass may do to a particle: rescale its velocity by a
    factor between 0.9 and 1.1, and nothing else to where it is, what it
    is and how warm it is. *)
Definition nudged (p q : Particle) : Prop :=
  pos q = pos p /\ thermalEnergy q = thermalEnergy p /\ mass q = mass p /\
  radius q = radius p /\ state q = state p /\
  exists c, 0.9 <= c <= 1.1 /\ vel q = vMul (vel p) c.

(** The thermal energy is within the range the code keeps it in. *)
Definition heatInRange (p : Particle) : Prop := 0 <= thermalEnergy p <= 1.

(** Mass and radius are the same. *)
Definition sameSize (p q : Particle) : Prop :=
  mass q = mass p /\ radius q = radius p.

(** The fastest speed in the store, as the loop at the head of [step]
    computes it. *)
Definition maxSpeedOf (ps : list Particle) : R :=
  foldl (fun m p =>
           let sp := Math_hypot (vel p).1 (vel p).2 in
           if decide (sp > m) then sp else m) 0 ps.

(** [Math.max(2, 0.5 * (this.particles[0]?.radius || 3))]. *)
Definition safeDispOf (ps : list Particle) : R :=
  Rmax 2 (0.5 * match ps with
                | p :: _ => orElse (radius p) 3
                | [] => 3
                end).

(** ** The periodic revision *)

(** The file also holds an earlier revision of the engine (from the second
    header comment on), in which the domain is periodic: positions wrap
    around, the grid indexes cells modulo its size and forces use the
    minimum image.  Its particles have no phase or thermal energy, so
    those fields of [Particle] stay as they are. *)
Module Periodic.

(** [((a % n) + n) % n] on integers, [%] being the remainder that takes
    the sign of the dividend. *)
Definition wrapIndex (a n : Z) : Z := Z.rem (Z.rem a n + n) n.

Definition cellIndex (g : NeighborGrid.t) (x y : R) : Z :=
  let cx := wrapIndex (Math_floor (x / NeighborGrid.cellSize g))
              (NeighborGrid.cols g) in
  let cy := wrapIndex (Math_floor (y / NeighborGrid.cellSize g))
              (NeighborGrid.rows g) in
  (cy * NeighborGrid.cols g + cx)%Z.

Definition insert (g : NeighborGrid.t) (id : nat) (p : Vec) : NeighborGrid.t :=
  let idx := cellIndex g p.1 p.2 in
  NeighborGrid.mk (NeighborGrid.width g) (NeighborGrid.height g)
    (NeighborGrid.cellSize g) (NeighborGrid.cols g) (NeighborGrid.rows g)
    (<[idx := default [] (NeighborGrid.cells g !! idx) ++ [id]]>
       (NeighborGrid.cells g)).

Definition rowVisits (g : NeighborGrid.t) (minCx maxCx cy : Z) : list nat :=
  flat_map
    (fun cx =>
       let ix := wrapIndex cx (NeighborGrid.cols g) in
       let iy := wrapIndex cy (NeighborGrid.rows g) in
       default [] (NeighborGrid.cells g !! (iy * NeighborGrid.cols g + ix)%Z))
    (seqZ minCx (maxCx - minCx + 1)).

Definition forNeighbors (g : NeighborGrid.t) (x y radius : R) : list nat :=
  let r := radius in
  let minCx := Math_floor ((x - r) / NeighborGrid.cellSize g) in
  let maxCx := Math_floor ((x + r) / NeighborGrid.cellSize g) in
  let minCy := Math_floor ((y - r) / NeighborGrid.cellSize g) in
  let maxCy := Math_floor ((y + r) / NeighborGrid.cellSize g) in
  flat_map (rowVisits g minCx maxCx) (seqZ minCy (maxCy - minCy + 1)).

Fixpoint insertFrom (i : nat) (ps : list Particle) (g : NeighborGrid.t)
  : NeighborGrid.t :=
  match ps with
  | [] => g
  | p :: rest => insertFrom (S i) rest (insert g i (pos p))
  end.

Definition rebuildGrid (g : NeighborGrid.t) (ps : list Particle)
  : NeighborGrid.t :=
  insertFrom 0 ps (NeighborGrid.clear g).

(** [wrap(p)]: one lap at most in each direction. *)
Definition wrap (w h : R) (p : Particle) : Particle :=
  let p :=
    if decide ((pos p).1 < 0) then setPos p ((pos p).1 + w, (pos p).2)
    else p in
  let p :=
    if decide ((pos p).1 >= w) then setPos p ((pos p).1 - w, (pos p).2)
    else p in
  let p :=
    if decide ((pos p).2 < 0) then setPos p ((pos p).1, (pos p).2 + h)
    else p in
  let p :=
    if decide ((pos p).2 >= h) then setPos p ((pos p).1, (pos p).2 - h)
    else p in
  p.

(** Lennard-Jones force of this revision: [epsilon] is the parameter. *)
Definition ljForce (P : Params) (rVec : Vec) : Vec :=
  let r := vLen rVec + 1e-9 in
  let sr := sigma P / r in
  let sr2 := sr * sr in
  let sr6 := sr2 * sr2 * sr2 in
  let sr12 := sr6 * sr6 in
  let mag := 24 * epsilon P * (2 * sr12 - sr6) * (1 / r) in
  let rCut := 2.5 * sigma P in
  let mag := if decide (r > rCut) then 0 else mag in
  let mag := clamp mag (-60) 60 in
  vMul (vNorm rVec) (- mag).

(** Minimum image under periodic boundaries, on one coordinate of the
    displacement. *)
Definition minimumImage (w d : R) : R :=
  let d := if decide (d > w / 2) then d - w else d in
  if decide (d < - w / 2) then d + w else d.

(** The neighbour callback of [computeForces]; [hbForce] and
    [dipoleForce] read the same in both revisions. *)
Definition forceCallback (w h : R) (P : Params) (i : nat) (ax ay : R)
    (ps : list Particle) (j : nat) : list Particle :=
  if decide (i = j) then ps else
  match ps !! i, ps !! j with
  | Some a, Some b =>
      let dx := minimumImage w ((pos b).1 - ax) in
      let dy := minimumImage h ((pos b).2 - ay) in
      let rVec := (dx, dy) in
      let f := vAdd (vAdd (ljForce P rVec) (hbForce P rVec))
                 (dipoleForce P rVec) in
      <[i := setAcc a (vAdd (acc a) f)]> ps
  | _, _ => ps
  end.

Definition forcesOn (w h : R) (P : Params) (g : NeighborGrid.t)
    (ps : list Particle) (i : nat) : list Particle :=
  match ps !! i with
  | Some a =>
      let ax := (pos a).1 in
      let ay := (pos a).2 in
      let rMax := 28 in
      foldl (forceCallback w h P i ax ay) ps (forNeighbors g ax ay rMax)
  | None => ps
  end.

(** Drag and uniform kick on one particle. *)
Definition dragKick (rs : RandomSource) (gamma kick : R) (p : Particle)
  : Env Particle :=
  let! k0 := randRange rs (- kick) kick in
  let ax := (acc p).1 + (- gamma * (vel p).1 + k0) in
  let! k1 := randRange rs (- kick) kick in
  let ay := (acc p).2 + (- gamma * (vel p).2 + k1) in
  ret (setAcc p (ax, ay)).

Definition computeForces (rs : RandomSource) (dt : R) (s : Sim) : Env Sim :=
  (* Neighbor build *)
  let g := rebuildGrid (grid s) (particles s) in
  let ps := map (fun p => setAcc p (0, 0)) (particles s) in
  let ps :=
    foldl (forcesOn (width s) (height s) (params s) g) ps
      (seq 0 (length ps)) in
  (* Drag + thermostat *)
  let gamma := clamp (viscosity (params s)) 0 4 in
  let kick := kT (params s) * 2.0 in
  let! ps := forEach (dragKick rs gamma kick) ps in
  ret (setGrid (setParticles s ps) g).

Definition step (rs : RandomSource) (dt : R) (s : Sim) : Env Sim :=
  let! s := computeForces rs dt s in
  ret (setParticles s
         (map (fun p => wrap (width s) (height s) (eulerStep dt p))
            (particles s))).

Fixpoint steps (rs : RandomSource) (k : nat) (dt : R) (s : Sim) : Env Sim :=
  match k with
  | O => ret s
  | S k' => let! s := step rs dt s in steps rs k' dt s
  end.

End Periodic.

(** ** The engine of highlow.js *)

(** [public/scripts/highlow.js] carries one more revision of the engine
    (from its second header comment on), in which the boundary follows the
    gravity toggle: walls while gravity is on, a periodic domain while it
    is off.  Its grid, minimum image and [wrap] read as in the periodic
    revision of [imfs.js], its three force terms as in the current one.
    Its particles have no thermal energy, so [thermalEnergy] and
    [lastStateChange] stay as they are. *)
Module HighLow.

(** The force the neighbour callback of [computeForces] adds to [a.acc]. *)
Definition pairForce (P : Params) (sa sb : Phase) (rVec : Vec) : Vec :=
  let gasScale :=
    if bool_decide (sa = gas) || bool_decide (sb = gas) then 0.2 else 1.0 in
  let fLJ := vMul (ljForce P rVec) (orElseU (cohLJ P) 1) in
  let fHB := vMul (hbForce P rVec) (orElseU (cohHB P) 1) in
  let fDP := vMul (dipoleForce P rVec) (orElseU (cohDP P) 1) in
  vAdd (vAdd (vMul fLJ gasScale) (vMul fHB gasScale)) (vMul fDP gasScale).

Definition forceCallback (w h : R) (P : Params) (i : nat) (ax ay : R)
    (ps : list Particle) (j : nat) : list Particle :=
  if decide (i = j) then ps else
  match ps !! i, ps !! j with
  | Some a, Some b =>
      (* Minimum image under periodic boundaries *)
      let dx := Periodic.minimumImage w ((pos b).1 - ax) in
      let dy := Periodic.minimumImage h ((pos b).2 - ay) in
      let rVec := (dx, dy) in
      let dist := Math_hypot dx dy in
      let densityCut := 2.4 * sigma P in
      let a :=
        if decide (dist < densityCut)
        then setLocalNeighbors a (S (localNeighbors a)) else a in
      let f := pairForce P (state a) (state b) rVec in
      <[i := setAcc a (vAdd (acc a) f)]> ps
  | _, _ => ps
  end.

Definition forcesOn (w h : R) (P : Params) (g : NeighborGrid.t)
    (ps : list Particle) (i : nat) : list Particle :=
  match ps !! i with
  | Some a =>
      let ax := (pos a).1 in
      let ay := (pos a).2 in
      let rMax := 28 in
      foldl (forceCallback w h P i ax ay) ps (Periodic.forNeighbors g ax ay rMax)
  | None => ps
  end.

(** Gentle velocity rescale toward the target kinetic energy, over all the
    particles. *)
Definition rescaleVelocities (kT : R) (ps : list Particle) : list Particle :=
  let keSum := foldl (fun k p => k + kineticEnergy p) 0 ps in
  let n := Rmax 1 (INR (length ps)) in
  let keAvg := keSum / n in
  let s := rescaleFactor kT keAvg in
  if decide (Rabs (s - 1) > 0.02) then
    map (fun p => setVel p ((vel p).1 * s, (vel p).2 * s)) ps
  else ps.

Definition computeForces (rs : RandomSource) (clock : nat -> R) (dt : R)
    (s : Sim) : Env Sim :=
  (* Neighbor build *)
  let g := Periodic.rebuildGrid (grid s) (particles s) in
  let ps := map (fun p => setLocalNeighbors (setAcc p (0, 0)) 0) (particles s) in
  let ps :=
    foldl (forcesOn (width s) (height s) (params s) g) ps
      (seq 0 (length ps)) in
  (* Drag + thermostat *)
  let gamma := 0.3 in
  let kT := Rmax 0 (orElse (kT (params s)) 0) in
  let kickSigma := sqrt (2 * gamma * kT) in
  let! ps := forEach (dragKick rs gamma kickSigma) ps in
  let! nowT := performance_now clock in
  let last := if decide (lastThermoMs s = 0) then nowT else lastThermoMs s in
  if decide (nowT - last > 500)
  then ret (mkSim (width s) (height s) (params s) (rescaleVelocities kT ps) g
              (gravityOn s) (heatingOn s) (heatAccel s) nowT)
  else ret (mkSim (width s) (height s) (params s) ps g
              (gravityOn s) (heatingOn s) (heatAccel s) last).

(** External heating: accelerate along the current velocity direction. *)
Definition heatParticle (rs : RandomSource) (aH : R) (p : Particle)
  : Env Particle :=
  let vx := (vel p).1 in
  let vy := (vel p).2 in
  let sp := Math_hypot vx vy in
  if decide (sp > 1e-3) then
    ret (addAcc p ((vx / sp) * aH) ((vy / sp) * aH))
  else
    let! t := Math_random rs in
    let ang := t * PI * 2 in
    ret (addAcc p (cos ang * aH) (sin ang * aH)).

Definition handleWalls (w h : R) (p : Particle) : Particle :=
  let r := orElse (radius p) 6 in
  let e := 0.2 in
  let fx := 0.98 in
  let p :=
    if decide ((pos p).1 < r)
    then setVel (setPos p (r, (pos p).2)) (- (vel p).1 * e, (vel p).2) else p in
  let p :=
    if decide ((pos p).1 > w - r)
    then setVel (setPos p (w - r, (pos p).2)) (- (vel p).1 * e, (vel p).2)
    else p in
  let p :=
    if decide ((pos p).2 < r)
    then setVel (setPos p ((pos p).1, r)) ((vel p).1 * fx, - (vel p).2 * e)
    else p in
  let p :=
    if decide ((pos p).2 > h - r)
    then setVel (setPos p ((pos p).1, h - r)) ((vel p).1 * fx, - (vel p).2 * e)
    else p in
  p.

(** The Euler update of one particle, then the boundary: walls with
    gravity on, wrap-around with gravity off. *)
Definition integrate (gravityOn : bool) (w h dt : R) (p : Particle)
  : Particle :=
  let p := eulerStep dt p in
  if gravityOn then handleWalls w h p else Periodic.wrap w h p.

(** Gas/liquid state hysteresis of one particle at time [nowS]. *)
Definition classify (P : Params) (nowS : R) (p : Particle) : Particle :=
  let epsBase := 0.15 + 0.25 * orElse (viscosity P) 0 in
  let c1 := 120 in
  let c2 := 10 in
  let rhoMin := 3%nat in
  let v2 := (vel p).1 * (vel p).1 + (vel p).2 * (vel p).2 in
  let vGas2 := c1 * orElse (kT P) 0 + c2 * epsBase in
  match state p with
  | liquid =>
      if decide (v2 > vGas2 /\ (localNeighbors p < rhoMin)%nat)
      then setPhase p gas (nowS + 1500) (lastStateChange p) else p
  | gas =>
      if decide (nowS > gasUntil p \/ v2 < 0.6 * vGas2
                 \/ (rhoMin <= localNeighbors p)%nat)
      then setPhase p liquid (gasUntil p) (lastStateChange p) else p
  end.

(** The collision callback: particle [i], whose position was read into
    [ax], [ay] before the sweep, meets the visited particle [jb]. *)
Definition collisionCallback (w h : R) (i : nat) (ax ay : R)
    (ps : list Particle) (jb : nat) : list Particle :=
  if decide (i = jb) then ps else
  match ps !! i, ps !! jb with
  | Some a, Some b =>
      let e := 0.2 in
      let dx := Periodic.minimumImage w ((pos b).1 - ax) in
      let dy := Periodic.minimumImage h ((pos b).2 - ay) in
      let dist := orElse (Math_hypot dx dy) 1e-9 in
      let minDist := orElse (radius a) 6 + orElse (radius b) 6 in
      if decide (dist < minDist) then
        let nx := dx / dist in
        let ny := dy / dist in
        let overlap := minDist - dist in
        (* position correction (split) *)
        let corr := overlap * 0.5 in
        let pa := ((pos a).1 - nx * corr, (pos a).2 - ny * corr) in
        let pb := ((pos b).1 + nx * corr, (pos b).2 + ny * corr) in
        (* velocity impulse along normal *)
        let rvx := (vel b).1 - (vel a).1 in
        let rvy := (vel b).2 - (vel a).2 in
        let vn := rvx * nx + rvy * ny in
        let '(va, vb) :=
          if decide (vn < 0) then
            let ma := orElse (mass a) 1 in
            let mb := orElse (mass b) 1 in
            let j := (- (1 + e) * vn) / (1 / ma + 1 / mb) in
            let jx := j * nx in
            let jy := j * ny in
            applyImpulse ma mb jx jy (vel a) (vel b)
          else (vel a, vel b) in
        <[jb := setVel (setPos b pb) vb]> (<[i := setVel (setPos a pa) va]> ps)
      else ps
  | _, _ => ps
  end.

Definition collisionsOf (w h : R) (g : NeighborGrid.t) (ps : list Particle)
    (i : nat) : list Particle :=
  match ps !! i with
  | Some a =>
      let ax := (pos a).1 in
      let ay := (pos a).2 in
      let rMax := 14 in
      foldl (collisionCallback w h i ax ay) ps
        (Periodic.forNeighbors g ax ay rMax)
  | None => ps
  end.

Definition resolveCollisions (s : Sim) : Sim :=
  let g := Periodic.rebuildGrid (grid s) (particles s) in
  let ps :=
    foldl (collisionsOf (width s) (height s) g) (particles s)
      (seq 0 (length (particles s))) in
  setGrid (setParticles s ps) g.

Definition step (rs : RandomSource) (clock : nat -> R) (dt : R) (s : Sim)
  : Env Sim :=
  (* Forces *)
  let! s := computeForces rs clock dt s in
  (* Gravity *)
  let s :=
    if gravityOn s
    then setParticles s (map (fun p => addAccY p 900) (particles s))
    else s in
  (* External heating *)
  let! ps :=
    if heatingOn s
    then forEach (heatParticle rs (heatAccel s)) (particles s)
    else ret (particles s) in
  let s := setParticles s ps in
  (* Gas buoyancy (if gravity on) *)
  let s :=
    if gravityOn s
    then setParticles s
           (map (fun p => if decide (state p = gas) then addAccY p (-600) else p)
              (particles s))
    else s in
  (* Integrate *)
  let s :=
    setParticles s
      (map (integrate (gravityOn s) (width s) (height s) dt) (particles s)) in
  (* Gas/liquid state hysteresis *)
  let! nowS := performance_now clock in
  let s := setParticles s (map (classify (params s) nowS) (particles s)) in
  (* Collisions: run twice for stability *)
  ret (resolveCollisions (resolveCollisions s)).

(** [k] consecutive calls of [step(dt)]. *)
Fixpoint steps (rs : RandomSource) (clock : nat -> R) (k : nat) (dt : R)
    (s : Sim) : Env Sim :=
  match k with
  | O => ret s
  | S k' => let! s := step rs clock dt s in steps rs clock k' dt s
  end.

End HighLow.

(** ** Vocabulary of the free flight on a periodic domain *)

(** The distance a particle launched at speed [v] covers in [k] steps of
    [dt] under a drag of rate [gamma]: each step first multiplies the speed
    by [1 - gamma * dt], then moves the particle at the new speed. *)
Fixpoint travel (gamma dt v : R) (k : nat) : R :=
  match k with
  | O => 0
  | S k' =>
      let v' := v * (1 - gamma * dt) in
      v' * dt + travel gamma dt v' k'
  end.

(** The store holds one particle, which is where a launch from [(x, y)] at
    velocity (10, 0) ends after 60 steps of 1/60 under a drag of rate
    [gamma] on a periodic domain [w] wide. *)
Definition coasted (w gamma x y : R) (ps : list Particle) : Prop :=
  exists p,
    ps = [p] /\
    pos p = (wrapped w (x + travel gamma (1 / 60) 10 60), y) /\
    vel p = (10 * (1 - gamma * (1 / 60)) ^ 60, 0).

(** The canvas of 900 by 420 at [kT = 0] with gravity and heating off,
    every force coefficient and cohesion weight at zero, and the given
    viscosity. *)
Definition inertSim (viscosity : R) (ps : list Particle) : Sim :=
  mkSim 900 420 (mkParams 0 10 viscosity 0 0 1 0 (Some 0) (Some 0) (Some 0))
    ps (NeighborGrid.new 900 420 24) false false 80 0.

(** A particle as the [makeParticle] of the two revisions with a periodic
    domain creates it (mass 1, radius 6), at [(x, y)] with velocity
    (10, 0). *)
Definition launched (x y : R) : Particle :=
  mkParticle (x, y) (10, 0) (0, 0) 1 6 liquid 0 0 0 0.

(** * Properties *)

(** ** Numbers and vectors *)

Ltac case_decides :=
  repeat match goal with
         | |- context [decide ?P] => destruct (decide P)
         | |- context [bool_decide ?P] => destruct (bool_decide_reflect P)
         end.

Ltac destruct_minmax :=
  unfold clamp, Rmax, Rmin in *;
  repeat match goal with
         | |- context [Rle_dec ?a ?b] => destruct (Rle_dec a b)
         | H : context [Rle_dec ?a ?b] |- _ => destruct (Rle_dec a b)
         end.

Lemma orElse_zero (x : R) : orElse x 0 = x.
Proof. unfold orElse. destruct (decide (x = 0)); congruence. Qed.

Lemma orElse_nonzero (x d : R) : x <> 0 -> orElse x d = x.
Proof. intros H. unfold orElse. destruct (decide (x = 0)); congruence. Qed.

Lemma Math_floor_bounds (x : R) :
  IZR (Math_floor x) <= x < IZR (Math_floor x) + 1.
Proof. unfold Math_floor. destruct (base_Int_part x). lra. Qed.

Lemma Math_floor_eq (x : R) (z : Z) :
  IZR z <= x < IZR z + 1 -> Math_floor x = z.
Proof.
  intros H. unfold Math_floor. symmetry. apply Int_part_spec. lra.
Qed.

Lemma Math_floor_mono (x y : R) : x <= y -> (Math_floor x <= Math_floor y)%Z.
Proof.
  intros H.
  pose proof (Math_floor_bounds x) as Hx.
  pose proof (Math_floor_bounds y) as Hy.
  assert (IZR (Math_floor x) < IZR (Math_floor y) + 1) as Hlt by lra.
  rewrite <- plus_IZR in Hlt. apply lt_IZR in Hlt. lia.
Qed.

Lemma Math_hypot_nonneg (x y : R) : 0 <= Math_hypot x y.
Proof. apply sqrt_pos. Qed.

Lemma Math_hypot_sqr (x y : R) :
  Math_hypot x y * Math_hypot x y = x * x + y * y.
Proof. unfold Math_hypot. apply sqrt_sqrt. nra. Qed.

Lemma Math_hypot_opp (x y : R) : Math_hypot (- x) (- y) = Math_hypot x y.
Proof. unfold Math_hypot. f_equal. ring. Qed.

Lemma Math_hypot_axis (x : R) : 0 <= x -> Math_hypot x 0 = x.
Proof.
  intros H. unfold Math_hypot.
  replace (x * x + 0 * 0) with (x²) by (unfold Rsqr; ring).
  now apply sqrt_Rsqr.
Qed.

Lemma Math_hypot_zero (x y : R) : Math_hypot x y = 0 -> x = 0 /\ y = 0.
Proof.
  intros H. pose proof (Math_hypot_sqr x y) as Hs. rewrite H in Hs. nra.
Qed.

Lemma vLen_nonneg (a : Vec) : 0 <= vLen a.
Proof. apply Math_hypot_nonneg. Qed.

Lemma vLen_vNeg (a : Vec) : vLen (vNeg a) = vLen a.
Proof. destruct a. apply Math_hypot_opp. Qed.

Lemma vNorm_vNeg (a : Vec) : vNorm (vNeg a) = vNeg (vNorm a).
Proof.
  unfold vNorm. rewrite vLen_vNeg.
  destruct (decide (vLen a > 1e-12)) as [H|H]; destruct a as [x y];
    unfold vNeg; simpl; f_equal; try lra; field; lra.
Qed.

Lemma vMul_vNeg (a : Vec) (k : R) : vMul (vNeg a) k = vNeg (vMul a k).
Proof. destruct a. unfold vMul, vNeg. simpl. f_equal; ring. Qed.

Lemma vAdd_vNeg (a b : Vec) : vAdd (vNeg a) (vNeg b) = vNeg (vAdd a b).
Proof. destruct a, b. unfold vAdd, vNeg. simpl. f_equal; ring. Qed.

Lemma vNeg_zero : vNeg (0, 0) = (0, 0).
Proof. unfold vNeg. simpl. f_equal; ring. Qed.

Lemma vMul_zero_r (a : Vec) : vMul a 0 = (0, 0).
Proof. destruct a. unfold vMul. simpl. f_equal; ring. Qed.

Lemma vMul_zero_l (k : R) : vMul (0, 0) k = (0, 0).
Proof. unfold vMul. simpl. f_equal; ring. Qed.

(** The normalised vector has a nonnegative component along the vector
    itself: its length, or zero for a vector too short to normalise. *)
Lemma vDot_vNorm (a : Vec) :
  vDot (vNorm a) a = if decide (vLen a > 1e-12) then vLen a else 0.
Proof.
  unfold vNorm. destruct (decide (vLen a > 1e-12)) as [H|H].
  - destruct a as [x y]. unfold vDot, vLen in *. simpl in *.
    pose proof (Math_hypot_sqr x y) as Hs.
    apply (Rmult_eq_reg_r (Math_hypot x y)); [|lra].
    rewrite Hs. field. lra.
  - unfold vDot. simpl. ring.
Qed.

Lemma vDot_vMul_l (a b : Vec) (k : R) : vDot (vMul a k) b = k * vDot a b.
Proof. destruct a, b. unfold vDot, vMul. simpl. ring. Qed.

Lemma vNorm_axis (x : R) : x > 1e-12 -> vNorm (x, 0) = (1, 0).
Proof.
  intros H. unfold vNorm, vLen. simpl. rewrite Math_hypot_axis by lra.
  destruct (decide (x > 1e-12)); [|lra]. f_equal; field; lra.
Qed.

Lemma clamp_bounds (x lo hi : R) : lo <= hi -> lo <= clamp x lo hi <= hi.
Proof. intros. destruct_minmax; lra. Qed.

Lemma clamp_pos (x lo hi : R) : 0 < x -> 0 < hi -> 0 < clamp x lo hi.
Proof. intros. destruct_minmax; lra. Qed.

Lemma clamp_neg (x lo hi : R) : x < 0 -> lo < 0 -> clamp x lo hi < 0.
Proof. intros. destruct_minmax; lra. Qed.

Lemma clamp_zero (lo hi : R) : lo <= 0 <= hi -> clamp 0 lo hi = 0.
Proof. intros. destruct_minmax; lra. Qed.

(** ** Force model *)

(** C1.  With [r] the padded separation [|rVec| + 1e-9]: beyond [2.5 sigma]
    the Lennard-Jones term is exactly zero; up to the cutoff it is the
    normalised displacement scaled by minus the magnitude
    [24 eps (2 (sigma/r)^12 - (sigma/r)^6) / r] clamped to [-60, 60], with
    [eps = 0.3 + 0.5 viscosity]; the force on A points away from B where
    [2 (sigma/r)^6 > 1] (small [r]) and toward B where [2 (sigma/r)^6 < 1]
    (the well). *)
Theorem ljForce_cutoff_and_magnitude (P : Params) (rVec : Vec) :
  let r := vLen rVec + 1e-9 in
  let eps := 0.3 + 0.5 * viscosity P in
  let mag :=
    clamp (24 * eps * (2 * (sigma P / r) ^ 12 - (sigma P / r) ^ 6) * (1 / r))
      (-60) 60 in
  (vLen rVec > 2.5 * sigma P -> ljForce P rVec = (0, 0)) /\
  (r > 2.5 * sigma P -> ljForce P rVec = (0, 0)) /\
  (r <= 2.5 * sigma P ->
   ljForce P rVec = vMul (vNorm rVec) (- mag) /\
   -60 <= mag <= 60 /\
   (0 < eps -> vLen rVec > 1e-12 -> 2 * (sigma P / r) ^ 6 > 1 ->
    vDot (ljForce P rVec) rVec < 0) /\
   (0 < eps -> vLen rVec > 1e-12 -> 0 < 2 * (sigma P / r) ^ 6 < 1 ->
    vDot (ljForce P rVec) rVec > 0)).
Proof.
  intros r eps mag.
  pose proof (vLen_nonneg rVec) as Hlen.
  assert (Hbeyond : r > 2.5 * sigma P -> ljForce P rVec = (0, 0)).
  { intros Hr. unfold ljForce. fold r.
    destruct (decide (r > 2.5 * sigma P)); [|lra].
    rewrite clamp_zero by lra. rewrite Ropp_0. apply vMul_zero_r. }
  assert (Hwithin :
            r <= 2.5 * sigma P -> ljForce P rVec = vMul (vNorm rVec) (- mag)).
  { intros Hr. unfold ljForce. fold r. rewrite orElse_zero.
    destruct (decide (r > 2.5 * sigma P)); [lra|].
    do 2 f_equal. unfold mag, eps. f_equal. ring. }
  split; [|split]; auto.
  - intros H. apply Hbeyond. unfold r. lra.
  - intros Hr. split; [auto|]. split.
    + apply clamp_bounds. lra.
    + set (s6 := (sigma P / r) ^ 6) in *.
      assert (Hs12 : (sigma P / r) ^ 12 = s6 * s6) by (unfold s6; ring).
      assert (Hrpos : 0 < 1 / r) by (apply Rdiv_lt_0_compat; unfold r; lra).
      rewrite Hwithin by assumption. rewrite vDot_vMul_l, vDot_vNorm.
      split; intros Heps Hv Hs; destruct (decide (vLen rVec > 1e-12)); try lra.
      * assert (0 < mag).
        { apply clamp_pos; [|lra]. rewrite Hs12.
          apply Rmult_lt_0_compat; [|assumption].
          apply Rmult_lt_0_compat; nra. }
        nra.
      * assert (mag < 0).
        { apply clamp_neg; [|lra]. rewrite Hs12.
          assert (s6 * (2 * s6 - 1) < 0) by nra.
          assert (0 < 24 * eps * (1 / r)) by (apply Rmult_lt_0_compat; lra).
          replace (24 * eps * (2 * (s6 * s6) - s6) * (1 / r))
            with ((24 * eps * (1 / r)) * (s6 * (2 * s6 - 1))) by ring.
          nra. }
        nra.
Qed.

(** In the honey scenario a neighbour 30 away exerts no Lennard-Jones
    force, one 12 away attracts and one 9 away repels. *)
Lemma ljForce_cutoff_and_magnitude_witness :
  ljForce (scenarioDefaults honey 1) (30, 0) = (0, 0) /\
  vDot (ljForce (scenarioDefaults honey 1) (12, 0)) (12, 0) > 0 /\
  vDot (ljForce (scenarioDefaults honey 1) (9, 0)) (9, 0) < 0.
Proof.
  assert (Hlen : forall x, 0 <= x -> vLen (x, 0) = x)
    by (intros; now apply Math_hypot_axis).
  split; [|split].
  - apply (ljForce_cutoff_and_magnitude (scenarioDefaults honey 1) (30, 0)).
    rewrite Hlen by lra. simpl. lra.
  - apply (ljForce_cutoff_and_magnitude (scenarioDefaults honey 1) (12, 0));
      rewrite ?Hlen by lra; simpl; lra.
  - apply (ljForce_cutoff_and_magnitude (scenarioDefaults honey 1) (9, 0));
      rewrite ?Hlen by lra; simpl; lra.
Defined.

Lemma ljForce_odd (P : Params) (v : Vec) :
  ljForce P (vNeg v) = vNeg (ljForce P v).
Proof. unfold ljForce. rewrite vLen_vNeg, vNorm_vNeg. apply vMul_vNeg. Qed.

Lemma hbForce_odd (P : Params) (v : Vec) :
  hbForce P (vNeg v) = vNeg (hbForce P v).
Proof.
  unfold hbForce. rewrite vLen_vNeg, vNorm_vNeg.
  repeat case_decide; rewrite ?vNeg_zero; auto using vMul_vNeg.
Qed.

Lemma dipoleForce_odd (P : Params) (v : Vec) :
  dipoleForce P (vNeg v) = vNeg (dipoleForce P v).
Proof.
  unfold dipoleForce. rewrite vLen_vNeg, vNorm_vNeg.
  repeat case_decide; rewrite ?vNeg_zero; auto using vMul_vNeg.
Qed.

Lemma pairForce_odd (P : Params) (sa sb : Phase) (v : Vec) :
  pairForce P sb sa (vNeg v) = vNeg (pairForce P sa sb v).
Proof.
  unfold pairForce.
  rewrite ljForce_odd, hbForce_odd, dipoleForce_odd.
  rewrite !vMul_vNeg, !vAdd_vNeg.
  destruct sa, sb; reflexivity.
Qed.

(** C3.  Each force term is odd in the displacement, and so is the weighted
    sum the neighbour callback of [computeForces] forms for a pair, whose
    phase-dependent scaling does not depend on which particle comes first:
    the force on A from B is the negation of the force on B from A. *)
Theorem newton_third_law (P : Params) (a b : Particle) (rVec : Vec) :
  ljForce P (vNeg rVec) = vNeg (ljForce P rVec) /\
  hbForce P (vNeg rVec) = vNeg (hbForce P rVec) /\
  dipoleForce P (vNeg rVec) = vNeg (dipoleForce P rVec) /\
  pairForce P (state b) (state a) (vNeg rVec)
    = vNeg (pairForce P (state a) (state b) rVec) /\
  pairForce P (state b) (state a) (vSub (pos a) (pos b))
    = vNeg (pairForce P (state a) (state b) (vSub (pos b) (pos a))).
Proof.
  repeat split;
    auto using ljForce_odd, hbForce_odd, dipoleForce_odd, pairForce_odd.
  rewrite <- pairForce_odd. f_equal.
  destruct (pos a), (pos b). unfold vSub, vNeg. simpl. f_equal; ring.
Qed.

(** What the neighbour callback does to particle [i] on meeting [j]: it
    adds the pair force at displacement [pos b - pos a] to [a.acc]. *)
Lemma forceCallback_acc (P : Params) (i j : nat) (ps : list Particle)
    (a b : Particle) :
  i <> j -> ps !! i = Some a -> ps !! j = Some b ->
  exists a',
    forceCallback P i (pos a).1 (pos a).2 ps j = <[i := a']> ps /\
    acc a'
      = vAdd (acc a) (pairForce P (state a) (state b) (vSub (pos b) (pos a))) /\
    state a' = state a /\ pos a' = pos a /\ vel a' = vel a.
Proof.
  intros Hij Ha Hb. unfold forceCallback.
  destruct (decide (i = j)); [contradiction|]. rewrite Ha, Hb.
  eexists. split; [reflexivity|].
  case_decide; simpl; auto.
Qed.

(** C10.  For a pair of two liquid particles the Lennard-Jones and the
    hydrogen-bond term carry the factor 1.3 on top of their scenario
    weights and the dipole term only its weight; with a gas particle in
    the pair all three weighted terms are scaled by 0.2. *)
Theorem liquid_pair_boost (P : Params) (sa sb : Phase) (rVec : Vec) :
  let cLJ := orElseU (cohLJ P) 1 in
  let cHB := orElseU (cohHB P) 1 in
  let cDP := orElseU (cohDP P) 1 in
  (sa = liquid /\ sb = liquid ->
   pairForce P sa sb rVec =
     vAdd (vAdd (vMul (ljForce P rVec) (cLJ * 1.3))
                (vMul (hbForce P rVec) (cHB * 1.3)))
          (vMul (dipoleForce P rVec) cDP)) /\
  (sa = gas \/ sb = gas ->
   pairForce P sa sb rVec =
     vAdd (vAdd (vMul (vMul (ljForce P rVec) cLJ) 0.2)
                (vMul (vMul (hbForce P rVec) cHB) 0.2))
          (vMul (vMul (dipoleForce P rVec) cDP) 0.2)).
Proof.
  intros cLJ cHB cDP. split.
  - intros [-> ->]. unfold pairForce. simpl.
    destruct (ljForce P rVec), (hbForce P rVec), (dipoleForce P rVec).
    unfold vAdd, vMul. simpl. fold cLJ cHB cDP. f_equal; lra.
  - intros H. unfold pairForce.
    destruct sa, sb; try (destruct H; discriminate); simpl;
    destruct (ljForce P rVec), (hbForce P rVec), (dipoleForce P rVec);
    unfold vAdd, vMul; simpl; fold cLJ cHB cDP; f_equal; lra.
Qed.

(** The boost and the gas scaling at a liquid pair and at a mixed pair of
    the honey scenario. *)
Lemma liquid_pair_boost_witness :
  let P := applyIMFCoeffsFor (scenarioDefaults honey 1) honey in
  let v : Vec := (12, 5) in
  pairForce P liquid liquid v =
    vAdd (vAdd (vMul (ljForce P v) (orElseU (cohLJ P) 1 * 1.3))
               (vMul (hbForce P v) (orElseU (cohHB P) 1 * 1.3)))
         (vMul (dipoleForce P v) (orElseU (cohDP P) 1)) /\
  pairForce P liquid gas v =
    vAdd (vAdd (vMul (vMul (ljForce P v) (orElseU (cohLJ P) 1)) 0.2)
               (vMul (vMul (hbForce P v) (orElseU (cohHB P) 1)) 0.2))
         (vMul (vMul (dipoleForce P v) (orElseU (cohDP P) 1)) 0.2).
Proof.
  intros P v. split.
  - apply (liquid_pair_boost P liquid liquid v). split; reflexivity.
  - apply (liquid_pair_boost P liquid gas v). right; reflexivity.
Defined.

(** The cutoffs and the strength gates of the two cohesion terms. *)
Lemma cohesion_terms_zero (P : Params) (rVec : Vec) :
  (hbStrength P <= 0 \/ vLen rVec + 1e-9 > 1.8 * sigma P ->
   hbForce P rVec = (0, 0)) /\
  (dipole P <= 0 \/ vLen rVec + 1e-9 > 2.2 * sigma P ->
   dipoleForce P rVec = (0, 0)).
Proof.
  split; intros H; [unfold hbForce | unfold dipoleForce];
    repeat case_decide; auto; lra.
Qed.

(** Inside its cutoff the hydrogen-bond term on A has a strictly negative
    component along the displacement toward B. *)
Lemma hbForce_away (P : Params) (rVec : Vec) :
  0 < hbStrength P -> vLen rVec > 1e-12 ->
  vLen rVec + 1e-9 < 1.8 * sigma P ->
  vDot (hbForce P rVec) rVec < 0.
Proof.
  intros HE Hv Hr. unfold hbForce.
  destruct (decide (hbStrength P <= 0)); [lra|].
  destruct (decide (vLen rVec + 1e-9 > 1.8 * sigma P)); [lra|].
  rewrite vDot_vMul_l, vDot_vNorm.
  destruct (decide (vLen rVec > 1e-12)); [|lra].
  set (d := vLen rVec + 1e-9) in *.
  assert (0 < d) by (unfold d; lra).
  assert (d / (1.8 * sigma P) < 1).
  { apply (Rmult_lt_reg_r (1.8 * sigma P)); [lra|].
    replace (d / (1.8 * sigma P) * (1.8 * sigma P)) with d by (field; lra).
    lra. }
  rewrite Rmax_right by lra.
  assert (0 < hbStrength P * (1 - d / (1.8 * sigma P)))
    by (apply Rmult_lt_0_compat; lra).
  nra.
Qed.

(** Inside its cutoff the dipole term on A has a strictly negative
    component along the displacement toward B. *)
Lemma dipoleForce_away (P : Params) (rVec : Vec) :
  0 < dipole P -> vLen rVec > 1e-12 ->
  vLen rVec + 1e-9 <= 2.2 * sigma P ->
  vDot (dipoleForce P rVec) rVec < 0.
Proof.
  intros HD Hv Hr. unfold dipoleForce.
  destruct (decide (dipole P <= 0)); [lra|].
  destruct (decide (vLen rVec + 1e-9 > 2.2 * sigma P)); [lra|].
  rewrite vDot_vMul_l, vDot_vNorm.
  destruct (decide (vLen rVec > 1e-12)); [|lra].
  set (d := vLen rVec + 1e-9) in *.
  assert (0 < d) by (unfold d; lra).
  assert (0 < 1 / (d * d)).
  { apply Rdiv_lt_0_compat; [lra|]. apply Rmult_lt_0_compat; lra. }
  assert (0.1 <= Rmax 0.1 (1 - d / (2.2 * sigma P))) by apply Rmax_l.
  assert (0 < dipole P * (1 / (d * d)) * Rmax 0.1 (1 - d / (2.2 * sigma P))).
  { apply Rmult_lt_0_compat; [|lra]. apply Rmult_lt_0_compat; lra. }
  nra.
Qed.

(** C2, evaluated.  B lies 9 to the right of A, inside both cutoffs.  The
    hydrogen-bond term of the honey scenario and the dipole term of the
    DMSO scenario give A a force with a strictly negative first component
    and zero second component: directed from B to A, the opposite of an
    attraction of A toward B. *)
Theorem cohesion_terms_push_apart :
  let rVec : Vec := (9, 0) in
  ((hbForce (scenarioDefaults honey 1) rVec).1 < 0 /\
   (hbForce (scenarioDefaults honey 1) rVec).2 = 0) /\
  ((dipoleForce (scenarioDefaults dmso 1) rVec).1 < 0 /\
   (dipoleForce (scenarioDefaults dmso 1) rVec).2 = 0).
Proof.
  intros rVec.
  assert (Hlen : vLen rVec = 9) by (apply Math_hypot_axis; lra).
  assert (Hn : vNorm rVec = (1, 0)) by (apply vNorm_axis; lra).
  split.
  - unfold hbForce. rewrite Hlen, Hn. simpl.
    destruct (decide (1.8 <= 0)); [lra|].
    destruct (decide (9 + 1e-9 > 1.8 * 10)); [lra|].
    simpl. split; [|ring].
    rewrite Rmax_right by lra. lra.
  - unfold dipoleForce. rewrite Hlen, Hn. simpl.
    destruct (decide (1.6 <= 0)); [lra|].
    destruct (decide (9 + 1e-9 > 2.2 * 10)); [lra|].
    simpl. split; [|ring].
    rewrite Rmax_right by lra. lra.
Qed.

(** ** Neighbour grid *)

Section GridFacts.
Import NeighborGrid.



Lemma insert_geometry (g : NeighborGrid.t) (id : nat) (p : Vec) :
cellSize (insert g id p) = cellSize g /\
cols (insert g id p) = cols g /\ rows (insert g id p) = rows g.
Proof. auto. Qed.

Lemma bucket_insert (g : NeighborGrid.t) (id : nat) (p : Vec) (idx : Z) :
bucket (insert g id p) idx =
  if decide (idx = cellIndex g p.1 p.2) then bucket g idx ++ [id]
  else bucket g idx.
Proof.
unfold bucket, insert. simpl.
destruct (decide (idx = cellIndex g p.1 p.2)) as [->|Hne].
- now rewrite lookup_insert_eq.
- now rewrite lookup_insert_ne.
Qed.

Lemma cellIndex_geometry (g g' : NeighborGrid.t) (x y : R) :
cellSize g' = cellSize g -> cols g' = cols g -> rows g' = rows g ->
cellIndex g' x y = cellIndex g x y.
Proof. intros H1 H2 H3. unfold cellIndex. now rewrite H1, H2, H3. Qed.

Lemma insertFrom_geometry (ps : list Particle) (i : nat) (g : NeighborGrid.t) :
cellSize (insertFrom i ps g) = cellSize g /\
cols (insertFrom i ps g) = cols g /\ rows (insertFrom i ps g) = rows g.
Proof.
revert i g. induction ps as [|p ps IH]; intros i g; simpl; [auto|].
destruct (IH (S i) (insert g i (pos p))) as (-> & -> & ->). auto.
Qed.

Lemma insertFrom_keeps (ps : list Particle) (i : nat) (g : NeighborGrid.t)
  (id : nat) (idx : Z) :
id ∈ bucket g idx -> id ∈ bucket (insertFrom i ps g) idx.
Proof.
revert i g. induction ps as [|p ps IH]; intros i g Hin; simpl; [auto|].
apply IH. rewrite bucket_insert. case_decide; [|auto].
apply elem_of_app. now left.
Qed.

Lemma insertFrom_bucket (ps : list Particle) (i : nat) (g : NeighborGrid.t)
  (k : nat) (p : Particle) :
ps !! k = Some p ->
(i + k)%nat ∈ bucket (insertFrom i ps g) (cellIndex g (pos p).1 (pos p).2).
Proof.
revert i g k. induction ps as [|q ps IH]; intros i g k Hk; [done|].
destruct k as [|k]; simpl in *.
- injection Hk as ->. apply insertFrom_keeps.
  rewrite bucket_insert. rewrite decide_True by reflexivity.
  apply elem_of_app. right. rewrite Nat.add_0_r. apply list_elem_of_singleton. reflexivity.
- replace (i + S k)%nat with (S i + k)%nat by lia.
  rewrite <- (cellIndex_geometry g (insert g i (pos q))) by reflexivity.
  now apply IH.
Qed.

(** Every index stored in a bucket is the index of a particle. *)
Lemma insertFrom_sound (ps : list Particle) (i : nat) (g : NeighborGrid.t)
  (id : nat) (idx : Z) :
id ∈ bucket (insertFrom i ps g) idx ->
id ∈ bucket g idx \/ (i <= id < i + length ps)%nat.
Proof.
revert i g. induction ps as [|p ps IH]; intros i g Hin; simpl in *; [auto|].
apply IH in Hin as [Hin|Hin]; [|right; lia].
rewrite bucket_insert in Hin. case_decide; [|auto].
apply elem_of_app in Hin as [Hin|Hin]; [auto|].
apply list_elem_of_singleton in Hin. right. lia.
Qed.

Lemma rebuildGrid_geometry (g : NeighborGrid.t) (ps : list Particle) :
cellSize (rebuildGrid g ps) = cellSize g /\
cols (rebuildGrid g ps) = cols g /\ rows (rebuildGrid g ps) = rows g.
Proof. unfold rebuildGrid. apply (insertFrom_geometry ps 0 (clear g)). Qed.

Lemma forNeighbors_elem (g : NeighborGrid.t) (x y r : R) (id : nat) :
id ∈ forNeighbors g x y r <->
exists cx cy : Z,
  (Math_floor ((x - r) / cellSize g) <= cx <= Math_floor ((x + r) / cellSize g))%Z /\
  (Math_floor ((y - r) / cellSize g) <= cy <= Math_floor ((y + r) / cellSize g))%Z /\
  (0 <= cx < cols g)%Z /\ (0 <= cy < rows g)%Z /\
  id ∈ bucket g (cy * cols g + cx).
Proof.
unfold forNeighbors, rowVisits. rewrite list_elem_of_In, in_flat_map. split.
- intros (cy & Hcy & Hin). apply in_flat_map in Hin as (cx & Hcx & Hin).
  apply list_elem_of_In, elem_of_seqZ in Hcy, Hcx.
  destruct (decide _) as [Hout|Hin']; [destruct Hin|].
  exists cx, cy. rewrite list_elem_of_In. unfold bucket. repeat split; auto; lia.
- intros (cx & cy & Hcx & Hcy & Hx & Hy & Hin).
  exists cy. split; [apply list_elem_of_In, elem_of_seqZ; lia|].
  apply in_flat_map. exists cx. split; [apply list_elem_of_In, elem_of_seqZ; lia|].
  destruct (decide _) as [Hout|Hin']; [lia|]. now apply list_elem_of_In.
Qed.



Lemma Rabs_le_bounds (a b : R) : Rabs a <= b -> - b <= a <= b.
Proof. unfold Rabs. destruct (Rcase_abs a); lra. Qed.

Lemma Math_hypot_le (x y r : R) :
0 <= r -> x * x + y * y <= r * r -> Math_hypot x y <= r.
Proof.
intros Hr H. pose proof (Math_hypot_nonneg x y).
pose proof (Math_hypot_sqr x y). nra.
Qed.

Lemma Math_hypot_ge_l (x y : R) : Rabs x <= Math_hypot x y.
Proof.
pose proof (Math_hypot_nonneg x y). pose proof (Math_hypot_sqr x y).
unfold Rabs. destruct (Rcase_abs x); nra.
Qed.

Lemma Math_hypot_ge_r (x y : R) : Rabs y <= Math_hypot x y.
Proof.
pose proof (Math_hypot_nonneg x y). pose proof (Math_hypot_sqr x y).
unfold Rabs. destruct (Rcase_abs y); nra.
Qed.

Lemma Math_floor_div_mono (a b cs : R) :
0 < cs -> a <= b -> (Math_floor (a / cs) <= Math_floor (b / cs))%Z.
Proof.
intros Hcs Hab. apply Math_floor_mono.
unfold Rdiv. apply Rmult_le_compat_r; [|assumption].
left. now apply Rinv_0_lt_compat.
Qed.

Lemma Math_floor_div_range (a cs : R) (n : Z) :
0 < cs -> 0 <= a < IZR n * cs -> (0 <= Math_floor (a / cs) < n)%Z.
Proof.
intros Hcs [H0 Hn].
pose proof (Math_floor_bounds (a / cs)) as [Hlo Hhi].
assert (Hq : 0 <= a / cs < IZR n).
{ split.
  - apply Rmult_le_reg_r with cs; [assumption|].
    replace (a / cs * cs) with a by (field; lra). lra.
  - apply Rmult_lt_reg_r with cs; [assumption|].
    replace (a / cs * cs) with a by (field; lra). lra. }
split.
- assert (IZR 0 < IZR (Math_floor (a / cs)) + 1) as H by (simpl; lra).
  rewrite <- plus_IZR in H. apply lt_IZR in H. lia.
- apply lt_IZR. lra.
Qed.

Lemma cellIndex_inside (g : NeighborGrid.t) (x y : R) :
0 < cellSize g ->
0 <= x < IZR (cols g) * cellSize g -> 0 <= y < IZR (rows g) * cellSize g ->
cellIndex g x y
  = (Math_floor (y / cellSize g) * cols g + Math_floor (x / cellSize g))%Z.
Proof.
intros Hcs Hx Hy. unfold cellIndex.
pose proof (Math_floor_div_range x (cellSize g) (cols g) Hcs Hx).
pose proof (Math_floor_div_range y (cellSize g) (rows g) Hcs Hy).
f_equal; [f_equal|]; lia.
Qed.

(** A particle inside the area the cells cover is visited by every query
  whose square of half-width [r] contains it. *)
Lemma forNeighbors_visits (g : NeighborGrid.t) (ps : list Particle)
  (x y r : R) (k : nat) (p : Particle) :
0 < cellSize g -> ps !! k = Some p ->
0 <= (pos p).1 < IZR (cols g) * cellSize g ->
0 <= (pos p).2 < IZR (rows g) * cellSize g ->
Rabs ((pos p).1 - x) <= r -> Rabs ((pos p).2 - y) <= r ->
k ∈ forNeighbors (rebuildGrid g ps) x y r.
Proof.
intros Hcs Hk Hx Hy Hdx Hdy.
destruct (rebuildGrid_geometry g ps) as (Ecs & Ecols & Erows).
apply forNeighbors_elem. rewrite Ecs, Ecols, Erows.
exists (Math_floor ((pos p).1 / cellSize g)), (Math_floor ((pos p).2 / cellSize g)).
apply Rabs_le_bounds in Hdx, Hdy.
split; [|split; [|split; [|split]]].
- split; apply Math_floor_div_mono; (assumption || lra).
- split; apply Math_floor_div_mono; (assumption || lra).
- now apply Math_floor_div_range.
- now apply Math_floor_div_range.
- idtac.
rewrite <- cellIndex_inside by assumption.
pose proof (insertFrom_bucket ps 0 (clear g) k p Hk) as Hin.
simpl in Hin. apply Hin.
Qed.

(** C4, amended.  After the grid is rebuilt from the particles, a query
  [forNeighbors(x, y, r, fn)] visits every particle within Euclidean
  distance [r] of [(x, y)] whose position lies inside the area the cells
  cover, [0 <= x < cols * cellSize] and [0 <= y < rows * cellSize]. *)
Theorem forNeighbors_no_false_negatives (w h cs : R) (ps : list Particle)
  (x y r : R) (k : nat) (p : Particle) :
let g := rebuildGrid (NeighborGrid.new w h cs) ps in
ps !! k = Some p ->
0 <= (pos p).1 < IZR (cols g) * cellSize g ->
0 <= (pos p).2 < IZR (rows g) * cellSize g ->
Math_hypot ((pos p).1 - x) ((pos p).2 - y) <= r ->
k ∈ forNeighbors g x y r.
Proof.
intros g Hk Hx Hy Hr. subst g.
destruct (rebuildGrid_geometry (new w h cs) ps) as (Ecs & Ecols & Erows).
rewrite Ecs, Ecols in Hx. rewrite Ecs, Erows in Hy.
apply forNeighbors_visits with p; auto.
- simpl. pose proof (Rmax_l 8 cs). lra.
- pose proof (Math_hypot_ge_l ((pos p).1 - x) ((pos p).2 - y)). lra.
- pose proof (Math_hypot_ge_r ((pos p).1 - x) ((pos p).2 - y)). lra.
Qed.

(** The grid of the default 900 by 420 canvas: 37 by 17 cells of size 24,
  which cover 888 by 408. *)
Lemma new_900_420 :
cellSize (new 900 420 24) = 24 /\ cols (new 900 420 24) = 37%Z /\
rows (new 900 420 24) = 17%Z.
Proof.
unfold new. simpl. rewrite Rmax_right by lra.
rewrite (Math_floor_eq (900 / 24) 37) by lra.
rewrite (Math_floor_eq (420 / 24) 17) by lra. auto.
Qed.

(** A particle at (100, 100) is visited by the query of radius 16 around
  (110, 100). *)
Lemma forNeighbors_no_false_negatives_witness :
0%nat ∈ forNeighbors (rebuildGrid (new 900 420 24) [restingAt 100 100])
          110 100 16.
Proof.
destruct new_900_420 as (Ecs & Ecols & Erows).
apply (forNeighbors_no_false_negatives 900 420 24 [restingAt 100 100]
         110 100 16 0 (restingAt 100 100)).
- reflexivity.
- destruct (rebuildGrid_geometry (new 900 420 24) [restingAt 100 100])
    as (-> & -> & _). rewrite Ecs, Ecols. simpl. lra.
- destruct (rebuildGrid_geometry (new 900 420 24) [restingAt 100 100])
    as (-> & _ & ->). rewrite Ecs, Erows. simpl. lra.
- simpl. apply Math_hypot_le; lra.
Defined.

(** C4 as stated fails.  On the default canvas a particle at (100, 415),
  below the last row of cells, is stored in row 16 by the clamp of
  [cellIndex]; the query of radius 5 around (100, 417), two units away,
  sweeps row 17 only, which it skips as out of range, and visits
  nothing. *)
Lemma forNeighbors_misses_clamped_particle :
let p := restingAt 100 415 in
let g := rebuildGrid (new 900 420 24) [p] in
Math_hypot ((pos p).1 - 100) ((pos p).2 - 417) <= 5 /\
0%nat ∉ forNeighbors g 100 417 5.
Proof.
intros p g. split.
- simpl. apply Math_hypot_le; lra.
- intros Hin. apply forNeighbors_elem in Hin as (cx & cy & _ & Hcy & _ & Hrow & _).
  destruct new_900_420 as (Ecs & Ecols & Erows).
  destruct (rebuildGrid_geometry (new 900 420 24) [p]) as (Gcs & _ & Grows).
  fold g in Gcs, Grows. rewrite Gcs, Ecs in Hcy. rewrite Grows, Erows in Hrow.
  rewrite (Math_floor_eq ((417 - 5) / 24) 17) in Hcy by lra. lia.
Qed.

End GridFacts.

(** ** Frame lemmas: what the motion part of a step leaves alone *)

Lemma forEach_Forall2 {A} (R : A -> A -> Prop) (f : A -> Env A)
    (l : list A) (w : World) :
  (forall x w, R x (f x w).1) -> Forall2 R l (forEach f l w).1.
Proof.
  intros Hf. revert w. induction l as [|x t IH]; intros w; simpl.
  - constructor.
  - unfold bind. specialize (Hf x w). destruct (f x w) as [y w1].
    specialize (IH w1). destruct (forEach f t w1) as [t' w2]. simpl in *.
    now constructor.
Qed.

Lemma Forall2_map_r_same {A} (R : A -> A -> Prop) (f : A -> A) (l : list A) :
  (forall x, R x (f x)) -> Forall2 R l (map f l).
Proof. intros Hf. induction l; simpl; constructor; auto. Qed.

Lemma Forall2_insert_r_same {A} (R : A -> A -> Prop) (l : list A) (i : nat)
    (x y : A) :
  (forall z, R z z) -> l !! i = Some x -> R x y -> Forall2 R l (<[i := y]> l).
Proof.
  intros Hrefl Hi Hxy.
  rewrite <- (list_insert_id l i x Hi) at 1.
  apply Forall2_insert; [|assumption].
  apply Forall_Forall2_diag, Forall_forall. auto.
Qed.

Lemma foldl_invariant {A B} (I : A -> Prop) (f : A -> B -> A) (l : list B) (a : A) :
  (forall a b, I a -> I (f a b)) -> I a -> I (foldl f a l).
Proof. intros Hf. revert a. induction l; simpl; auto. Qed.

Lemma sameBody_refl (p : Particle) : sameBody p p.
Proof. unfold sameBody. auto. Qed.

Lemma sameBody_trans (p q r : Particle) :
  sameBody p q -> sameBody q r -> sameBody p r.
Proof. unfold sameBody. intuition congruence. Qed.

Lemma sameBodies_refl (ps : list Particle) : Forall2 sameBody ps ps.
Proof. apply Forall_Forall2_diag, Forall_forall. auto using sameBody_refl. Qed.

Lemma sameBodies_trans (ps qs rs : list Particle) :
  Forall2 sameBody ps qs -> Forall2 sameBody qs rs -> Forall2 sameBody ps rs.
Proof.
  intros H. revert rs. induction H; intros rs Hq; inversion Hq; subst;
    constructor; eauto using sameBody_trans.
Qed.

Lemma sameSetup_refl (s : Sim) : sameSetup s s.
Proof. unfold sameSetup. repeat split; reflexivity. Qed.

Lemma sameSetup_trans (s1 s2 s3 : Sim) :
  sameSetup s1 s2 -> sameSetup s2 s3 -> sameSetup s1 s3.
Proof. unfold sameSetup. intuition congruence. Qed.

Ltac same_body :=
  unfold sameBody, bind, ret, Math_random; repeat case_decide; simpl;
  repeat split; reflexivity.

Lemma forceCallback_sameBody (P : Params) (i j : nat) (ax ay : R)
    (ps : list Particle) :
  Forall2 sameBody ps (forceCallback P i ax ay ps j).
Proof.
  unfold forceCallback. case_decide; [apply sameBodies_refl|].
  destruct (ps !! i) as [a|] eqn:Ha; [|apply sameBodies_refl].
  destruct (ps !! j) as [b|] eqn:Hb; [|apply sameBodies_refl].
  apply Forall2_insert_r_same with a; auto using sameBody_refl.
  same_body.
Qed.

Lemma forcesOn_sameBody (P : Params) (g : NeighborGrid.t) (ps : list Particle)
    (i : nat) :
  Forall2 sameBody ps (forcesOn P g ps i).
Proof.
  unfold forcesOn. destruct (ps !! i) as [a|]; [|apply sameBodies_refl].
  apply (foldl_invariant (fun qs => Forall2 sameBody ps qs));
    [|apply sameBodies_refl].
  intros qs j Hqs. eapply sameBodies_trans; [exact Hqs|].
  apply forceCallback_sameBody.
Qed.

Lemma rescaleVelocities_sameBody (kT : R) (ps : list Particle) :
  Forall2 sameBody ps (rescaleVelocities kT ps).
Proof.
  unfold rescaleVelocities. repeat case_decide; try apply sameBodies_refl.
  apply Forall2_map_r_same. intros p. destruct (thermostatted p); same_body.
Qed.

Section EngineFacts.
Variable rs : RandomSource.
Variable clock : nat -> R.

Lemma dragKick_sameBody (gamma kickSigma : R) (p : Particle) (w : World) :
  sameBody p (dragKick rs gamma kickSigma p w).1.
Proof. same_body. Qed.

Lemma computeForces_frame (dt : R) (s : Sim) (w : World) :
  sameSetup s (computeForces rs clock dt s w).1 /\
  Forall2 sameBody (particles s) (particles (computeForces rs clock dt s w).1).
Proof.
  unfold computeForces, bind.
  match goal with
  | |- context [forEach ?f ?l w] =>
      pose proof (forEach_Forall2 sameBody f l w
                    (dragKick_sameBody _ _)) as Hkick;
      destruct (forEach f l w) as [ps1 w1]
  end.
  simpl in *.
  assert (Hps1 : Forall2 sameBody (particles s) ps1).
  { eapply sameBodies_trans; [|exact Hkick].
    eapply sameBodies_trans.
    - apply (Forall2_map_r_same sameBody
               (fun p => setLocalNeighbors (setAcc p (0, 0)) 0)).
      intros p. same_body.
    - apply (foldl_invariant (fun qs => Forall2 sameBody _ qs));
        [|apply sameBodies_refl].
      intros qs i Hqs. eapply sameBodies_trans; [exact Hqs|].
      apply forcesOn_sameBody. }
  case_decide; simpl;
    (split; [unfold sameSetup; simpl; repeat split; reflexivity|]); auto.
  eapply sameBodies_trans; [exact Hps1|]. apply rescaleVelocities_sameBody.
Qed.
End EngineFacts.

Lemma handleWalls_sameBody (w h : R) (p : Particle) :
  sameBody p (handleWalls w h p).
Proof. unfold handleWalls. same_body. Qed.

Lemma coolParticle_sameBody (dtStep : R) (p : Particle) :
  sameBody p (coolParticle dtStep p).
Proof. unfold coolParticle. same_body. Qed.

Lemma resolvePair_sameBody (h : R) (i j : nat) (ax ay : R) (ps : list Particle) :
  Forall2 sameBody ps (resolvePair h i j ax ay ps).
Proof.
  unfold resolvePair.
  destruct (ps !! i) as [a|] eqn:Ha; [|apply sameBodies_refl].
  destruct (ps !! j) as [b|] eqn:Hb; [|apply sameBodies_refl].
  case_decide; [|apply sameBodies_refl].
  destruct (contactPositions _ _ _ _ _ _ _) as [pa pb].
  destruct (contactVelocities _ _ _ _ _ _ _ _) as [va vb].
  destruct (decide (i = j)) as [->|Hij].
  - rewrite list_insert_insert_eq.
    apply Forall2_insert_r_same with b; auto using sameBody_refl. same_body.
  - apply (sameBodies_trans _ (<[i := setVel (setPos a pa) va]> ps)).
    + apply Forall2_insert_r_same with a; auto using sameBody_refl.
      same_body.
    + apply Forall2_insert_r_same with b; auto using sameBody_refl.
      * rewrite list_lookup_insert_ne; auto.
      * same_body.
Qed.

Lemma collisionCallback_sameBody (h : R) (i j : nat) (ax ay : R)
    (st : list Particle * gset (nat * nat)) :
  Forall2 sameBody st.1 (collisionCallback h i ax ay st j).1.
Proof.
  unfold collisionCallback. destruct st as [ps processed]. simpl.
  case_decide; [apply sameBodies_refl|].
  destruct (ps !! j); [|apply sameBodies_refl].
  case_decide; [apply sameBodies_refl|]. simpl. apply resolvePair_sameBody.
Qed.

Lemma collisionsOf_sameBody (h : R) (g : NeighborGrid.t) (i : nat)
    (st : list Particle * gset (nat * nat)) :
  Forall2 sameBody st.1 (collisionsOf h g st i).1.
Proof.
  unfold collisionsOf. destruct (st.1 !! i) as [a|]; [|apply sameBodies_refl].
  apply (foldl_invariant (fun st' => Forall2 sameBody st.1 st'.1));
    [|apply sameBodies_refl].
  intros st' j Hst'. eapply sameBodies_trans; [exact Hst'|].
  apply collisionCallback_sameBody.
Qed.

Lemma resolveCollisions_frame (s : Sim) :
  sameSetup s (resolveCollisions s) /\
  Forall2 sameBody (particles s) (particles (resolveCollisions s)).
Proof.
  unfold resolveCollisions. split; [unfold sameSetup; simpl; repeat split; reflexivity|].
  simpl.
  apply (foldl_invariant
           (fun st : list Particle * gset (nat * nat) =>
              Forall2 sameBody (particles s) st.1));
    [|apply sameBodies_refl].
  intros st i Hst. eapply sameBodies_trans; [exact Hst|].
  apply collisionsOf_sameBody.
Qed.

Lemma collisionIteration_frame (s : Sim) :
  sameSetup s (collisionIteration s) /\
  Forall2 sameBody (particles s) (particles (collisionIteration s)).
Proof.
  destruct (resolveCollisions_frame s) as [Hs Hp].
  unfold collisionIteration. split.
  - unfold sameSetup in *. simpl. tauto.
  - simpl. eapply sameBodies_trans; [exact Hp|].
    apply Forall2_map_r_same. intros p. apply handleWalls_sameBody.
Qed.

Lemma collisionIterations_frame (n : nat) (s : Sim) :
  sameSetup s (Nat.iter n collisionIteration s) /\
  Forall2 sameBody (particles s) (particles (Nat.iter n collisionIteration s)).
Proof.
  induction n as [|n [IHs IHp]]; simpl.
  - split; [apply sameSetup_refl | apply sameBodies_refl].
  - destruct (collisionIteration_frame (Nat.iter n collisionIteration s))
      as [Hs Hp].
    split; [eapply sameSetup_trans | eapply sameBodies_trans]; eauto.
Qed.

Section StepFacts.
Variable rs : RandomSource.
Variable clock : nat -> R.

Lemma heatParticle_sameBody (w h aH dtStep : R) (p : Particle) (wd : World) :
  sameBody p (heatParticle rs w h aH dtStep p wd).1.
Proof. unfold heatParticle. same_body. Qed.

Lemma integrate_sameBody (w h dtStep : R) (p : Particle) (wd : World) :
  sameBody p (integrate rs w h dtStep p wd).1.
Proof.
  unfold integrate. case_decide; simpl;
    (eapply sameBody_trans; [|apply handleWalls_sameBody]); same_body.
Qed.

(** The motion part of a pass, up to the collision iterations, leaves the
    settings and the identity of every particle alone. *)
Lemma advance_shape (dtStep : R) (s : Sim) (w : World) :
  exists s5,
    (advance rs clock dtStep s w).1 = Nat.iter 5 collisionIteration s5 /\
    sameSetup s s5 /\ Forall2 sameBody (particles s) (particles s5).
Proof.
  unfold advance, bind.
  destruct (computeForces_frame rs clock dtStep s w) as [Hs1 Hp1].
  destruct (computeForces rs clock dtStep s w) as [s1 w1]. simpl in Hs1, Hp1.
  set (s2 := if gravityOn s1 then _ else s1).
  assert (H2 : sameSetup s s2 /\ Forall2 sameBody (particles s) (particles s2)).
  { subst s2. destruct (gravityOn s1); [|auto]. split.
    - unfold sameSetup in *. simpl. tauto.
    - simpl. eapply sameBodies_trans; [exact Hp1|].
      apply Forall2_map_r_same. intros p. same_body. }
  destruct H2 as [Hs2 Hp2]. clearbody s2.
  match goal with
  | |- context [(if heatingOn s2 then ?a else ?b) w1] =>
      assert (H3 : Forall2 sameBody (particles s)
                     ((if heatingOn s2 then a else b) w1).1);
      [|destruct ((if heatingOn s2 then a else b) w1) as [ps3 w3]]
  end.
  { eapply sameBodies_trans; [exact Hp2|]. destruct (heatingOn s2).
    - apply forEach_Forall2. intros. apply heatParticle_sameBody.
    - simpl. apply Forall2_map_r_same. intros. apply coolParticle_sameBody. }
  simpl in H3.
  set (s4 := if gravityOn (setParticles s2 ps3) then _ else _).
  assert (H4 : sameSetup s s4 /\ Forall2 sameBody (particles s) (particles s4)).
  { subst s4. simpl. destruct (gravityOn s2); split; simpl; auto;
      try (unfold sameSetup in *; simpl; tauto).
    eapply sameBodies_trans; [exact H3|].
    apply Forall2_map_r_same. intros p. same_body. }
  destruct H4 as [Hs4 Hp4]. clearbody s4.
  pose proof (forEach_Forall2 sameBody
                (integrate rs (width s4) (height s4) dtStep) (particles s4) w3
                (integrate_sameBody _ _ _)) as H5.
  destruct (forEach _ (particles s4) w3) as [ps5 w5]. simpl in *.
  exists (setParticles s4 ps5). split; [reflexivity|]. split.
  - unfold sameSetup in *. simpl in *. tauto.
  - simpl. eapply sameBodies_trans; [exact Hp4|]. exact H5.
Qed.

Lemma advance_frame (dtStep : R) (s : Sim) (w : World) :
  sameSetup s (advance rs clock dtStep s w).1 /\
  Forall2 sameBody (particles s) (particles (advance rs clock dtStep s w).1).
Proof.
  destruct (advance_shape dtStep s w) as (s5 & -> & Hs & Hp).
  destruct (collisionIterations_frame 5 s5) as [Hs' Hp'].
  split; [eapply sameSetup_trans | eapply sameBodies_trans]; eauto.
Qed.
End StepFacts.

(** ** Walls *)

Lemma handleWalls_inside (w h : R) (p : Particle) :
  fits w h p -> insideWalls w h (handleWalls w h p).
Proof.
  intros (Hr & Hw & Hh). unfold handleWalls, insideWalls.
  rewrite orElse_nonzero by lra.
  repeat case_decide; simpl in *; lra.
Qed.

Lemma classify_keeps (P : Params) (h nowS : R) (p : Particle) :
  pos (classify P h nowS p) = pos p /\
  radius (classify P h nowS p) = radius p /\
  mass (classify P h nowS p) = mass p.
Proof.
  unfold classify. destruct (state p); repeat case_decide; simpl; auto;
    destruct (_ || _); repeat case_decide; simpl; auto.
Qed.

Lemma sameBodies_fits (w h : R) (ps qs : list Particle) :
  Forall2 sameBody ps qs -> Forall (fits w h) ps -> Forall (fits w h) qs.
Proof.
  intros H2 Hf. induction H2 as [|p q ps qs Hpq _ IH]; [constructor|].
  inversion Hf; subst. constructor; [|auto].
  destruct Hpq as (Hr & _). unfold fits in *. now rewrite Hr.
Qed.

Lemma collisionIteration_particles (s : Sim) :
  particles (collisionIteration s)
    = map (handleWalls (width s) (height s)) (particles (resolveCollisions s)).
Proof. reflexivity. Qed.

Section StepInside.
Variable rs : RandomSource.
Variable clock : nat -> R.

Lemma advance_inside (dtStep : R) (s : Sim) (w : World) :
  Forall (fits (width s) (height s)) (particles s) ->
  Forall (insideWalls (width s) (height s))
    (particles (advance rs clock dtStep s w).1).
Proof.
  intros Hfit.
  destruct (advance_shape rs clock dtStep s w) as (s5 & -> & Hs & Hp).
  destruct (collisionIterations_frame 4 s5) as [Hs4 Hp4].
  change (Nat.iter 5 collisionIteration s5)
    with (collisionIteration (Nat.iter 4 collisionIteration s5)).
  set (s9 := Nat.iter 4 collisionIteration s5) in *.
  destruct (resolveCollisions_frame s9) as [Hs10 Hp10].
  rewrite collisionIteration_particles.
  replace (width s9) with (width s)
    by (unfold sameSetup in *; intuition congruence).
  replace (height s9) with (height s)
    by (unfold sameSetup in *; intuition congruence).
  apply Forall_map.
  assert (Hfit' : Forall (fits (width s) (height s))
                    (particles (resolveCollisions s9))).
  { apply sameBodies_fits with (particles s); [|assumption].
    eapply sameBodies_trans; [eapply sameBodies_trans|];
      [exact Hp|exact Hp4|exact Hp10]. }
  eapply Forall_impl; [exact Hfit'|].
  intros q Hq. now apply handleWalls_inside.
Qed.

Lemma substep_inside (dtStep : R) (s : Sim) (w : World) :
  Forall (fits (width s) (height s)) (particles s) ->
  sameSetup s (substep rs clock dtStep s w).1 /\
  Forall (fits (width s) (height s)) (particles (substep rs clock dtStep s w).1) /\
  Forall (insideWalls (width s) (height s))
    (particles (substep rs clock dtStep s w).1).
Proof.
  intros Hfit. unfold substep, bind.
  pose proof (advance_inside dtStep s w Hfit) as Hin.
  destruct (advance_frame rs clock dtStep s w) as [Hs Hp].
  destruct (advance rs clock dtStep s w) as [s1 w1]. simpl in *.
  pose proof (sameBodies_fits _ _ _ _ Hp Hfit) as Hfit1.
  split; [unfold sameSetup in *; simpl; tauto|].
  split; apply Forall_map.
  - eapply Forall_impl; [exact Hfit1|]. intros q Hq.
    destruct (classify_keeps (params s1) (height s1) (clock (clockPos w1)) q)
      as (_ & Hr & _).
    unfold fits in *. simpl. now rewrite Hr.
  - eapply Forall_impl; [exact Hin|]. intros q Hq.
    destruct (classify_keeps (params s1) (height s1) (clock (clockPos w1)) q)
      as (Hpos & Hr & _).
    unfold insideWalls in *. simpl. now rewrite Hpos, Hr.
Qed.

Lemma substeps_inside (n : nat) (dtStep : R) (s : Sim) (w : World) :
  (0 < n)%nat ->
  Forall (fits (width s) (height s)) (particles s) ->
  Forall (insideWalls (width s) (height s))
    (particles (substeps rs clock n dtStep s w).1).
Proof.
  revert s w. induction n as [|n IH]; intros s w Hn Hfit; [lia|].
  simpl. unfold bind.
  destruct (substep_inside dtStep s w Hfit) as (Hs & Hfit1 & Hin).
  destruct (substep rs clock dtStep s w) as [s1 w1]. simpl in *.
  destruct n as [|n'].
  - simpl. exact Hin.
  - assert (Hw : width s1 = width s /\ height s1 = height s)
      by (unfold sameSetup in Hs; tauto).
    destruct Hw as [Hw Hh]. rewrite <- Hw, <- Hh.
    apply IH; [lia|]. now rewrite Hw, Hh.
Qed.

Lemma substepsOf_pos (s : Sim) (dt : R) : (1 <= substepsOf s dt)%Z.
Proof. unfold substepsOf. destruct (gravityOn s); lia. Qed.

(** C9.  After a call of [step(dt)] with [dt >= 0], on particles of
    positive radius in a domain wider and higher than twice each radius,
    every particle lies in [[radius, width - radius]] by
    [[radius, height - radius]]: each substep ends its motion part with a
    clamp to the walls, and the state update moves nothing. *)
Theorem step_keeps_particles_inside (dt : R) (s : Sim) (w : World) :
  0 <= dt ->
  Forall (fun p => 0 < radius p /\ 2 * radius p < width s /\
                   2 * radius p < height s) (particles s) ->
  Forall (insideWalls (width s) (height s))
    (particles (step rs clock dt s w).1).
Proof.
  intros _ Hfit. unfold step. apply substeps_inside.
  - pose proof (substepsOf_pos s dt). lia.
  - eapply Forall_impl; [exact Hfit|].
    intros p (H1 & H2 & H3). unfold fits. lra.
Qed.
End StepInside.

(** One step of 1/60 on the default canvas, from a particle inside and a
    particle outside the walls. *)
Lemma step_keeps_particles_inside_witness :
  Forall (insideWalls 900 420)
    (particles
       (step halves (fun _ => 0) (1 / 60)
          (setParticles (newSim 900 420) [restingAt 100 100; restingAt 2 500])
          (mkWorld 0 0)).1).
Proof.
  set (s0 := setParticles (newSim 900 420) [restingAt 100 100; restingAt 2 500]).
  assert (Hw : width s0 = 900) by (apply orElse_nonzero; lra).
  assert (Hh : height s0 = 420) by (apply orElse_nonzero; lra).
  pose proof (step_keeps_particles_inside halves (fun _ => 0) (1 / 60) s0
                (mkWorld 0 0)) as H.
  rewrite Hw, Hh in H. apply H; [lra|].
  repeat constructor; simpl; lra.
Defined.

(** ** State classifier *)

Lemma classify_same_phase (P : Params) (h nowS : R) (p : Particle) :
  state (classify P h nowS p) = state p ->
  lastStateChange (classify P h nowS p) = lastStateChange p.
Proof.
  unfold classify. destruct (state p) eqn:Hs; repeat case_decide; simpl;
    try congruence; destruct (_ || _); repeat case_decide; simpl; congruence.
Qed.

Lemma classify_flip (P : Params) (h nowS : R) (p : Particle) :
  state (classify P h nowS p) <> state p ->
  lastStateChange (classify P h nowS p) = nowS /\
  nowS - lastStateChange p >=
    dwellBefore (mkFlip nowS (state (classify P h nowS p)) (thermalEnergy p)).
Proof.
  unfold classify, dwellBefore. rewrite !orElse_zero.
  destruct (state p) eqn:Hs; simpl.
  - destruct (bool_decide_reflect (thermalEnergy p > 0.7)) as [Hhot|Hhot];
      repeat case_decide; simpl; try congruence; intros _; split; auto; lra.
  - case_decide; simpl; [congruence|].
    destruct (_ || _); repeat case_decide; simpl; try congruence;
      intros _; split; auto; lra.
Qed.

(** Every transition comes at least its dwell after the previous one, the
    time of which [lastStateChange] holds. *)
Lemma flips_spaced (P : Params) (h : R) (p : Particle) (fs : list Frame) :
  spaced (lastStateChange p) (flips P h p fs).
Proof.
  revert p. induction fs as [|f fs IH]; intros p; simpl; [exact I|].
  destruct (decide (state (observe P h p f) = state p)) as [Heq|Hne].
  - unfold observe in *.
    change (state p) with (state (drive f p)) in Heq.
    apply classify_same_phase in Heq. simpl in Heq.
    rewrite <- Heq. apply IH.
  - unfold observe in *.
    change (state p) with (state (drive f p)) in Hne.
    apply classify_flip in Hne as [Hlast Hdwell].
    simpl in *. split; [exact Hdwell|]. rewrite <- Hlast at 1. apply IH.
Qed.

Lemma spaced_lookup (last : R) (l : list Flip) (k : nat) (e1 e2 : Flip) :
  spaced last l -> l !! k = Some e1 -> l !! S k = Some e2 ->
  flipTime e2 - flipTime e1 >= dwellBefore e2.
Proof.
  revert last k. induction l as [|e l IH]; intros last k Hsp H1 H2; [done|].
  destruct Hsp as [_ Hsp]. destruct k as [|k]; simpl in *.
  - injection H1 as <-. destruct l as [|e' l]; [done|].
    simpl in H2. injection H2 as <-. apply Hsp.
  - eapply IH; eauto.
Qed.

(** C5, amended.  Along any history of a particle (whatever the motion
    part does to its position, velocity, density and thermal energy between
    state updates, and whatever the clock readings), two consecutive phase
    transitions are at least the dwell of the second one apart: 300 ms for
    a condensation and for an evaporation at thermal energy at most 0.7,
    150 ms for the evaporation of a particle whose thermal energy exceeds
    0.7. *)
Theorem phase_flips_respect_dwell (P : Params) (h : R) (p : Particle)
    (fs : list Frame) (k : nat) (e1 e2 : Flip) :
  flips P h p fs !! k = Some e1 ->
  flips P h p fs !! S k = Some e2 ->
  flipTime e2 - flipTime e1 >= dwellBefore e2 /\
  150 <= dwellBefore e2 <= 300 /\
  (flipTo e2 = liquid \/ flipThermal e2 <= 0.7 -> dwellBefore e2 = 300).
Proof.
  intros H1 H2. split; [|split].
  - eapply spaced_lookup; eauto. apply flips_spaced.
  - unfold dwellBefore. destruct (flipTo e2); repeat case_decide; lra.
  - unfold dwellBefore. intros [->| Hc]; [reflexivity|].
    destruct (flipTo e2); repeat case_decide; lra.
Qed.

Ltac decide_numbers :=
  rewrite ?orElse_zero;
  repeat match goal with
         | |- context [bool_decide ?P] =>
             first [ rewrite (bool_decide_eq_true_2 P) by (lra || lia)
                   | rewrite (bool_decide_eq_false_2 P) by (lra || lia) ]
         | |- context [decide ?P] =>
             first [ rewrite (decide_True (P := P)) by (lra || lia || (split; lra))
                   | rewrite (decide_False (P := P))
                       by (lra || lia || (intros [? ?]; lra)) ]
         end.

(** The transitions of the history [condensingThenHot] of [vapour]. *)
Lemma flips_condensingThenHot :
  flips (scenarioDefaults honey 1) 420 vapour condensingThenHot
    = [mkFlip 1000 liquid 0.1; mkFlip 1150 gas 0.8].
Proof.
  unfold condensingThenHot. cbn [flips]. unfold observe. cbn [fNow fThermal].
  assert (E1 : classify (scenarioDefaults honey 1) 420 1000
                 (drive (mkFrame (100, 200) (0, 0) (0, 0) 0 0.1 1000) vapour)
               = mkParticle (100, 200) (0, 0) (0, 0) 1 3 liquid 1700 0
                   (Rmax 0 (0.1 * 0.5)) 1000).
  { unfold classify, drive, vapour. simpl. decide_numbers. reflexivity. }
  rewrite E1. cbn [state vapour].
  rewrite decide_False by discriminate.
  match goal with
  | |- context [classify ?P ?h ?t ?q] =>
      assert (E2 : classify P h t q
                   = mkParticle (100, 200) (100, 0 - 30) (0, 0) 1 3 gas
                       (1150 + 1500) 0 0.8 1150)
  end.
  { unfold classify, drive. simpl. decide_numbers. reflexivity. }
  rewrite E2. cbn [state]. rewrite decide_False by discriminate.
  reflexivity.
Qed.

(** C5 as stated fails.  A gas particle condenses at 1000 ms; heated to
    thermal energy 0.8 and moving fast, it evaporates again at 1150 ms,
    150 ms later. *)
Lemma phase_flips_within_300 :
  exists e1 e2,
    flips (scenarioDefaults honey 1) 420 vapour condensingThenHot !! 0%nat = Some e1 /\
    flips (scenarioDefaults honey 1) 420 vapour condensingThenHot !! 1%nat = Some e2 /\
    flipTime e2 - flipTime e1 < 300.
Proof.
  rewrite flips_condensingThenHot.
  exists (mkFlip 1000 liquid 0.1), (mkFlip 1150 gas 0.8).
  repeat split. simpl. lra.
Qed.

(** The two transitions of that history are 150 ms apart, the dwell of a
    hot evaporation. *)
Lemma phase_flips_respect_dwell_witness :
  let e1 := mkFlip 1000 liquid 0.1 in
  let e2 := mkFlip 1150 gas 0.8 in
  flips (scenarioDefaults honey 1) 420 vapour condensingThenHot !! 0%nat
    = Some e1 /\
  flips (scenarioDefaults honey 1) 420 vapour condensingThenHot !! 1%nat
    = Some e2 /\
  flipTime e2 - flipTime e1 >= dwellBefore e2.
Proof.
  intros e1 e2.
  assert (H1 : flips (scenarioDefaults honey 1) 420 vapour condensingThenHot
                 !! 0%nat = Some e1)
    by (now rewrite flips_condensingThenHot).
  assert (H2 : flips (scenarioDefaults honey 1) 420 vapour condensingThenHot
                 !! 1%nat = Some e2)
    by (now rewrite flips_condensingThenHot).
  split; [exact H1|]. split; [exact H2|].
  apply (phase_flips_respect_dwell (scenarioDefaults honey 1) 420 vapour
           condensingThenHot 0 e1 e2 H1 H2).
Defined.

Section Link.
Variable rs : RandomSource.
Variable clock : nat -> R.

Lemma sameBody_drive (p q : Particle) (t : R) :
  sameBody p q ->
  drive (mkFrame (pos q) (vel q) (acc q) (localNeighbors q) (thermalEnergy q) t) p
    = q.
Proof.
  intros (Hr & Hm & Hs & Hl & Hg). unfold drive. simpl.
  rewrite <- Hr, <- Hm, <- Hs, <- Hl, <- Hg. now destruct q.
Qed.

(** One pass of the substep loop observes every particle once: each
    particle after the pass is the classification, at the pass's clock
    reading, of the particle as the motion part left it. *)
Lemma substep_observes (dtStep : R) (s : Sim) (w : World) :
  let t := clock (clockPos (advance rs clock dtStep s w).2) in
  Forall2 (fun p p' =>
             exists f, fNow f = t /\ p' = observe (params s) (height s) p f)
    (particles s) (particles (substep rs clock dtStep s w).1).
Proof.
  unfold substep, bind.
  destruct (advance_frame rs clock dtStep s w) as [Hs Hp].
  destruct (advance rs clock dtStep s w) as [s1 w1]. simpl in *.
  destruct Hs as (_ & -> & -> & _).
  apply Forall2_fmap_r. eapply Forall2_impl; [exact Hp|].
  intros p q Hpq. simpl.
  exists (mkFrame (pos q) (vel q) (acc q) (localNeighbors q)
            (thermalEnergy q) (clock (clockPos w1))).
  split; [reflexivity|]. unfold observe. simpl. now rewrite sameBody_drive.
Qed.
End Link.

(** ** Collision resolver *)

Lemma forNeighbors_sound (g : NeighborGrid.t) (ps : list Particle)
    (x y r : R) (id : nat) :
  id ∈ NeighborGrid.forNeighbors (rebuildGrid g ps) x y r ->
  (id < length ps)%nat.
Proof.
  intros Hin. apply forNeighbors_elem in Hin as (cx & cy & _ & _ & _ & _ & Hin).
  apply insertFrom_sound in Hin as [Hin|Hin]; [|lia].
  unfold bucket in Hin. simpl in Hin. rewrite lookup_empty in Hin.
  simpl in Hin. now apply not_elem_of_nil in Hin.
Qed.

(** A call of the resolver in which no pair has anything to resolve moves
    nothing. *)
Lemma resolveCollisions_fixed (s : Sim) :
  (forall i j a, particles s !! i = Some a -> i <> j ->
     resolvePair (height s) i j (pos a).1 (pos a).2 (particles s)
       = particles s) ->
  particles (resolveCollisions s) = particles s.
Proof.
  intros Hfix. unfold resolveCollisions. simpl.
  apply (foldl_invariant
           (fun st : list Particle * gset (nat * nat) => st.1 = particles s));
    [|reflexivity].
  intros st i Hst. unfold collisionsOf. rewrite Hst.
  destruct (particles s !! i) as [a|] eqn:Ha; [|exact Hst].
  apply (foldl_invariant
           (fun st : list Particle * gset (nat * nat) => st.1 = particles s));
    [|exact Hst].
  clear st Hst. intros [ps processed] j Hst. simpl in Hst. subst ps.
  unfold collisionCallback.
  destruct (decide (i = j)); [reflexivity|].
  destruct (particles s !! j); [|reflexivity].
  destruct (decide (pairKey i j ∈ processed)); [reflexivity|].
  simpl. now apply Hfix.
Qed.

Lemma resolveCollisions_fixed_iter (n : nat) (s : Sim) :
  (forall i j a, particles s !! i = Some a -> i <> j ->
     resolvePair (height s) i j (pos a).1 (pos a).2 (particles s)
       = particles s) ->
  particles (Nat.iter n resolveCollisions s) = particles s /\
  height (Nat.iter n resolveCollisions s) = height s.
Proof.
  intros Hfix. induction n as [|n [IHp IHh]]; [auto|].
  change (Nat.iter (S n) resolveCollisions s)
    with (resolveCollisions (Nat.iter n resolveCollisions s)).
  split; [|exact IHh].
  rewrite resolveCollisions_fixed; [exact IHp|].
  rewrite IHp, IHh. exact Hfix.
Qed.

(** A pair that does not overlap is left alone. *)
Lemma resolvePair_apart (h : R) (i j : nat) (ax ay : R) (ps : list Particle) :
  (forall a b, ps !! i = Some a -> ps !! j = Some b ->
     orElse (radius a) 3 + orElse (radius b) 3
       <= orElse (Math_hypot ((pos b).1 - ax) ((pos b).2 - ay)) 1e-9) ->
  resolvePair h i j ax ay ps = ps.
Proof.
  intros Hfar. unfold resolvePair.
  destruct (ps !! i) as [a|]; [|reflexivity].
  destruct (ps !! j) as [b|]; [|reflexivity].
  specialize (Hfar a b eq_refl eq_refl).
  destruct (decide _) as [Hlt|]; [lra|reflexivity].
Qed.

Lemma orElse_default (d : R) : orElse 0 d = d.
Proof. unfold orElse. now rewrite decide_True. Qed.

Lemma setVel_setPos_id (p : Particle) (q v : Vec) :
  q = pos p -> v = vel p -> setVel (setPos p q) v = p.
Proof. intros -> ->. now destruct p. Qed.

(** Two particles at the same place are left there: the contact normal of
    a pair at distance zero is the zero vector. *)
Lemma resolvePair_coincident (h : R) (i j : nat) (ps : list Particle)
    (a b : Particle) :
  ps !! i = Some a -> ps !! j = Some b -> pos b = pos a ->
  resolvePair h i j (pos a).1 (pos a).2 ps = ps.
Proof.
  intros Ha Hb Hpos. unfold resolvePair. rewrite Ha, Hb, Hpos.
  replace ((pos a).1 - (pos a).1) with 0 by ring.
  replace ((pos a).2 - (pos a).2) with 0 by ring.
  assert (H0 : Math_hypot 0 0 = 0) by (apply Math_hypot_axis; lra).
  rewrite H0, orElse_default.
  destruct (decide _) as [Hlt|]; [|reflexivity].
  replace (0 / 1e-9) with 0 by (field; lra).
  assert (Hpa : forall m, ((pos a).1 - 0 * m, (pos a).2 - 0 * m) = pos a).
  { intros m. destruct (pos a). simpl. f_equal; ring. }
  assert (Hpb : forall m, ((pos a).1 + 0 * m, (pos a).2 + 0 * m) = pos a).
  { intros m. destruct (pos a). simpl. f_equal; ring. }
  assert (Hcp : forall ov md,
             contactPositions h a b 0 0 ov md = (pos a, pos a)).
  { intros ov md. unfold contactPositions. rewrite Hpos.
    destruct (pos a) as [x y].
    destruct (_ && _ && _); destruct (_ && _ && _); cbn [fst snd];
      rewrite ?Rmult_0_l, ?Rminus_0_r, ?Rplus_0_r;
      replace (x - x) with 0 by ring; replace (y - y) with 0 by ring;
      rewrite H0, orElse_default;
      (destruct (decide _); [|reflexivity]);
      replace (0 / 1e-9) with 0 by (field; lra);
      rewrite ?Rmult_0_l, ?Rminus_0_r, ?Rplus_0_r; reflexivity. }
  rewrite Hcp.
  assert (Hcv : forall e mu ma mb va vb,
             contactVelocities e mu ma mb 0 0 va vb = (va, vb)).
  { intros. unfold contactVelocities.
    destruct (decide _) as [Hn|]; [lra|reflexivity]. }
  rewrite Hcv.
  rewrite (setVel_setPos_id a) by reflexivity.
  rewrite (setVel_setPos_id b) by (auto; now rewrite Hpos).
  rewrite (list_insert_id ps i a Ha).
  now rewrite (list_insert_id ps j b Hb).
Qed.

Lemma Math_hypot_scaled (k nx ny : R) :
  nx * nx + ny * ny = 1 -> 0 <= k -> Math_hypot (k * nx) (k * ny) = k.
Proof.
  intros Hn Hk. pose proof (Math_hypot_nonneg (k * nx) (k * ny)) as H0.
  pose proof (Math_hypot_sqr (k * nx) (k * ny)) as Hs.
  assert (Hk2 : Math_hypot (k * nx) (k * ny) * Math_hypot (k * nx) (k * ny)
                = k * k).
  { rewrite Hs. replace (k * nx * (k * nx) + k * ny * (k * ny))
      with (k * k * (nx * nx + ny * ny)) by ring. rewrite Hn. ring. }
  nra.
Qed.

(** The unit normal of a pair at positive distance. *)
Lemma unit_normal (dx dy : R) :
  0 < Math_hypot dx dy ->
  let d := Math_hypot dx dy in
  (dx / d) * (dx / d) + (dy / d) * (dy / d) = 1 /\
  dx = d * (dx / d) /\ dy = d * (dy / d).
Proof.
  intros Hd d. pose proof (Math_hypot_sqr dx dy) as Hs. fold d in Hs, Hd.
  repeat split; try (field; lra).
  replace (dx / d * (dx / d) + dy / d * (dy / d))
    with ((dx * dx + dy * dy) / (d * d)) by (field; lra).
  rewrite <- Hs. field. lra.
Qed.

(** With equal masses of at most 2e9 the two position corrections add up
    to the overlap, whoever is grounded, so the pair ends exactly
    [minDist] apart along the normal. *)
Lemma contactPositions_equal_mass (h : R) (a b : Particle)
    (nx ny overlap minDist : R) :
  mass a = mass b -> 0 < mass a <= 2e9 ->
  nx * nx + ny * ny = 1 -> 0 < minDist ->
  (pos b).1 - (pos a).1 = (minDist - overlap) * nx ->
  (pos b).2 - (pos a).2 = (minDist - overlap) * ny ->
  exists pa pb,
    contactPositions h a b nx ny overlap minDist = (pa, pb) /\
    pb.1 - pa.1 = minDist * nx /\ pb.2 - pa.2 = minDist * ny.
Proof.
  intros Hm [Hm0 Hm9] Hn Hmd Hx Hy. unfold contactPositions.
  rewrite <- Hm. rewrite (orElse_nonzero (mass a)) by lra.
  assert (Hinv : / 2e9 <= / mass a) by (apply Rinv_le_contravar; lra).
  assert (Hsum : 1e-9 <= 1 / mass a + 1 / mass a).
  { unfold Rdiv. rewrite !Rmult_1_l. lra. }
  rewrite Rmax_right by exact Hsum.
  replace (1 / mass a / (1 / mass a + 1 / mass a)) with (1 / 2)
    by (field; lra).
  assert (Hfinal : forall mA mB : R,
             mA + mB = overlap ->
             let pa := ((pos a).1 - nx * mA, (pos a).2 - ny * mA) in
             let pb := ((pos b).1 + nx * mB, (pos b).2 + ny * mB) in
             exists pa' pb',
               (if decide (orElse (Math_hypot (pb.1 - pa.1) (pb.2 - pa.2)) 1e-9
                           < minDist * 0.99)
                then
                  let overlap2 :=
                    minDist - orElse (Math_hypot (pb.1 - pa.1) (pb.2 - pa.2)) 1e-9 in
                  let nx2 :=
                    (pb.1 - pa.1)
                    / orElse (Math_hypot (pb.1 - pa.1) (pb.2 - pa.2)) 1e-9 in
                  let ny2 :=
                    (pb.2 - pa.2)
                    / orElse (Math_hypot (pb.1 - pa.1) (pb.2 - pa.2)) 1e-9 in
                  ((pa.1 - nx2 * overlap2 * 0.5, pa.2 - ny2 * overlap2 * 0.5),
                   (pb.1 + nx2 * overlap2 * 0.5, pb.2 + ny2 * overlap2 * 0.5))
                else (pa, pb)) = (pa', pb') /\
               pb'.1 - pa'.1 = minDist * nx /\ pb'.2 - pa'.2 = minDist * ny).
  { intros mA mB Hsum' pa pb.
    assert (Ex : pb.1 - pa.1 = minDist * nx).
    { subst pa pb. cbn [fst snd].
      replace ((pos b).1 + nx * mB - ((pos a).1 - nx * mA))
        with ((pos b).1 - (pos a).1 + nx * (mA + mB)) by ring.
      rewrite Hx, Hsum'. ring. }
    assert (Ey : pb.2 - pa.2 = minDist * ny).
    { subst pa pb. cbn [fst snd].
      replace ((pos b).2 + ny * mB - ((pos a).2 - ny * mA))
        with ((pos b).2 - (pos a).2 + ny * (mA + mB)) by ring.
      rewrite Hy, Hsum'. ring. }
    rewrite Ex, Ey, Math_hypot_scaled by (auto; lra).
    rewrite orElse_nonzero by lra.
    rewrite decide_False by lra.
    exists pa, pb. rewrite Ex, Ey. auto. }
  destruct (negb _ && _ && _) eqn:E1; destruct (_ && negb _ && _) eqn:E2.
  - apply (Hfinal 0 overlap). ring.
  - apply (Hfinal overlap 0). ring.
  - apply (Hfinal 0 overlap). ring.
  - apply (Hfinal (overlap * (1 / 2)) (overlap * (1 / 2))). field.
Qed.

(** Two overlapping particles at rest, of equal radius and mass and not at
    the same place: the pair is moved exactly [2 radius] apart and stays at
    rest. *)
Lemma resolvePair_at_rest (h : R) (i j : nat) (ps : list Particle)
    (a b : Particle) :
  i <> j -> ps !! i = Some a -> ps !! j = Some b ->
  vel a = (0, 0) -> vel b = (0, 0) ->
  radius a = radius b -> 0 < radius a ->
  mass a = mass b -> 0 < mass a <= 2e9 ->
  0 < Math_hypot ((pos b).1 - (pos a).1) ((pos b).2 - (pos a).2)
    < radius a + radius b ->
  exists a' b',
    resolvePair h i j (pos a).1 (pos a).2 ps = <[j := b']> (<[i := a']> ps) /\
    sameBody a a' /\ sameBody b b' /\ vel a' = (0, 0) /\ vel b' = (0, 0) /\
    Math_hypot ((pos b').1 - (pos a').1) ((pos b').2 - (pos a').2)
      = radius a + radius b.
Proof.
  intros Hij Ha Hb Hva Hvb Hr Hr0 Hm Hm0 [Hd0 Hd].
  unfold resolvePair. rewrite Ha, Hb.
  set (dx := (pos b).1 - (pos a).1) in *.
  set (dy := (pos b).2 - (pos a).2) in *.
  set (d := Math_hypot dx dy) in *.
  rewrite (orElse_nonzero d) by lra.
  rewrite <- Hr. rewrite (orElse_nonzero (radius a)) by lra.
  rewrite decide_True by lra.
  destruct (unit_normal dx dy Hd0) as (Hn & Hdx & Hdy). fold d in Hn, Hdx, Hdy.
  destruct (contactPositions_equal_mass h a b (dx / d) (dy / d)
              (radius a + radius a - d) (radius a + radius a))
    as (pa & pb & -> & Ex & Ey); auto; try lra.
  { fold dx. rewrite Hdx at 1. ring. }
  { fold dy. rewrite Hdy at 1. ring. }
  assert (Hcv : contactVelocities 0.2 0.3 (orElse (mass a) 1) (orElse (mass b) 1)
                  (dx / d) (dy / d) (vel a) (vel b) = ((0, 0), (0, 0))).
  { unfold contactVelocities. rewrite Hva, Hvb. cbn [fst snd].
    rewrite decide_False by lra. reflexivity. }
  rewrite Hcv.
  exists (setVel (setPos a pa) (0, 0)), (setVel (setPos b pb) (0, 0)).
  split; [reflexivity|]. cbn [pos vel setVel setPos].
  repeat split; try reflexivity.
  rewrite Ex, Ey. rewrite Math_hypot_scaled; auto; lra.
Qed.

Lemma resolvePair_length (h : R) (i j : nat) (ax ay : R) (ps : list Particle) :
  length (resolvePair h i j ax ay ps) = length ps.
Proof.
  symmetry. eapply Forall2_length. apply resolvePair_sameBody.
Qed.

Lemma pairKey_01 (i j : nat) :
  (i < 2)%nat -> (j < 2)%nat -> i <> j -> pairKey i j = (0%nat, 1%nat).
Proof.
  intros Hi Hj Hij. unfold pairKey. case_decide; f_equal; lia.
Qed.

(** Once the pair of a two-particle system is in [processed], the rest of
    the call does nothing. *)
Lemma collisionCallbacks_done (h : R) (i : nat) (ax ay : R)
    (ps : list Particle) (processed : gset (nat * nat)) (L : list nat) :
  length ps = 2%nat -> (i < 2)%nat -> (0%nat, 1%nat) ∈ processed ->
  Forall (fun j => j < 2)%nat L ->
  foldl (collisionCallback h i ax ay) (ps, processed) L = (ps, processed).
Proof.
  intros Hlen Hi Hin HL. induction HL as [|j L Hj _ IH]; [reflexivity|].
  cbn [foldl].
  assert (E : collisionCallback h i ax ay (ps, processed) j = (ps, processed)).
  { unfold collisionCallback.
    destruct (decide (i = j)); [reflexivity|].
    destruct (ps !! j); [|reflexivity].
    rewrite pairKey_01 by assumption.
    now rewrite decide_True by assumption. }
  rewrite E. exact IH.
Qed.

(** The sweep of particle 0 in a two-particle system that meets particle 1
    resolves the pair, once. *)
Lemma collisionCallbacks_first (h ax ay : R) (a b : Particle) (L : list nat) :
  1%nat ∈ L -> Forall (fun j => j < 2)%nat L ->
  foldl (collisionCallback h 0 ax ay) ([a; b], ∅) L
    = (resolvePair h 0 1 ax ay [a; b], {[ (0%nat, 1%nat) ]} ∪ ∅).
Proof.
  intros Hin HL. induction HL as [|j L Hj HL IH]; [now apply elem_of_nil in Hin|].
  cbn [foldl].
  destruct (decide (0%nat = j)) as [<-|Hne].
  - assert (E : collisionCallback h 0 ax ay ([a; b], ∅) 0 = ([a; b], ∅)).
    { unfold collisionCallback. now rewrite decide_True. }
    rewrite E. apply IH.
    apply elem_of_cons in Hin as [Hin|Hin]; [discriminate|assumption].
  - assert (j = 1%nat) as -> by lia.
    assert (E : collisionCallback h 0 ax ay ([a; b], ∅) 1
                = (resolvePair h 0 1 ax ay [a; b], {[ (0%nat, 1%nat) ]} ∪ ∅)).
    { unfold collisionCallback. rewrite decide_False by lia.
      cbn [lookup list_lookup]. rewrite decide_False by set_solver.
      reflexivity. }
    rewrite E. apply collisionCallbacks_done; auto.
    + now rewrite resolvePair_length.
    + set_solver.
Qed.

(** One call of the resolver on a two-particle system in which the sweep of
    particle 0 meets particle 1. *)
Lemma resolveCollisions_two (s : Sim) (a b : Particle) :
  particles s = [a; b] ->
  1%nat ∈ NeighborGrid.forNeighbors (rebuildGrid (grid s) [a; b])
           (pos a).1 (pos a).2 16 ->
  particles (resolveCollisions s)
    = resolvePair (height s) 0 1 (pos a).1 (pos a).2 [a; b].
Proof.
  intros Hps Hin. unfold resolveCollisions. rewrite Hps.
  cbn [setGrid setParticles particles length seq foldl].
  assert (E0 : collisionsOf (height s) (rebuildGrid (grid s) [a; b])
                 ([a; b], ∅) 0
               = foldl (collisionCallback (height s) 0 (pos a).1 (pos a).2)
                   ([a; b], ∅)
                   (NeighborGrid.forNeighbors (rebuildGrid (grid s) [a; b])
                      (pos a).1 (pos a).2 16)) by reflexivity.
  rewrite E0. clear E0.
  assert (Hsound : forall x y r,
             Forall (fun j => j < 2)%nat
               (NeighborGrid.forNeighbors (rebuildGrid (grid s) [a; b]) x y r)).
  { intros x y r. apply Forall_forall. intros j Hj.
    now apply forNeighbors_sound in Hj. }
  rewrite collisionCallbacks_first by auto.
  unfold collisionsOf. cbn [fst].
  pose proof (resolvePair_length (height s) 0 1 (pos a).1 (pos a).2 [a; b])
    as Hlen.
  destruct (resolvePair (height s) 0 1 (pos a).1 (pos a).2 [a; b] !! 1%nat)
    as [b'|]; [|reflexivity].
  rewrite collisionCallbacks_done; auto. set_solver.
Qed.

(** The normal impulse takes from one particle the momentum it gives to the
    other. *)
Lemma applyImpulse_momentum (ma mb jx jy : R) (va vb : Vec) :
  ma <> 0 -> mb <> 0 ->
  let va' := (applyImpulse ma mb jx jy va vb).1 in
  let vb' := (applyImpulse ma mb jx jy va vb).2 in
  ma * (va'.1 - va.1) + mb * (vb'.1 - vb.1) = 0 /\
  ma * (va'.2 - va.2) + mb * (vb'.2 - vb.2) = 0.
Proof. intros Ha Hb. unfold applyImpulse. simpl. split; field; auto. Qed.

(** A pair at distance at least the sum of the radii, in a two-particle
    system, is a fixed point of the resolver. *)
Lemma resolvePair_two_apart (h : R) (a b : Particle) (i j : nat) (c : Particle) :
  radius a + radius b
    <= Math_hypot ((pos b).1 - (pos a).1) ((pos b).2 - (pos a).2) ->
  0 < radius a -> 0 < radius b ->
  [a; b] !! i = Some c -> i <> j ->
  resolvePair h i j (pos c).1 (pos c).2 [a; b] = [a; b].
Proof.
  intros Hd Hra Hrb Hc Hij. apply resolvePair_apart. intros a0 b0 Ha0 Hb0.
  assert (Hd' : radius a + radius b
                <= Math_hypot ((pos a).1 - (pos b).1) ((pos a).2 - (pos b).2)).
  { rewrite <- Math_hypot_opp.
    replace (- ((pos a).1 - (pos b).1)) with ((pos b).1 - (pos a).1) by ring.
    replace (- ((pos a).2 - (pos b).2)) with ((pos b).2 - (pos a).2) by ring.
    exact Hd. }
  destruct i as [|[|i]], j as [|[|j]]; try done; clear Hij;
    cbn [lookup list_lookup] in Hc, Ha0, Hb0;
    injection Hc as <-; injection Ha0 as <-; injection Hb0 as <-;
    rewrite !orElse_nonzero by lra; lra.
Qed.

(** C6, amended.  Two overlapping particles at rest, not at the same
    place, of equal radius at most 8 and equal mass at most 2e9, both
    inside the area the grid cells cover: after [n >= 1] calls of the
    resolver they are exactly [radius_a + radius_b] apart (so within 1e-3
    of it) and still at rest; no impulse fires, and the momentum of the
    pair is unchanged. *)
Theorem resolveCollisions_separates_pair (s : Sim) (a b : Particle) (n : nat) :
  particles s = [a; b] ->
  vel a = (0, 0) -> vel b = (0, 0) ->
  radius a = radius b -> 0 < radius a <= 8 ->
  mass a = mass b -> 0 < mass a <= 2e9 ->
  0 < Math_hypot ((pos b).1 - (pos a).1) ((pos b).2 - (pos a).2)
    < radius a + radius b ->
  (forall p, p ∈ [a; b] ->
     0 <= (pos p).1
       < IZR (NeighborGrid.cols (grid s)) * NeighborGrid.cellSize (grid s) /\
     0 <= (pos p).2
       < IZR (NeighborGrid.rows (grid s)) * NeighborGrid.cellSize (grid s)) ->
  0 < NeighborGrid.cellSize (grid s) ->
  (1 <= n)%nat ->
  exists a' b',
    particles (Nat.iter n resolveCollisions s) = [a'; b'] /\
    Math_hypot ((pos b').1 - (pos a').1) ((pos b').2 - (pos a').2)
      = radius a + radius b /\
    Math_hypot ((pos b').1 - (pos a').1) ((pos b').2 - (pos a').2)
      >= radius a + radius b - 1e-3 /\
    vel a' = (0, 0) /\ vel b' = (0, 0) /\
    mass a * ((vel a').1 - (vel a).1) + mass b * ((vel b').1 - (vel b).1) = 0 /\
    mass a * ((vel a').2 - (vel a).2) + mass b * ((vel b').2 - (vel b).2) = 0.
Proof.
  intros Hps Hva Hvb Hr Hr8 Hm Hm9 Hd Harea Hcs Hn.
  destruct (resolvePair_at_rest (height s) 0 1 [a; b] a b)
    as (a' & b' & Hres & Haa & Hbb & Hva' & Hvb' & Hd'); auto; try lra.
  cbn [insert list_insert] in Hres.
  assert (Hvisit : 1%nat ∈ NeighborGrid.forNeighbors
                     (rebuildGrid (grid s) [a; b]) (pos a).1 (pos a).2 16).
  { destruct (Harea b) as [Hbx Hby]; [rewrite !elem_of_cons; auto|].
    pose proof (Math_hypot_ge_l ((pos b).1 - (pos a).1) ((pos b).2 - (pos a).2)).
    pose proof (Math_hypot_ge_r ((pos b).1 - (pos a).1) ((pos b).2 - (pos a).2)).
    apply forNeighbors_visits with b; auto; lra. }
  pose proof (resolveCollisions_two s a b Hps Hvisit) as Hone.
  rewrite Hres in Hone.
  destruct n as [|n]; [lia|]. rewrite Nat.iter_succ_r.
  destruct (resolveCollisions_fixed_iter n (resolveCollisions s)) as [Hfix _].
  { rewrite Hone. intros i j c Hc Hij.
    destruct Haa as (Hra' & _). destruct Hbb as (Hrb' & _).
    apply resolvePair_two_apart; auto; lra. }
  exists a', b'. rewrite Hfix, Hone, Hd', Hva, Hvb, Hva', Hvb'. cbn [fst snd].
  repeat split; auto; lra.
Qed.

(** The simulation of a 900 by 420 canvas. *)
Lemma newSim_900_420 :
  width (newSim 900 420) = 900 /\ height (newSim 900 420) = 420 /\
  grid (newSim 900 420) = NeighborGrid.new 900 420 24.
Proof.
  unfold newSim. cbn [width height grid].
  rewrite !orElse_nonzero by lra. auto.
Qed.

(** Two discs of radius 5 placed 9 apart on the default canvas are 10
    apart after one call. *)
Lemma resolveCollisions_separates_pair_witness :
  exists a' b',
    particles
      (Nat.iter 1 resolveCollisions
         (setParticles (newSim 900 420) [disc5 100 100; disc5 109 100]))
      = [a'; b'] /\
    Math_hypot ((pos b').1 - (pos a').1) ((pos b').2 - (pos a').2) = 10 /\
    vel a' = (0, 0) /\ vel b' = (0, 0).
Proof.
  destruct newSim_900_420 as (_ & _ & Hg).
  destruct new_900_420 as (Ecs & Ecols & Erows).
  destruct (resolveCollisions_separates_pair
              (setParticles (newSim 900 420) [disc5 100 100; disc5 109 100])
              (disc5 100 100) (disc5 109 100) 1)
    as (a' & b' & Hps & Hd & _ & Hva & Hvb & _).
  - reflexivity.
  - reflexivity.
  - reflexivity.
  - reflexivity.
  - simpl. lra.
  - reflexivity.
  - simpl. lra.
  - simpl. replace (109 - 100) with 9 by lra. replace (100 - 100) with 0 by lra.
    rewrite Math_hypot_axis; lra.
  - cbn [grid setParticles]. rewrite Hg, Ecs, Ecols, Erows.
    intros p Hp. apply elem_of_cons in Hp as [->|Hp];
      [|apply list_elem_of_singleton in Hp as ->]; simpl; lra.
  - cbn [grid setParticles]. rewrite Hg, Ecs. lra.
  - lia.
  - exists a', b'. simpl in Hd. replace (5 + 5) with 10 in Hd by lra. auto.
Defined.

(** Any number of calls leaves two particles at the same place where they
    are. *)
Lemma resolveCollisions_coincident (n : nat) (s : Sim) (p : Particle) :
  particles s = [p; p] ->
  particles (Nat.iter n resolveCollisions s) = [p; p].
Proof.
  intros Hps. rewrite <- Hps. apply resolveCollisions_fixed_iter.
  rewrite Hps. intros i j a Ha Hij.
  destruct ([p; p] !! j) as [b|] eqn:Hb.
  - apply resolvePair_coincident with b; auto.
    apply list_elem_of_lookup_2 in Ha, Hb.
    rewrite !elem_of_cons, elem_of_nil in Ha, Hb.
    destruct Ha as [->|[->|[]]], Hb as [->|[->|[]]]; reflexivity.
  - unfold resolvePair. rewrite Ha, Hb. reflexivity.
Qed.

(** C6 as stated fails.  Two particles of radius 3 at rest at the same
    place overlap, and after five calls of the resolver they are still at
    distance 0, short of 6 - 1e-3. *)
Lemma resolveCollisions_leaves_coincident_pair :
  let p := restingAt 100 100 in
  let s := setParticles (newSim 900 420) [p; p] in
  exists a' b',
    particles (Nat.iter 5 resolveCollisions s) = [a'; b'] /\
    Math_hypot ((pos b').1 - (pos a').1) ((pos b').2 - (pos a').2)
      < radius p + radius p - 1e-3.
Proof.
  intros p s. exists p, p. split.
  - now apply resolveCollisions_coincident.
  - simpl. replace (100 - 100) with 0 by lra.
    rewrite Math_hypot_axis; lra.
Qed.

(** ** Particles out of reach of each other *)

(** ** Particles out of reach of each other *)

Lemma separation_nonneg (p q : Particle) : 0 <= separation p q.
Proof. apply Math_hypot_nonneg. Qed.

Lemma separation_sym (p q : Particle) : separation q p = separation p q.
Proof.
  unfold separation. rewrite <- Math_hypot_opp. f_equal; ring.
Qed.

Lemma ljForce_beyond (P : Params) (rVec : Vec) :
  vLen rVec + 1e-9 > 2.5 * sigma P -> ljForce P rVec = (0, 0).
Proof.
  intros Hr. unfold ljForce. rewrite decide_True by assumption.
  rewrite clamp_zero by lra. rewrite Ropp_0. apply vMul_zero_r.
Qed.

(** Beyond the cutoffs every term of the pair force vanishes. *)
Lemma pairForce_far (P : Params) (sa sb : Phase) (rVec : Vec) :
  vLen rVec > 2.5 * sigma P -> vLen rVec > 2.2 * sigma P ->
  vLen rVec > 1.8 * sigma P ->
  pairForce P sa sb rVec = (0, 0).
Proof.
  intros H1 H2 H3. unfold pairForce.
  rewrite ljForce_beyond by lra.
  destruct (cohesion_terms_zero P rVec) as (Hhb & Hdp).
  rewrite Hhb by (right; lra). rewrite Hdp by (right; lra).
  rewrite !vMul_zero_l. unfold vAdd. simpl. f_equal; ring.
Qed.

Lemma setAcc_id (p : Particle) (v : Vec) : v = acc p -> setAcc p v = p.
Proof. intros ->. now destruct p. Qed.

Lemma forceCallback_far (P : Params) (i j : nat) (ps : list Particle)
    (a : Particle) :
  ps !! i = Some a ->
  (forall b, ps !! j = Some b -> i <> j -> beyondCutoffs P a b) ->
  forceCallback P i (pos a).1 (pos a).2 ps j = ps.
Proof.
  intros Ha Hfar. unfold forceCallback.
  destruct (decide (i = j)) as [|Hij]; [reflexivity|]. rewrite Ha.
  destruct (ps !! j) as [b|]; [|reflexivity].
  destruct (Hfar b eq_refl Hij) as (H1 & H2 & H3). unfold separation in *.
  pose proof (Math_hypot_nonneg ((pos b).1 - (pos a).1) ((pos b).2 - (pos a).2)).
  rewrite decide_False by lra.
  rewrite pairForce_far by assumption.
  rewrite setAcc_id; [now apply list_insert_id|].
  unfold vAdd. destruct (acc a). simpl. f_equal; ring.
Qed.

Lemma forcesOn_far (P : Params) (g : NeighborGrid.t) (ps : list Particle)
    (i : nat) :
  pairwise (beyondCutoffs P) ps -> forcesOn P g ps i = ps.
Proof.
  intros Hfar. unfold forcesOn. destruct (ps !! i) as [a|] eqn:Ha; [|reflexivity].
  apply (foldl_invariant (fun qs => qs = ps)); [|reflexivity].
  intros qs j ->. apply forceCallback_far; [assumption|].
  intros b Hb Hij. now apply (Hfar i j).
Qed.

Lemma forcePass_far (P : Params) (g : NeighborGrid.t) (ps : list Particle)
    (L : list nat) :
  pairwise (beyondCutoffs P) ps -> foldl (forcesOn P g) ps L = ps.
Proof.
  intros Hfar. apply (foldl_invariant (fun qs => qs = ps)); [|reflexivity].
  intros qs i ->. now apply forcesOn_far.
Qed.

Lemma pairwise_map (R : Particle -> Particle -> Prop) (f : Particle -> Particle)
    (ps : list Particle) :
  (forall p q, R p q -> R (f p) (f q)) -> pairwise R ps -> pairwise R (map f ps).
Proof.
  intros Hf Hps i j p q Hp Hq Hij.
  change (map f ps) with (f <$> ps) in Hp, Hq.
  rewrite list_lookup_fmap in Hp, Hq.
  destruct (ps !! i) as [p0|] eqn:Hp0; [|discriminate].
  destruct (ps !! j) as [q0|] eqn:Hq0; [|discriminate].
  simpl in Hp, Hq. injection Hp as <-. injection Hq as <-.
  apply Hf. now apply (Hps i j).
Qed.

Lemma beyondCutoffs_pos (P : Params) (p q p' q' : Particle) :
  pos p' = pos p -> pos q' = pos q ->
  beyondCutoffs P p q -> beyondCutoffs P p' q'.
Proof.
  unfold beyondCutoffs, separation. now intros -> ->.
Qed.

Lemma noContact_pos (p q p' q' : Particle) :
  pos p' = pos p -> pos q' = pos q -> radius p' = radius p ->
  radius q' = radius q -> noContact p q -> noContact p' q'.
Proof.
  unfold noContact, separation. now intros -> -> -> ->.
Qed.

(** A pass over the particles whose body computes a function of the
    particle and leaves the clock alone is a [map]. *)
Lemma forEach_pure {A} (Q : A -> Prop) (f : A -> Env A) (g : A -> A)
    (l : list A) (w : World) :
  (forall x w, Q x -> (f x w).1 = g x /\ clockPos (f x w).2 = clockPos w) ->
  Forall Q l ->
  (forEach f l w).1 = map g l /\ clockPos (forEach f l w).2 = clockPos w.
Proof.
  intros Hf Hl. revert w. induction Hl as [|x l Hx _ IH]; intros w.
  - split; reflexivity.
  - cbn [forEach]. unfold bind.
    destruct (Hf x w Hx) as [E1 E2]. destruct (f x w) as [y w1].
    destruct (IH w1) as [E3 E4]. destruct (forEach f l w1) as [l' w2].
    simpl in *. subst. split; [reflexivity|]. congruence.
Qed.

Section ForcePass.
Variable rs : RandomSource.
Variable clock : nat -> R.

(** Without a kick ([kickSigma = 0]) the drag on a particle needs no
    random number. *)
Lemma dragKick_quiet (p : Particle) (w : World) :
  acc p = (0, 0) ->
  (dragKick rs 0.3 0 p w).1
    = setAcc p (- 0.3 * (vel p).1, - 0.3 * (vel p).2) /\
  clockPos (dragKick rs 0.3 0 p w).2 = clockPos w.
Proof.
  intros Hp. unfold dragKick, bind, ret, randNorm, randomNonzero. simpl.
  split; [|reflexivity]. rewrite Hp. simpl. f_equal. f_equal; lra.
Qed.

Lemma sqrt_kick_zero (k : R) : k = 0 -> sqrt (2 * 0.3 * Rmax 0 (orElse k 0)) = 0.
Proof.
  intros ->. rewrite orElse_zero, Rmax_left by lra.
  replace (2 * 0.3 * 0) with 0 by lra. apply sqrt_0.
Qed.

(** The force pass at [kT = 0] on particles beyond each other's cutoffs:
    every particle is left with the drag alone, and the thermostat then
    rescales or not according to the clock. *)
Lemma computeForces_far (dt : R) (s : Sim) (w : World) :
  kT (params s) = 0 -> pairwise (beyondCutoffs (params s)) (particles s) ->
  let nowT := clock (clockPos w) in
  let last := if decide (lastThermoMs s = 0) then nowT else lastThermoMs s in
  let s' := (computeForces rs clock dt s w).1 in
  sameSetup s s' /\
  clockPos (computeForces rs clock dt s w).2 = S (clockPos w) /\
  (nowT - last > 500 ->
   particles s' = rescaleVelocities 0 (map dragOnly (particles s)) /\
   lastThermoMs s' = nowT) /\
  (nowT - last <= 500 ->
   particles s' = map dragOnly (particles s) /\ lastThermoMs s' = last).
Proof.
  intros HkT Hfar nowT last.
  assert (E : exists r,
             computeForces rs clock dt s w
             = (if decide (nowT - last > 500)
                then mkSim (width s) (height s) (params s)
                       (rescaleVelocities 0 (map dragOnly (particles s)))
                       (rebuildGrid (grid s) (particles s))
                       (gravityOn s) (heatingOn s) (heatAccel s) nowT
                else mkSim (width s) (height s) (params s)
                       (map dragOnly (particles s))
                       (rebuildGrid (grid s) (particles s))
                       (gravityOn s) (heatingOn s) (heatAccel s) last,
                mkWorld r (S (clockPos w)))).
  { unfold computeForces.
    rewrite forcePass_far.
    2:{ apply pairwise_map; [|exact Hfar]. intros p q.
        now apply beyondCutoffs_pos. }
    rewrite (sqrt_kick_zero _ HkT).
    unfold bind at 1.
    destruct (forEach_pure (fun p => acc p = (0, 0)) (dragKick rs 0.3 0)
                (fun p => setAcc p (- 0.3 * (vel p).1, - 0.3 * (vel p).2))
                (map (fun p => setLocalNeighbors (setAcc p (0, 0)) 0)
                   (particles s)) w)
      as [Hps Hclk].
    { intros p w0 Hp. now apply dragKick_quiet. }
    { apply Forall_map. apply Forall_forall. reflexivity. }
    destruct (forEach _ _ w) as [ps1 w1]. simpl in Hps, Hclk. subst ps1.
    unfold bind, performance_now. rewrite Hclk. fold nowT. fold last.
    rewrite map_map.
    change (map _ (particles s)) with (map dragOnly (particles s)).
    rewrite HkT, orElse_zero, Rmax_left by lra.
    exists (rngPos w1). destruct (decide (nowT - last > 500)); reflexivity. }
  destruct E as [r E]. cbn zeta. rewrite E. cbn [fst snd clockPos].
  destruct (decide (nowT - last > 500)) as [Hgt|Hle];
    (split; [unfold sameSetup; cbn; repeat split; reflexivity|]);
    (split; [reflexivity|]); split; intros H; try lra; split; reflexivity.
Qed.
End ForcePass.

Lemma handleWalls_inside_id (w h : R) (p : Particle) :
  0 < radius p -> insideWalls w h p -> handleWalls w h p = p.
Proof.
  intros Hr (Hx & Hy). unfold handleWalls. rewrite orElse_nonzero by lra.
  cbv zeta.
  rewrite (decide_False (P := (pos p).1 < radius p)) by lra.
  rewrite (decide_False (P := (pos p).1 > w - radius p)) by lra.
  rewrite (decide_False (P := (pos p).2 < radius p)) by lra.
  now rewrite (decide_False (P := (pos p).2 > h - radius p)) by lra.
Qed.

Lemma map_id_Forall {A} (f : A -> A) (l : list A) :
  Forall (fun x => f x = x) l -> map f l = l.
Proof. induction 1; simpl; congruence. Qed.

(** One collision iteration changes nothing when no two particles touch
    and all are inside the walls. *)
Lemma collisionIteration_fixed (s : Sim) :
  pairwise noContact (particles s) ->
  Forall (fun p => 0 < radius p /\ insideWalls (width s) (height s) p)
    (particles s) ->
  particles (collisionIteration s) = particles s.
Proof.
  intros Hfar Hin. rewrite collisionIteration_particles.
  rewrite resolveCollisions_fixed.
  - apply map_id_Forall. eapply Forall_impl; [exact Hin|].
    intros p [Hr Hp]. now apply handleWalls_inside_id.
  - intros i j a Ha Hij. apply resolvePair_apart. intros a0 b Ha0 Hb.
    rewrite Ha in Ha0. injection Ha0 as <-.
    pose proof (Hfar i j a b Ha Hb Hij) as Hc. unfold noContact, separation in Hc.
    apply list_elem_of_lookup_2 in Ha, Hb.
    rewrite Forall_forall in Hin.
    destruct (Hin a Ha) as [Hra _]. destruct (Hin b Hb) as [Hrb _].
    rewrite !orElse_nonzero by lra. lra.
Qed.

Lemma collisionIterations_fixed (n : nat) (s : Sim) :
  pairwise noContact (particles s) ->
  Forall (fun p => 0 < radius p /\ insideWalls (width s) (height s) p)
    (particles s) ->
  particles (Nat.iter n collisionIteration s) = particles s.
Proof.
  intros Hfar Hin. induction n as [|n IH]; [reflexivity|].
  change (Nat.iter (S n) collisionIteration s)
    with (collisionIteration (Nat.iter n collisionIteration s)).
  destruct (collisionIterations_frame n s) as [(Hw & Hh & _) _].
  rewrite collisionIteration_fixed; rewrite ?IH, ?Hw, ?Hh; auto.
Qed.

Lemma lastThermo_iter (n : nat) (s : Sim) :
  lastThermoMs (Nat.iter n collisionIteration s) = lastThermoMs s.
Proof.
  induction n as [|n IH]; [reflexivity|].
  change (Nat.iter (S n) collisionIteration s)
    with (collisionIteration (Nat.iter n collisionIteration s)).
  exact IH.
Qed.

Section Calm.
Variable rs : RandomSource.
Variable clock : nat -> R.

(** A particle that is not warm is integrated without a random number. *)
Lemma integrate_cool (w h dtStep : R) (p : Particle) (wd : World) :
  thermalEnergy p <= 0.1 ->
  (integrate rs w h dtStep p wd).1 = handleWalls w h (eulerStep dtStep p) /\
  clockPos (integrate rs w h dtStep p wd).2 = clockPos wd.
Proof.
  intros Hte. unfold integrate.
  change (thermalEnergy (eulerStep dtStep p)) with (thermalEnergy p).
  rewrite orElse_zero, decide_False by lra. split; reflexivity.
Qed.

Lemma coolParticle_thermal (dtStep : R) (p : Particle) :
  0 <= dtStep -> thermalEnergy p <= 0.1 ->
  thermalEnergy (coolParticle dtStep p) <= 0.1.
Proof.
  intros Hdt Hte. unfold coolParticle. simpl. rewrite orElse_zero.
  apply Rmax_lub; nra.
Qed.

(** The motion part of a pass with gravity and heating off, at [kT = 0],
    on particles beyond each other's cutoffs: the force pass leaves the
    drag alone, then the particles cool, are integrated and collide. *)
Lemma advance_unheated (dtStep : R) (s : Sim) (w : World) :
  gravityOn s = false -> heatingOn s = false -> kT (params s) = 0 ->
  pairwise (beyondCutoffs (params s)) (particles s) ->
  let nowT := clock (clockPos w) in
  let last := if decide (lastThermoMs s = 0) then nowT else lastThermoMs s in
  let fires := bool_decide (nowT - last > 500) in
  exists s1 w1,
    sameSetup s s1 /\ clockPos w1 = S (clockPos w) /\
    lastThermoMs s1 = (if fires then nowT else last) /\
    advance rs clock dtStep s w
    = (let (ps5, w5) :=
         forEach (integrate rs (width s) (height s) dtStep)
           (map (coolParticle dtStep) (afterForces fires (particles s))) w1 in
       (Nat.iter 5 collisionIteration (setParticles s1 ps5), w5)).
Proof.
  intros Hg Hh HkT Hfar nowT last fires.
  destruct (computeForces_far rs clock dtStep s w HkT Hfar)
    as (Hsetup & Hclk & Hfire & Hidle).
  fold nowT last in Hfire, Hidle.
  assert (Hps1 : particles (computeForces rs clock dtStep s w).1
                 = afterForces fires (particles s) /\
                 lastThermoMs (computeForces rs clock dtStep s w).1
                 = (if fires then nowT else last)).
  { unfold afterForces, fires.
    destruct (bool_decide_reflect (nowT - last > 500)) as [Hgt|Hle].
    - now apply Hfire.
    - apply Hidle. lra. }
  destruct Hps1 as [Hps1 Hlast].
  unfold advance. unfold bind at 1.
  destruct (computeForces rs clock dtStep s w) as [s1 w1].
  simpl in Hsetup, Hclk, Hps1, Hlast.
  exists s1, w1. split; [exact Hsetup|]. split; [exact Hclk|].
  split; [exact Hlast|].
  destruct Hsetup as (Hw1 & Hh1 & _ & Hg1 & Hheat1 & _).
  rewrite Hg1, Hg. cbn [setParticles heatingOn gravityOn particles width height].
  rewrite Hheat1, Hh. unfold bind at 1. cbn [ret].
  rewrite Hg1, Hg. cbn [setParticles particles width height].
  unfold bind at 1. rewrite Hps1, Hw1, Hh1.
  destruct (forEach _ _ w1) as [ps5 w5]. reflexivity.
Qed.

(** The same when no particle is warm and the particles that were moved end
    up inside the walls without touching. *)
Lemma advance_calm (dtStep : R) (s : Sim) (w : World) :
  gravityOn s = false -> heatingOn s = false -> kT (params s) = 0 ->
  0 <= dtStep ->
  pairwise (beyondCutoffs (params s)) (particles s) ->
  Forall (fun p => thermalEnergy p <= 0.1) (particles s) ->
  let nowT := clock (clockPos w) in
  let last := if decide (lastThermoMs s = 0) then nowT else lastThermoMs s in
  let fires := bool_decide (nowT - last > 500) in
  let moved :=
    map (calmMove (width s) (height s) dtStep) (afterForces fires (particles s)) in
  pairwise noContact moved ->
  Forall (fun p => 0 < radius p /\ insideWalls (width s) (height s) p) moved ->
  let s' := (advance rs clock dtStep s w).1 in
  sameSetup s s' /\ particles s' = moved /\
  lastThermoMs s' = (if fires then nowT else last) /\
  clockPos (advance rs clock dtStep s w).2 = S (clockPos w).
Proof.
  intros Hg Hh HkT Hdt Hfar Hte nowT last fires moved Hcontact Hin.
  destruct (advance_unheated dtStep s w Hg Hh HkT Hfar)
    as (s1 & w1 & Hsetup & Hclk & Hlast & E).
  fold nowT last fires in Hlast, E.
  assert (Hte1 : Forall (fun p => thermalEnergy p <= 0.1)
                   (afterForces fires (particles s))).
  { unfold afterForces, rescaleVelocities.
    assert (Forall (fun p => thermalEnergy p <= 0.1) (map dragOnly (particles s)))
      by (apply Forall_map; eapply Forall_impl; [exact Hte|]; auto).
    destruct fires; [|assumption].
    repeat case_decide; try assumption.
    apply Forall_map. eapply Forall_impl; [eassumption|].
    intros p Hp. simpl. destruct (thermostatted p); exact Hp. }
  destruct (forEach_pure (fun p => thermalEnergy p <= 0.1)
              (integrate rs (width s) (height s) dtStep)
              (fun p => handleWalls (width s) (height s) (eulerStep dtStep p))
              (map (coolParticle dtStep) (afterForces fires (particles s))) w1)
    as [Hint Hclk2].
  { intros p w0 Hp. now apply integrate_cool. }
  { apply Forall_map. eapply Forall_impl; [exact Hte1|].
    intros p Hp. now apply coolParticle_thermal. }
  destruct (forEach _ _ w1) as [ps5 w5]. simpl in Hint, Hclk2. subst ps5.
  rewrite map_map in E. fold (calmMove (width s) (height s) dtStep) in E.
  change (map _ (afterForces fires (particles s))) with moved in E.
  cbn zeta. rewrite E. cbn [fst snd].
  destruct Hsetup as (Hw1 & Hh1 & Hp1 & Hg1 & Hheat1 & Ha1).
  destruct (collisionIterations_frame 5 (setParticles s1 moved)) as [Hs5 Hp5].
  split; [|split; [|split]].
  - eapply sameSetup_trans; [|exact Hs5].
    unfold sameSetup. cbn. auto 10.
  - rewrite collisionIterations_fixed; cbn [setParticles particles width height];
      rewrite ?Hw1, ?Hh1; auto.
  - rewrite lastThermo_iter. exact Hlast.
  - congruence.
Qed.
End Calm.

Lemma Forall2_with_l {A B} (R : A -> B -> Prop) (Q : A -> Prop)
    (l : list A) (k : list B) :
  Forall2 R l k -> Forall Q l -> Forall2 (fun x y => R x y /\ Q x) l k.
Proof.
  induction 1; intros HQ; inversion HQ; subst; constructor; auto.
Qed.

Lemma pair_eq (v : Vec) (x y : R) : v.1 = x -> v.2 = y -> v = (x, y).
Proof. destruct v. simpl. now intros -> ->. Qed.

Lemma afterForces_still (fires : bool) (ps0 ps : list Particle) :
  Forall2 still ps0 ps ->
  Forall2 (fun p0 p1 => still p0 p1 /\ acc p1 = (0, 0)) ps0 (afterForces fires ps).
Proof.
  intros Hst.
  assert (Hdrag : Forall2 (fun p0 p1 => still p0 p1 /\ acc p1 = (0, 0))
                    ps0 (map dragOnly ps)).
  { apply Forall2_fmap_r. eapply Forall2_impl; [exact Hst|].
    intros p0 p (Hpos & Hvel & Hr & Hte). unfold still, dragOnly. simpl.
    rewrite Hvel. simpl. repeat split; auto. f_equal; lra. }
  unfold afterForces. destruct fires; [|exact Hdrag].
  unfold rescaleVelocities. repeat case_decide; try exact Hdrag.
  apply Forall2_fmap_r. eapply Forall2_impl; [exact Hdrag|].
  intros p0 p [(Hpos & Hvel & Hr & Hte) Hacc]. simpl.
  destruct (thermostatted p); [|repeat split; auto].
  unfold still. simpl. rewrite Hvel. simpl. repeat split; auto. f_equal; lra.
Qed.

Lemma calmMove_still (w h dtStep : R) (p0 p1 : Particle) :
  0 <= dtStep -> 0 < radius p0 -> insideWalls w h p0 ->
  still p0 p1 -> acc p1 = (0, 0) ->
  still p0 (calmMove w h dtStep p1) /\
  0 < radius (calmMove w h dtStep p1) /\
  insideWalls w h (calmMove w h dtStep p1).
Proof.
  intros Hdt Hr0 Hin (Hpos & Hvel & Hr & Hte) Hacc.
  pose proof (coolParticle_thermal dtStep p1 Hdt Hte) as Hte'.
  unfold calmMove.
  set (q := eulerStep dtStep (coolParticle dtStep p1)).
  assert (Hq : pos q = pos p0 /\ vel q = (0, 0) /\ radius q = radius p0 /\
               thermalEnergy q <= 0.1).
  { subst q. unfold eulerStep. cbn [pos vel radius thermalEnergy setPos setVel].
    change (vel (coolParticle dtStep p1)) with (vel p1).
    change (acc (coolParticle dtStep p1)) with (acc p1).
    change (pos (coolParticle dtStep p1)) with (pos p1).
    change (radius (coolParticle dtStep p1)) with (radius p1).
    change (mass (coolParticle dtStep p1)) with (mass p1).
    rewrite Hvel, Hacc, Hpos. cbn [fst snd].
    repeat split; auto.
    - destruct (pos p0) as [x y]. cbn [fst snd]. f_equal; unfold Rdiv; ring.
    - f_equal; unfold Rdiv; ring. }
  destruct Hq as (Hqp & Hqv & Hqr & Hqt).
  assert (Hqin : insideWalls w h q).
  { unfold insideWalls in *. now rewrite Hqp, Hqr. }
  rewrite handleWalls_inside_id by (auto; lra).
  unfold still. rewrite Hqr. auto.
Qed.

Lemma classify_still (P : Params) (h nowS : R) (p0 p : Particle) :
  still p0 p -> still p0 (classify P h nowS p).
Proof.
  intros (Hpos & Hvel & Hr & Hte). unfold still, classify.
  rewrite !orElse_zero.
  destruct (state p).
  - rewrite (bool_decide_eq_false_2 (thermalEnergy p > 0.7)) by lra.
    repeat case_decide; try lra; auto.
  - case_decide; [auto|].
    destruct (_ || _); [|auto].
    case_decide; simpl; repeat split; auto;
      apply Rmax_lub; lra.
Qed.

Lemma Forall2_pairwise_noContact (ps0 ps : list Particle) :
  Forall2 (fun p0 p => pos p = pos p0 /\ radius p = radius p0) ps0 ps ->
  pairwise noContact ps0 -> pairwise noContact ps.
Proof.
  intros H2 Hps0 i j p q Hp Hq Hij.
  destruct (Forall2_lookup_r _ _ _ _ _ H2 Hp) as (p0 & Hp0 & Hpp & Hpr).
  destruct (Forall2_lookup_r _ _ _ _ _ H2 Hq) as (q0 & Hq0 & Hqp & Hqr).
  apply (noContact_pos p0 q0); auto. now apply (Hps0 i j).
Qed.

Lemma Forall2_pairwise_beyond (P : Params) (ps0 ps : list Particle) :
  Forall2 (fun p0 p => pos p = pos p0) ps0 ps ->
  pairwise (beyondCutoffs P) ps0 -> pairwise (beyondCutoffs P) ps.
Proof.
  intros H2 Hps0 i j p q Hp Hq Hij.
  destruct (Forall2_lookup_r _ _ _ _ _ H2 Hp) as (p0 & Hp0 & Hpp).
  destruct (Forall2_lookup_r _ _ _ _ _ H2 Hq) as (q0 & Hq0 & Hqp).
  apply (beyondCutoffs_pos P p0 q0); auto. now apply (Hps0 i j).
Qed.

Section Still.
Variable rs : RandomSource.
Variable clock : nat -> R.

Lemma substep_still (dtStep : R) (s : Sim) (w : World) (ps0 : list Particle) :
  gravityOn s = false -> heatingOn s = false -> kT (params s) = 0 ->
  0 <= dtStep ->
  pairwise (beyondCutoffs (params s)) ps0 -> pairwise noContact ps0 ->
  Forall (fun p => 0 < radius p /\ insideWalls (width s) (height s) p) ps0 ->
  Forall2 still ps0 (particles s) ->
  sameSetup s (substep rs clock dtStep s w).1 /\
  Forall2 still ps0 (particles (substep rs clock dtStep s w).1).
Proof.
  intros Hg Hh HkT Hdt Hfar Hcontact Hin Hst.
  set (nowT := clock (clockPos w)).
  set (last := if decide (lastThermoMs s = 0) then nowT else lastThermoMs s).
  set (fires := bool_decide (nowT - last > 500)).
  set (moved := map (calmMove (width s) (height s) dtStep)
                  (afterForces fires (particles s))).
  assert (Hmoved : Forall2 (fun p0 q => still p0 q /\ 0 < radius q /\
                                        insideWalls (width s) (height s) q)
                     ps0 moved).
  { subst moved. apply Forall2_fmap_r.
    pose proof (Forall2_with_l _ _ _ _
                  (afterForces_still fires ps0 (particles s) Hst) Hin) as Haf.
    eapply Forall2_impl; [exact Haf|].
    intros p0 p1 [[Hs1 Ha1] [Hr0 Hin0]]. simpl.
    apply calmMove_still; assumption. }
  destruct (advance_calm rs clock dtStep s w) as (Hsetup & Hps & _ & _); auto.
  { apply Forall2_pairwise_beyond with ps0; [|exact Hfar].
    eapply Forall2_impl; [exact Hst|]. now intros p0 p (Hp & _). }
  { apply Forall2_Forall_r with (l := ps0) (P := still); [exact Hst|].
    apply Forall_forall. now intros p _ p0 (_ & _ & _ & Hte). }
  { fold nowT last fires moved.
    apply Forall2_pairwise_noContact with ps0; [|exact Hcontact].
    eapply Forall2_impl; [exact Hmoved|].
    now intros p0 q ((Hp & _ & Hr & _) & _). }
  { fold nowT last fires moved.
    apply Forall2_Forall_r with (l := ps0)
      (P := fun p0 q => still p0 q /\ 0 < radius q /\
                        insideWalls (width s) (height s) q); [exact Hmoved|].
    apply Forall_forall. now intros p _ p0 (_ & Hr & Hi). }
  fold nowT last fires moved in Hps.
  unfold substep, bind.
  destruct (advance rs clock dtStep s w) as [s1 w1]. simpl in Hsetup, Hps.
  unfold updateStates, bind, performance_now, ret. cbn [fst snd].
  split.
  - unfold sameSetup in *. cbn. tauto.
  - cbn [setParticles particles]. rewrite Hps. apply Forall2_fmap_r.
    eapply Forall2_impl; [exact Hmoved|].
    intros p0 q (Hq & _). now apply classify_still.
Qed.
End Still.

Lemma pairwise_two (R : Particle -> Particle -> Prop) (a b : Particle) :
  R a b -> R b a -> pairwise R [a; b].
Proof.
  intros Hab Hba i j p q Hp Hq Hij.
  destruct i as [|[|i]], j as [|[|j]]; try done; simpl in Hp, Hq;
    injection Hp as <-; injection Hq as <-; assumption.
Qed.

Lemma beyondCutoffs_sym (P : Params) (p q : Particle) :
  beyondCutoffs P p q -> beyondCutoffs P q p.
Proof. unfold beyondCutoffs. now rewrite (separation_sym p q). Qed.

Lemma noContact_sym (p q : Particle) : noContact p q -> noContact q p.
Proof. unfold noContact. rewrite (separation_sym p q). lra. Qed.

Section StillSteps.
Variable rs : RandomSource.
Variable clock : nat -> R.

Lemma step_ungravitated (dt : R) (s : Sim) (w : World) :
  gravityOn s = false ->
  step rs clock dt s w = substep rs clock (dt / 1) s w.
Proof.
  intros Hg. unfold step, substepsOf. rewrite Hg.
  change (Z.to_nat 1) with 1%nat. cbn [substeps].
  unfold bind. destruct (substep rs clock (dt / 1) s w). reflexivity.
Qed.

Lemma steps_still (k : nat) (dt : R) (s : Sim) (w : World)
    (ps0 : list Particle) :
  gravityOn s = false -> heatingOn s = false -> kT (params s) = 0 ->
  0 <= dt ->
  pairwise (beyondCutoffs (params s)) ps0 -> pairwise noContact ps0 ->
  Forall (fun p => 0 < radius p /\ insideWalls (width s) (height s) p) ps0 ->
  Forall2 still ps0 (particles s) ->
  Forall2 still ps0 (particles (steps rs clock k dt s w).1).
Proof.
  revert s w. induction k as [|k IH]; intros s w Hg Hh HkT Hdt Hfar Hc Hin Hst;
    [exact Hst|].
  cbn [steps]. unfold bind. rewrite step_ungravitated by assumption.
  destruct (substep_still rs clock (dt / 1) s w ps0) as [Hsetup Hst']; auto;
    [lra|].
  destruct (substep rs clock (dt / 1) s w) as [s1 w1]. simpl in *.
  destruct Hsetup as (Hw & Hh' & HP & Hg' & Hheat & _).
  apply IH; rewrite ?Hw, ?Hh', ?HP, ?Hg', ?Hheat; auto.
Qed.

(** C7, amended.  At [kT = 0] with gravity and heating off, two particles
    at rest that carry no more thermal energy than 0.1, have positive mass
    and radius, lie inside the walls with their radius as margin, are
    farther apart than every force cutoff and do not overlap: after any
    number of calls of [step(dt)], [dt >= 0], whatever the random numbers
    and the clock, both are where they started and still at rest. *)
Theorem pair_at_rest_stays_put (s : Sim) (a b : Particle) (dt : R) (k : nat)
    (w : World) :
  particles s = [a; b] ->
  kT (params s) = 0 -> gravityOn s = false -> heatingOn s = false ->
  0 <= dt ->
  settled (width s) (height s) a -> settled (width s) (height s) b ->
  beyondCutoffs (params s) a b -> noContact a b ->
  exists a' b',
    particles (steps rs clock k dt s w).1 = [a'; b'] /\
    pos a' = pos a /\ pos b' = pos b /\ vel a' = (0, 0) /\ vel b' = (0, 0).
Proof.
  intros Hps HkT Hg Hh Hdt (Hva & Hta & Hma & Hra & Hia)
    (Hvb & Htb & Hmb & Hrb & Hib) Hfar Hc.
  pose proof (steps_still k dt s w [a; b] Hg Hh HkT Hdt) as H.
  rewrite Hps in H.
  assert (Hst : Forall2 still [a; b] (particles (steps rs clock k dt s w).1)).
  { apply H.
    - apply pairwise_two; auto using beyondCutoffs_sym.
    - apply pairwise_two; auto using noContact_sym.
    - constructor; [split; assumption|].
      constructor; [split; assumption|]. constructor.
    - constructor; [unfold still; auto|].
      constructor; [unfold still; auto|]. constructor. }
  inversion Hst as [|? a' ? l1 (Hpa & Hva' & _) Hst1]; subst.
  inversion Hst1 as [|? b' ? l2 (Hpb & Hvb' & _) Hst2]; subst.
  inversion Hst2; subst.
  exists a', b'. auto.
Qed.
End StillSteps.

Lemma separation_axis (p q : Particle) :
  (pos q).2 = (pos p).2 -> (pos p).1 <= (pos q).1 ->
  separation p q = (pos q).1 - (pos p).1.
Proof.
  intros Hy Hx. unfold separation. rewrite Hy.
  replace ((pos p).2 - (pos p).2) with 0 by ring.
  apply Math_hypot_axis. lra.
Qed.

(** The theorem at two particles 100 apart in the cold default
    simulation, after 60 steps of 1/60. *)
Lemma pair_at_rest_stays_put_witness :
  exists a' b',
    particles
      (steps halves (fun _ => 0) 60 (1 / 60)
         (coldSim [restingAt 100 100; restingAt 200 100]) (mkWorld 0 0)).1
      = [a'; b'] /\
    pos a' = (100, 100) /\ pos b' = (200, 100) /\
    vel a' = (0, 0) /\ vel b' = (0, 0).
Proof.
  assert (Hsep : separation (restingAt 100 100) (restingAt 200 100) = 100).
  { rewrite separation_axis; simpl; lra. }
  apply (pair_at_rest_stays_put halves (fun _ => 0)
           (coldSim [restingAt 100 100; restingAt 200 100])
           (restingAt 100 100) (restingAt 200 100) (1 / 60) 60 (mkWorld 0 0));
    try reflexivity.
  - lra.
  - unfold settled, insideWalls. simpl. repeat split; auto; lra.
  - unfold settled, insideWalls. simpl. repeat split; auto; lra.
  - unfold beyondCutoffs. rewrite Hsep. simpl. lra.
  - unfold noContact. rewrite Hsep. simpl. lra.
Defined.

(** ** A lone particle *)

Lemma classify_cold_liquid (P : Params) (h nowS : R) (p : Particle) :
  state p = liquid -> thermalEnergy p <= 0.2 -> classify P h nowS p = p.
Proof.
  intros Hs Hte. unfold classify. rewrite Hs, !orElse_zero.
  rewrite (bool_decide_eq_false_2 (thermalEnergy p > 0.7)) by lra.
  repeat case_decide; try lra; reflexivity.
Qed.

Lemma pairwise_single (R : Particle -> Particle -> Prop) (p : Particle) :
  pairwise R [p].
Proof.
  intros i j a b Ha Hb Hij.
  destruct i as [|i], j as [|j]; try done.
Qed.

Lemma handleWalls_thermal (w h : R) (p : Particle) :
  thermalEnergy (handleWalls w h p) = thermalEnergy p /\
  state (handleWalls w h p) = state p /\
  radius (handleWalls w h p) = radius p /\
  mass (handleWalls w h p) = mass p.
Proof. unfold handleWalls. repeat case_decide; auto. Qed.

Lemma calmMove_keeps (w h dtStep : R) (p : Particle) :
  radius (calmMove w h dtStep p) = radius p /\
  mass (calmMove w h dtStep p) = mass p /\
  state (calmMove w h dtStep p) = state p /\
  thermalEnergy (calmMove w h dtStep p)
    = thermalEnergy (coolParticle dtStep p).
Proof.
  unfold calmMove.
  destruct (handleWalls_thermal w h (eulerStep dtStep (coolParticle dtStep p)))
    as (-> & -> & -> & ->). auto.
Qed.

Section Single.
Variable rs : RandomSource.
Variable clock : nat -> R.

(** One pass of the substep loop in the calm regime. *)
Lemma substep_calm (dtStep : R) (s : Sim) (w : World) :
  gravityOn s = false -> heatingOn s = false -> kT (params s) = 0 ->
  0 <= dtStep ->
  pairwise (beyondCutoffs (params s)) (particles s) ->
  Forall (fun p => thermalEnergy p <= 0.1) (particles s) ->
  let nowT := clock (clockPos w) in
  let last := if decide (lastThermoMs s = 0) then nowT else lastThermoMs s in
  let fires := bool_decide (nowT - last > 500) in
  let moved :=
    map (calmMove (width s) (height s) dtStep) (afterForces fires (particles s)) in
  pairwise noContact moved ->
  Forall (fun p => 0 < radius p /\ insideWalls (width s) (height s) p) moved ->
  let s' := (substep rs clock dtStep s w).1 in
  sameSetup s s' /\
  particles s'
    = map (classify (params s) (height s) (clock (S (clockPos w)))) moved /\
  lastThermoMs s' = (if fires then nowT else last) /\
  clockPos (substep rs clock dtStep s w).2 = S (S (clockPos w)).
Proof.
  intros Hg Hh HkT Hdt Hfar Hte nowT last fires moved Hc Hin.
  destruct (advance_calm rs clock dtStep s w Hg Hh HkT Hdt Hfar Hte Hc Hin)
    as (Hsetup & Hps & Hlast & Hclk).
  fold nowT last fires moved in Hps, Hlast.
  cbn zeta. unfold substep, bind.
  destruct (advance rs clock dtStep s w) as [s1 w1]. simpl in Hsetup, Hps, Hlast, Hclk.
  unfold updateStates, bind, performance_now, ret. cbn [fst snd clockPos].
  destruct Hsetup as (Hw1 & Hh1 & Hp1 & Hg1 & Hheat1 & Ha1).
  rewrite Hclk, Hps, Hp1, Hh1.
  split; [unfold sameSetup; cbn; auto 10|].
  split; [reflexivity|]. split; [exact Hlast|reflexivity].
Qed.

(** One call of [step] on a lone cold liquid particle while the thermostat
    is idle. *)
Lemma step_single (dt : R) (s : Sim) (w : World) (p : Particle) :
  particles s = [p] ->
  gravityOn s = false -> heatingOn s = false -> kT (params s) = 0 ->
  0 <= dt ->
  state p = liquid -> thermalEnergy p <= 0.1 -> fits (width s) (height s) p ->
  let nowT := clock (clockPos w) in
  let last := if decide (lastThermoMs s = 0) then nowT else lastThermoMs s in
  nowT - last <= 500 ->
  let s' := (step rs clock dt s w).1 in
  sameSetup s s' /\
  particles s' = [glide (width s) (height s) (dt / 1) p] /\
  lastThermoMs s' = last.
Proof.
  intros Hps Hg Hh HkT Hdt Hliq Hte Hfit nowT last Hidle.
  cbn zeta. rewrite step_ungravitated by assumption.
  assert (Hq : fits (width s) (height s) (eulerStep (dt / 1)
                                           (coolParticle (dt / 1) (dragOnly p))))
    by exact Hfit.
  destruct (substep_calm (dt / 1) s w) as (Hsetup & Hps' & Hlast & _); auto.
  - lra.
  - rewrite Hps. apply pairwise_single.
  - rewrite Hps. constructor; [assumption|constructor].
  - fold nowT last. rewrite bool_decide_eq_false_2 by lra.
    rewrite Hps. apply pairwise_single.
  - fold nowT last. rewrite bool_decide_eq_false_2 by lra.
    rewrite Hps. cbn [afterForces map]. constructor; [|constructor].
    destruct (calmMove_keeps (width s) (height s) (dt / 1) (dragOnly p))
      as (-> & _).
    split; [apply Hfit|]. unfold calmMove. now apply handleWalls_inside.
  - fold nowT last in Hps', Hlast.
    rewrite bool_decide_eq_false_2 in Hps', Hlast by lra.
    rewrite Hps in Hps'. cbn [afterForces map] in Hps'.
    split; [exact Hsetup|]. split; [|exact Hlast].
    rewrite Hps'. f_equal. unfold glide.
    pose proof (coolParticle_thermal (dt / 1) (dragOnly p)) as Hc.
    destruct (calmMove_keeps (width s) (height s) (dt / 1) (dragOnly p))
      as (_ & _ & Hst & Hth).
    apply classify_cold_liquid.
    + now rewrite Hst.
    + rewrite Hth. specialize (Hc ltac:(lra) Hte). lra.
Qed.
End Single.

Lemma glide_keeps (w h dtStep : R) (p : Particle) :
  0 <= dtStep -> thermalEnergy p <= 0.1 ->
  state (glide w h dtStep p) = state p /\
  radius (glide w h dtStep p) = radius p /\
  thermalEnergy (glide w h dtStep p) <= 0.1.
Proof.
  intros Hdt Hte. unfold glide.
  destruct (calmMove_keeps w h dtStep (dragOnly p)) as (-> & _ & -> & ->).
  repeat split; auto. now apply coolParticle_thermal.
Qed.

Section SingleRun.
Variable rs : RandomSource.
Variable clock : nat -> R.

(** A run on a lone cold liquid particle while the thermostat is idle
    applies [glide] once per step. *)
Lemma steps_single (k : nat) (dt : R) (s : Sim) (w : World) (p : Particle) :
  particles s = [p] ->
  gravityOn s = false -> heatingOn s = false -> kT (params s) = 0 ->
  0 <= dt ->
  state p = liquid -> thermalEnergy p <= 0.1 -> fits (width s) (height s) p ->
  idle clock ->
  (lastThermoMs s = 0 \/ exists i, lastThermoMs s = clock i) ->
  particles (steps rs clock k dt s w).1
    = [Nat.iter k (glide (width s) (height s) (dt / 1)) p].
Proof.
  revert s w p.
  induction k as [|k IH]; intros s w p Hps Hg Hh HkT Hdt Hliq Hte Hfit Hidle Hlast;
    [exact Hps|].
  cbn [steps]. unfold bind.
  set (nowT := clock (clockPos w)).
  set (last := if decide (lastThermoMs s = 0) then nowT else lastThermoMs s).
  assert (Hlast' : exists i, last = clock i).
  { subst last. destruct (decide (lastThermoMs s = 0)) as [E|E].
    - now exists (clockPos w).
    - destruct Hlast as [E'|Hi]; [contradiction|exact Hi]. }
  destruct (step_single rs clock dt s w p) as (Hsetup & Hps' & Hl'); auto.
  { fold nowT last. destruct Hlast' as [i ->]. apply Hidle. }
  fold nowT last in Hl'.
  destruct (step rs clock dt s w) as [s1 w1]. simpl in Hsetup, Hps', Hl'.
  destruct Hsetup as (Hw & Hh' & HP & Hg' & Hheat & _).
  destruct (glide_keeps (width s) (height s) (dt / 1) p) as (Hst & Hr & Hte');
    [lra|assumption|].
  rewrite Nat.iter_succ_r. rewrite <- Hw, <- Hh'.
  apply IH; rewrite ?Hw, ?Hh', ?HP, ?Hg', ?Hheat; auto.
  - congruence.
  - unfold fits in *. now rewrite Hr.
  - right. rewrite Hl'. exact Hlast'.
Qed.
End SingleRun.

(** ** A lone particle between the walls *)

Lemma coolParticle_cold (dtStep : R) (p : Particle) :
  0 <= dtStep -> thermalEnergy p = 0 -> thermalEnergy (coolParticle dtStep p) = 0.
Proof.
  intros Hdt Hte. unfold coolParticle. simpl. rewrite Hte, orElse_zero.
  apply Rmax_left. nra.
Qed.

(** The particle before the walls are applied. *)
Lemma glide_before_walls (dtStep x v y : R) (p : Particle) :
  0 <= dtStep -> moving x v y p ->
  moving (x + v * (1 - 0.3 * dtStep) * dtStep) (v * (1 - 0.3 * dtStep)) y
    (eulerStep dtStep (coolParticle dtStep (dragOnly p))).
Proof.
  intros Hdt (Hpos & Hvel & Hm & Hr & Hte & Hst).
  unfold moving, eulerStep.
  cbn [pos vel mass radius state thermalEnergy setPos setVel].
  change (pos (coolParticle dtStep (dragOnly p))) with (pos p).
  change (vel (coolParticle dtStep (dragOnly p))) with (vel p).
  change (mass (coolParticle dtStep (dragOnly p))) with (mass p).
  change (radius (coolParticle dtStep (dragOnly p))) with (radius p).
  change (state (coolParticle dtStep (dragOnly p))) with (state p).
  change (acc (coolParticle dtStep (dragOnly p)))
    with (- 0.3 * (vel p).1, - 0.3 * (vel p).2).
  rewrite Hpos, Hvel, Hm. cbn [fst snd].
  repeat split; auto.
  - f_equal; nra.
  - f_equal; nra.
  - apply coolParticle_cold; auto.
Qed.

(** A step that ends clear of the walls. *)
Lemma glide_moving (w h dtStep x v y : R) (p : Particle) :
  0 <= dtStep -> moving x v y p ->
  3 <= x + v * (1 - 0.3 * dtStep) * dtStep <= w - 3 -> 3 <= y <= h - 3 ->
  moving (x + v * (1 - 0.3 * dtStep) * dtStep) (v * (1 - 0.3 * dtStep)) y
    (glide w h dtStep p).
Proof.
  intros Hdt Hp Hx Hy.
  pose proof (glide_before_walls dtStep x v y p Hdt Hp) as Hq.
  unfold glide, calmMove. rewrite handleWalls_inside_id; [exact Hq| |].
  - destruct Hq as (_ & _ & _ & -> & _). lra.
  - destruct Hq as (Hpos & _ & _ & Hr & _).
    unfold insideWalls. rewrite Hpos, Hr. simpl. lra.
Qed.

(** A step that would end beyond the right wall is stopped at the wall and
    the velocity reflected with restitution 0.2. *)
Lemma glide_bounce (w h dtStep x v y : R) (p : Particle) :
  0 <= dtStep -> moving x v y p -> 6 <= w ->
  w - 3 < x + v * (1 - 0.3 * dtStep) * dtStep -> 3 <= y <= h - 3 ->
  moving (w - 3) (- (v * (1 - 0.3 * dtStep)) * 0.2) y (glide w h dtStep p).
Proof.
  intros Hdt Hp Hw Hx Hy.
  destruct (glide_before_walls dtStep x v y p Hdt Hp)
    as (Hpos & Hvel & Hm & Hr & Hte & Hst).
  unfold glide, calmMove.
  set (q := eulerStep dtStep (coolParticle dtStep (dragOnly p))) in *.
  unfold handleWalls. rewrite Hr, orElse_nonzero by lra. cbv zeta.
  rewrite (decide_False (P := (pos q).1 < 3)) by (rewrite Hpos; simpl; lra).
  rewrite (decide_True (P := (pos q).1 > w - 3)) by (rewrite Hpos; simpl; lra).
  cbn [pos vel setPos setVel fst snd].
  rewrite (decide_False (P := (pos q).2 < 3)) by (rewrite Hpos; simpl; lra).
  rewrite (decide_False (P := (pos q).2 > h - 3)) by (rewrite Hpos; simpl; lra).
  unfold moving. cbn [pos vel mass radius thermalEnergy state setPos setVel].
  rewrite Hpos, Hvel. cbn [fst snd]. repeat split; auto.
Qed.

Lemma moving_eq (x v y x' v' : R) (p : Particle) :
  x = x' -> v = v' -> moving x v y p -> moving x' v' y p.
Proof. now intros -> ->. Qed.

(** Bernoulli's bound on the decay of the velocity. *)
Lemma decay_bounds (n : nat) : 1 - 0.005 * INR n <= 0.995 ^ n <= 1 /\ 0 < 0.995 ^ n.
Proof.
  induction n as [|n (IH1 & IH2)].
  - simpl. lra.
  - rewrite S_INR. cbn [pow]. pose proof (pos_INR n). nra.
Qed.

(** The free flight of a particle launched at (10, 0) that stays clear of
    the walls, at [dt = 1/60]: the drag shrinks the velocity by 0.995 per
    step. *)
Lemma glide_free (w h x y : R) (p : Particle) (n : nat) :
  moving x 10 y p -> 3 <= x -> x + 10 <= w - 3 -> 3 <= y <= h - 3 ->
  (n <= 60)%nat ->
  moving (x + 199 / 6 * (1 - 0.995 ^ n)) (10 * 0.995 ^ n) y
    (Nat.iter n (glide w h (1 / 60 / 1)) p).
Proof.
  intros Hp Hx0 Hx1 Hy. induction n as [|n IH]; intros Hn.
  - simpl. eapply moving_eq; [| |exact Hp]; lra.
  - cbn [Nat.iter]. specialize (IH ltac:(lia)).
    destruct (decay_bounds n) as ((Hb1 & Hb2) & Hb3).
    assert (Hn60 : INR n <= 59).
    { replace 59 with (INR 59) by (simpl; lra). apply le_INR. lia. }
    cbn [pow].
    eapply moving_eq; [| |apply glide_moving; [|exact IH| |exact Hy]]; nra.
Qed.

Section FreeFlight.
Variable rs : RandomSource.
Variable clock : nat -> R.

(** The current revision has no periodic mode: [wrap] is empty and the
    walls reflect.  At [kT = 0] with gravity and heating off, the
    thermostat idle, a lone cold particle of radius 3 with velocity
    (10, 0) that starts at least 3 from the left wall and at least 13
    from the right one is, after 60 steps of 1/60, at its initial position
    plus [(d, 0)] with [d = 199/6 * (1 - 0.995^60)], between 8.61 and
    8.62: the drag of rate 0.3 slows it down to [10 * 0.995^60]. *)
Lemma lone_particle_glides_without_wrap (s : Sim) (x y : R) (w : World) :
  particles s = [mover x y] ->
  kT (params s) = 0 -> gravityOn s = false -> heatingOn s = false ->
  idle clock -> lastThermoMs s = 0 ->
  3 <= x -> x + 10 <= width s - 3 -> 3 <= y <= height s - 3 ->
  let d := 199 / 6 * (1 - 0.995 ^ 60) in
  exists p,
    particles (steps rs clock 60 (1 / 60) s w).1 = [p] /\
    pos p = (x + d, y) /\ vel p = (10 * 0.995 ^ 60, 0) /\
    8.61 < d < 8.62.
Proof.
  intros Hps HkT Hg Hh Hidle Hlast Hx0 Hx1 Hy d.
  assert (Hmov : moving x 10 y (mover x y)) by (unfold moving; auto 10).
  pose proof (steps_single rs clock 60 (1 / 60) s w (mover x y) Hps Hg Hh HkT)
    as Hrun.
  pose proof (glide_free (width s) (height s) x y (mover x y) 60 Hmov Hx0 Hx1 Hy
                (le_n 60)) as (Hpos & Hvel & _).
  exists (Nat.iter 60 (glide (width s) (height s) (1 / 60 / 1)) (mover x y)).
  split; [|split; [exact Hpos|split; [exact Hvel|]]].
  - apply Hrun;
      [lra | reflexivity | simpl; lra | unfold fits; simpl; lra
      | exact Hidle | left; exact Hlast].
  - unfold d. lra.
Qed.
End FreeFlight.

Lemma halves_idle : idle (fun _ : nat => 0).
Proof. intros i j. lra. Qed.

(** The theorem at a particle that starts at (100, 200) in the cold
    default simulation. *)
Lemma lone_particle_glides_without_wrap_witness :
  exists p,
    particles
      (steps halves (fun _ => 0) 60 (1 / 60) (coldSim [mover 100 200])
         (mkWorld 0 0)).1 = [p] /\
    pos p = (100 + 199 / 6 * (1 - 0.995 ^ 60), 200) /\
    vel p = (10 * 0.995 ^ 60, 0) /\
    8.61 < 199 / 6 * (1 - 0.995 ^ 60) < 8.62.
Proof.
  apply (lone_particle_glides_without_wrap halves (fun _ => 0)
           (coldSim [mover 100 200]) 100 200 (mkWorld 0 0));
    try reflexivity; try apply halves_idle; cbn [width height coldSim]; try lra.
Defined.

(** After the bounce the particle creeps back from the right wall at a
    speed of at most 2. *)
Lemma glide_after_bounce (p : Particle) (x v : R) (n : nat) :
  moving x v 200 p -> -2 <= v <= 0 -> x = 897 -> (n <= 59)%nat ->
  exists x' v',
    moving x' v' 200 (Nat.iter n (glide 900 420 (1 / 60 / 1)) p) /\
    -2 <= v' <= 0 /\ 897 - INR n / 30 <= x' <= 897.
Proof.
  intros Hp Hv Hx. induction n as [|n IH]; intros Hn.
  - exists x, v. split; [exact Hp|]. split; [exact Hv|]. simpl. lra.
  - destruct (IH ltac:(lia)) as (x' & v' & Hm & Hv' & Hx').
    assert (Hn59 : INR n <= 58).
    { replace 58 with (INR 58) by (simpl; lra). apply le_INR. lia. }
    exists (x' + v' * (1 - 0.3 * (1 / 60 / 1)) * (1 / 60 / 1)),
      (v' * (1 - 0.3 * (1 / 60 / 1))).
    cbn [Nat.iter]. rewrite S_INR. split; [|split; lra].
    apply glide_moving; auto; lra.
Qed.

Lemma wrapped_907 : wrapped 900 (897 + 10) = 7.
Proof.
  unfold wrapped. rewrite (Math_floor_eq ((897 + 10) / 900) 1) by lra. lra.
Qed.

(** In the current revision a lone cold particle with velocity (10, 0)
    that starts at (897, 200) on the 900 wide canvas would be at x = 7
    after one second if the domain wrapped around; the right wall reflects
    it and it ends 888 or more away from there, at x >= 895. *)
Lemma lone_particle_is_reflected_not_wrapped :
  exists p,
    particles
      (steps halves (fun _ => 0) 60 (1 / 60) (coldSim [mover 897 200])
         (mkWorld 0 0)).1 = [p] /\
    Rabs ((pos p).1 - wrapped 900 (897 + 10)) >= 888.
Proof.
  exists (Nat.iter 60 (glide 900 420 (1 / 60 / 1)) (mover 897 200)). split.
  - apply (steps_single halves (fun _ => 0) 60 (1 / 60)
             (coldSim [mover 897 200]) (mkWorld 0 0) (mover 897 200));
      try reflexivity; try apply halves_idle; auto; simpl; try lra.
    unfold fits. simpl. lra.
  - rewrite wrapped_907, Nat.iter_succ_r.
    assert (Hmov : moving 897 10 200 (mover 897 200)) by (unfold moving; auto 10).
    pose proof (glide_bounce 900 420 (1 / 60 / 1) 897 10 200 (mover 897 200))
      as Hb.
    destruct (glide_after_bounce (glide 900 420 (1 / 60 / 1) (mover 897 200))
                (900 - 3) (- (10 * (1 - 0.3 * (1 / 60 / 1))) * 0.2) 59)
      as (x' & v' & (Hpos & _) & _ & Hx'); try lra; auto.
    { apply Hb; auto; lra. }
    rewrite Hpos. cbn [fst].
    assert (INR 59 = 59) by (simpl; lra).
    rewrite Rabs_right; lra.
Qed.

(** ** Particles at rest that move all the same *)

(** A particle at rest is still at rest where it was when the walls are
    applied. *)
Lemma rest_before_walls (dtStep : R) (p : Particle) :
  vel p = (0, 0) ->
  let q := eulerStep dtStep (coolParticle dtStep (dragOnly p)) in
  pos q = pos p /\ vel q = (0, 0) /\ radius q = radius p.
Proof.
  intros Hvel. unfold eulerStep.
  cbn [pos vel radius setPos setVel].
  change (pos (coolParticle dtStep (dragOnly p))) with (pos p).
  change (vel (coolParticle dtStep (dragOnly p))) with (vel p).
  change (radius (coolParticle dtStep (dragOnly p))) with (radius p).
  change (acc (coolParticle dtStep (dragOnly p)))
    with (- 0.3 * (vel p).1, - 0.3 * (vel p).2).
  rewrite Hvel. cbn [fst snd]. repeat split.
  - destruct (pos p) as [x y]. cbn [fst snd]. f_equal; nra.
  - f_equal; nra.
Qed.

(** A particle left of the left wall is put on it. *)
Lemma handleWalls_left (w h : R) (p : Particle) :
  0 < radius p -> (pos p).1 < radius p -> 2 * radius p <= w ->
  radius p <= (pos p).2 <= h - radius p ->
  pos (handleWalls w h p) = (radius p, (pos p).2).
Proof.
  intros Hr Hx Hw Hy. unfold handleWalls. rewrite orElse_nonzero by lra.
  cbv zeta.
  rewrite (decide_True (P := (pos p).1 < radius p)) by lra.
  cbn [pos setPos setVel fst snd].
  rewrite (decide_False (P := radius p > w - radius p)) by lra.
  cbn [pos setPos setVel fst snd].
  rewrite (decide_False (P := (pos p).2 < radius p)) by lra.
  rewrite (decide_False (P := (pos p).2 > h - radius p)) by lra.
  reflexivity.
Qed.

(** Two particles at rest at [kT = 0] with gravity and heating off, 199
    apart (the largest cutoff is 25): the one at (1, 100), closer to the
    left wall than its radius 3, is at (3, 100) after one step. *)
Lemma pair_at_rest_is_clamped_to_wall :
  let a := restingAt 1 100 in
  let b := restingAt 200 100 in
  let s := coldSim [a; b] in
  (vel a = (0, 0) /\ vel b = (0, 0) /\ beyondCutoffs (params s) a b) /\
  exists a' b',
    particles (steps halves (fun _ => 0) 1 (1 / 60) s (mkWorld 0 0)).1
      = [a'; b'] /\
    pos a' = (3, 100) /\ pos a' <> pos a.
Proof.
  intros a b s.
  assert (Hsep : separation a b = 199).
  { rewrite separation_axis; simpl; lra. }
  split.
  { repeat split; try reflexivity; rewrite Hsep; simpl; lra. }
  set (dt := 1 / 60 / 1).
  set (qa := eulerStep dt (coolParticle dt (dragOnly a))).
  set (qb := eulerStep dt (coolParticle dt (dragOnly b))).
  destruct (rest_before_walls dt a eq_refl) as (Hqa & _ & Hra).
  destruct (rest_before_walls dt b eq_refl) as (Hqb & _ & Hrb).
  fold qa in Hqa, Hra. fold qb in Hqb, Hrb.
  assert (Ha' : pos (handleWalls 900 420 qa) = (3, 100)).
  { rewrite handleWalls_left; rewrite ?Hqa, ?Hra; simpl; try lra. reflexivity. }
  assert (Hb' : handleWalls 900 420 qb = qb).
  { apply handleWalls_inside_id; unfold insideWalls; rewrite ?Hqb, ?Hrb;
      simpl; lra. }
  assert (Hfita : fits 900 420 qa) by (unfold fits; rewrite Hra; simpl; lra).
  assert (Hfitb : fits 900 420 qb) by (unfold fits; rewrite Hrb; simpl; lra).
  assert (Hsep' : separation (handleWalls 900 420 qa) (handleWalls 900 420 qb)
                  = 197).
  { rewrite separation_axis; rewrite Hb', Ha', Hqb; simpl; lra. }
  destruct (substep_calm halves (fun _ => 0) dt s (mkWorld 0 0))
    as (_ & Hps & _); try reflexivity.
  - unfold dt. lra.
  - apply pairwise_two; [|apply beyondCutoffs_sym];
      unfold beyondCutoffs; rewrite Hsep; simpl; lra.
  - repeat constructor; simpl; lra.
  - simpl. rewrite decide_True by reflexivity.
    rewrite bool_decide_eq_false_2 by lra.
    apply pairwise_two; [|apply noContact_sym]; unfold noContact;
      unfold calmMove; fold dt qa qb; rewrite Hsep';
      destruct (handleWalls_thermal 900 420 qa) as (_ & _ & -> & _);
      destruct (handleWalls_thermal 900 420 qb) as (_ & _ & -> & _);
      rewrite Hra, Hrb; simpl; lra.
  - simpl. rewrite decide_True by reflexivity.
    rewrite bool_decide_eq_false_2 by lra.
    unfold calmMove, afterForces. cbn [map]. fold dt qa qb.
    destruct (handleWalls_thermal 900 420 qa) as (_ & _ & Hra' & _).
    destruct (handleWalls_thermal 900 420 qb) as (_ & _ & Hrb' & _).
    constructor; [|constructor; [|constructor]];
      (split; [|now apply handleWalls_inside]).
    + rewrite Hra', Hra. simpl. lra.
    + rewrite Hrb', Hrb. simpl. lra.
  - simpl in Hps. rewrite decide_True in Hps by reflexivity.
    rewrite bool_decide_eq_false_2 in Hps by lra.
    cbn [afterForces map] in Hps. unfold calmMove in Hps. fold dt qa qb in Hps.
    cbn [steps]. unfold bind. rewrite step_ungravitated by reflexivity.
    fold dt. fold s.
    destruct (substep halves (fun _ => 0) dt s (mkWorld 0 0)) as [s1 w1].
    simpl in Hps. cbn [ret fst]. rewrite Hps.
    exists (classify (params s) (height s) 0 (handleWalls 900 420 qa)),
      (classify (params s) (height s) 0 (handleWalls 900 420 qb)).
    split; [reflexivity|].
    destruct (classify_keeps (params s) (height s) 0
                (handleWalls 900 420 qa)) as (-> & _).
    rewrite Ha'. split; [reflexivity|].
    simpl. intros E. injection E as E. lra.
Qed.

Section Warm.
Variable rs : RandomSource.
Variable clock : nat -> R.
Variable c : R.
Hypothesis rs_constant : forall k, draw rs k = c.

Lemma integrate_constant (w h dtStep : R) (p : Particle) (wd : World) :
  (integrate rs w h dtStep (coolParticle dtStep p) wd).1
    = jitterMove c w h dtStep p /\
  clockPos (integrate rs w h dtStep (coolParticle dtStep p) wd).2 = clockPos wd.
Proof.
  unfold integrate, jitterMove.
  set (q := eulerStep dtStep (coolParticle dtStep p)).
  rewrite orElse_zero.
  destruct (decide (thermalEnergy q > 0.1)); [|split; reflexivity].
  unfold bind, Math_random, ret. cbn [fst snd clockPos rngPos].
  rewrite !rs_constant. split; reflexivity.
Qed.

(** The motion part of a pass with gravity and heating off, at [kT = 0],
    on particles beyond each other's cutoffs, under a constant generator,
    when the particles it moves end up inside the walls without
    touching. *)
Lemma advance_steady (dtStep : R) (s : Sim) (w : World) :
  gravityOn s = false -> heatingOn s = false -> kT (params s) = 0 ->
  pairwise (beyondCutoffs (params s)) (particles s) ->
  let nowT := clock (clockPos w) in
  let last := if decide (lastThermoMs s = 0) then nowT else lastThermoMs s in
  let fires := bool_decide (nowT - last > 500) in
  let moved :=
    map (jitterMove c (width s) (height s) dtStep)
      (afterForces fires (particles s)) in
  pairwise noContact moved ->
  Forall (fun p => 0 < radius p /\ insideWalls (width s) (height s) p) moved ->
  let s' := (advance rs clock dtStep s w).1 in
  sameSetup s s' /\ particles s' = moved /\
  lastThermoMs s' = (if fires then nowT else last) /\
  clockPos (advance rs clock dtStep s w).2 = S (clockPos w).
Proof.
  intros Hg Hh HkT Hfar nowT last fires moved Hcontact Hin.
  destruct (advance_unheated rs clock dtStep s w Hg Hh HkT Hfar)
    as (s1 & w1 & Hsetup & Hclk & Hlast & E).
  fold nowT last fires in Hlast, E.
  assert (Hint : forall l w0,
             (forEach (integrate rs (width s) (height s) dtStep)
                (map (coolParticle dtStep) l) w0).1
             = map (jitterMove c (width s) (height s) dtStep) l /\
             clockPos (forEach (integrate rs (width s) (height s) dtStep)
                         (map (coolParticle dtStep) l) w0).2 = clockPos w0).
  { induction l as [|p l IH]; intros w0; [split; reflexivity|].
    cbn [map forEach]. unfold bind.
    destruct (integrate_constant (width s) (height s) dtStep p w0) as [E1 E2].
    destruct (integrate rs (width s) (height s) dtStep (coolParticle dtStep p) w0)
      as [y w2].
    destruct (IH w2) as [E3 E4].
    destruct (forEach _ (map (coolParticle dtStep) l) w2) as [l' w3].
    simpl in *. subst. split; [reflexivity|congruence]. }
  destruct (Hint (afterForces fires (particles s)) w1) as [Hps5 Hclk5].
  destruct (forEach _ _ w1) as [ps5 w5]. simpl in Hps5, Hclk5. subst ps5.
  fold moved in E.
  cbn zeta. rewrite E. cbn [fst snd].
  destruct Hsetup as (Hw1 & Hh1 & Hp1 & Hg1 & Hheat1 & Ha1).
  destruct (collisionIterations_frame 5 (setParticles s1 moved)) as [Hs5 Hp5].
  split; [|split; [|split]].
  - eapply sameSetup_trans; [|exact Hs5].
    unfold sameSetup. cbn. auto 10.
  - rewrite collisionIterations_fixed; cbn [setParticles particles width height];
      rewrite ?Hw1, ?Hh1; auto.
  - rewrite lastThermo_iter. exact Hlast.
  - congruence.
Qed.

(** One call of [step] in that regime. *)
Lemma step_steady (dt : R) (s : Sim) (w : World) :
  gravityOn s = false -> heatingOn s = false -> kT (params s) = 0 ->
  pairwise (beyondCutoffs (params s)) (particles s) ->
  let nowT := clock (clockPos w) in
  let last := if decide (lastThermoMs s = 0) then nowT else lastThermoMs s in
  let fires := bool_decide (nowT - last > 500) in
  let moved :=
    map (jitterMove c (width s) (height s) (dt / 1))
      (afterForces fires (particles s)) in
  pairwise noContact moved ->
  Forall (fun p => 0 < radius p /\ insideWalls (width s) (height s) p) moved ->
  let s' := (step rs clock dt s w).1 in
  sameSetup s s' /\
  particles s'
    = map (classify (params s) (height s) (clock (S (clockPos w)))) moved /\
  lastThermoMs s' = (if fires then nowT else last) /\
  clockPos (step rs clock dt s w).2 = S (S (clockPos w)).
Proof.
  intros Hg Hh HkT Hfar nowT last fires moved Hc Hin.
  destruct (advance_steady (dt / 1) s w Hg Hh HkT Hfar Hc Hin)
    as (Hsetup & Hps & Hlast & Hclk).
  fold nowT last fires moved in Hps, Hlast.
  cbn zeta. rewrite step_ungravitated by assumption. unfold substep, bind.
  destruct (advance rs clock (dt / 1) s w) as [s1 w1].
  simpl in Hsetup, Hps, Hlast, Hclk.
  unfold updateStates, bind, performance_now, ret. cbn [fst snd clockPos].
  destruct Hsetup as (Hw1 & Hh1 & Hp1 & Hg1 & Hheat1 & Ha1).
  rewrite Hclk, Hps, Hp1, Hh1.
  split; [unfold sameSetup; cbn; auto 10|].
  split; [reflexivity|]. split; [exact Hlast|reflexivity].
Qed.
End Warm.

Lemma separation_ge_dx (p q : Particle) :
  (pos q).1 - (pos p).1 <= separation p q.
Proof.
  unfold separation.
  pose proof (Math_hypot_ge_l ((pos q).1 - (pos p).1) ((pos q).2 - (pos p).2)).
  pose proof (Rle_abs ((pos q).1 - (pos p).1)). lra.
Qed.

(** The classifier leaves a liquid particle alone for 150 ms after its
    last phase change. *)
Lemma classify_young (P : Params) (h nowS : R) (p : Particle) :
  state p = liquid -> nowS - lastStateChange p < 150 ->
  classify P h nowS p = p.
Proof.
  intros Hs Ht. unfold classify. rewrite Hs, !orElse_zero. cbv zeta.
  rewrite decide_True; [reflexivity|].
  destruct (bool_decide _); lra.
Qed.

Lemma jitterMove_calm (c w h dtStep : R) (p : Particle) :
  0 <= dtStep -> thermalEnergy p <= 0.1 ->
  jitterMove c w h dtStep p = calmMove w h dtStep p.
Proof.
  intros Hdt Hte. unfold jitterMove, calmMove. cbv zeta.
  change (thermalEnergy (eulerStep dtStep (coolParticle dtStep p)))
    with (thermalEnergy (coolParticle dtStep p)).
  pose proof (coolParticle_thermal dtStep p Hdt Hte).
  now rewrite decide_False by lra.
Qed.

(** One pass on a warm particle in the interior: drag, cooling, Euler
    update, then the jitter with both draws equal to [c]. *)
Lemma jitterMove_warm (c w h dtStep x y v t : R) (p : Particle) :
  warmBody x y v t p ->
  let t' := t - 0.02 * dtStep in
  let v' := v + (- 0.3 * v / 1) * dtStep in
  0.1 < t' ->
  3 <= x + v' * dtStep <= w - 3 -> 3 <= y + v' * dtStep <= h - 3 ->
  warmBody (x + v' * dtStep) (y + v' * dtStep) (v' + (c - 0.5) * (t' * 8)) t'
    (jitterMove c w h dtStep (dragOnly p)).
Proof.
  intros (Hpos & Hvel & Hte & Hm & Hr & Hs & Hl) t' v' Ht' Hx Hy.
  unfold jitterMove.
  set (q := eulerStep dtStep (coolParticle dtStep (dragOnly p))).
  assert (Hq : warmBody (x + v' * dtStep) (y + v' * dtStep) v' t' q).
  { subst q. unfold warmBody, eulerStep.
    cbn [pos vel radius mass state lastStateChange thermalEnergy setPos setVel].
    change (vel (coolParticle dtStep (dragOnly p))) with (vel p).
    change (pos (coolParticle dtStep (dragOnly p))) with (pos p).
    change (radius (coolParticle dtStep (dragOnly p))) with (radius p).
    change (mass (coolParticle dtStep (dragOnly p))) with (mass p).
    change (state (coolParticle dtStep (dragOnly p))) with (state p).
    change (lastStateChange (coolParticle dtStep (dragOnly p)))
      with (lastStateChange p).
    change (acc (coolParticle dtStep (dragOnly p)))
      with (- 0.3 * (vel p).1, - 0.3 * (vel p).2).
    change (thermalEnergy (coolParticle dtStep (dragOnly p)))
      with (Rmax 0 (orElse (thermalEnergy p) 0 - 0.02 * dtStep)).
    rewrite Hpos, Hvel, Hm, Hte, orElse_zero. cbn [fst snd].
    repeat split; auto.
    unfold Rmax. destruct (Rle_dec _ _); subst t'; lra. }
  destruct Hq as (Hqp & Hqv & Hqt & Hqm & Hqr & Hqs & Hql).
  cbv zeta. rewrite decide_True by lra.
  rewrite handleWalls_inside_id.
  - unfold warmBody.
    cbn [pos vel radius mass state lastStateChange thermalEnergy setVel].
    rewrite Hqv, Hqt. cbn [fst snd]. repeat split; auto.
  - cbn [radius setVel]. rewrite Hqr. lra.
  - unfold insideWalls. cbn [pos radius setVel]. rewrite Hqp, Hqr.
    cbn [fst snd]. lra.
Qed.

(** One call of [step(1/60)] of the cold simulation on a warm particle
    near (100, 100) and a particle at rest at (300, 100), when the random
    numbers are all 3/4 and the clock stands at 0. *)
Lemma warm_pair_step (s : Sim) (a b : Particle) (w : World) (x y v t : R) :
  sameSetup (coldSim []) s -> lastThermoMs s = 0 -> particles s = [a; b] ->
  warmBody x y v t a -> still (restingAt 300 100) b ->
  100 <= x <= 101 -> 100 <= y <= 101 -> 0 <= v <= 2 -> 0.4 <= t <= 0.5 ->
  let s' := (step threeQuarters (fun _ => 0) (1 / 60) s w).1 in
  let t' := t - 0.02 * (1 / 60 / 1) in
  let v' := v + (- 0.3 * v / 1) * (1 / 60 / 1) in
  exists a' b',
    particles s' = [a'; b'] /\ sameSetup (coldSim []) s' /\
    lastThermoMs s' = 0 /\
    warmBody (x + v' * (1 / 60 / 1)) (y + v' * (1 / 60 / 1))
      (v' + (3 / 4 - 0.5) * (t' * 8)) t' a' /\
    still (restingAt 300 100) b'.
Proof.
  intros (Hw & Hh & Hp & Hg & Hheat & Hacc) Hlast Hps Ha Hb Hx Hy Hv Ht s' t' v'.
  simpl in Hw, Hh, Hp, Hg, Hheat, Hacc. subst s'.
  set (dt := 1 / 60 / 1) in *.
  set (a1 := jitterMove (3 / 4) 900 420 dt (dragOnly a)).
  set (b1 := jitterMove (3 / 4) 900 420 dt (dragOnly b)).
  assert (Ha1 : warmBody (x + v' * dt) (y + v' * dt)
                  (v' + (3 / 4 - 0.5) * (t' * 8)) t' a1).
  { apply jitterMove_warm; auto; fold dt t' v'; subst t' v' dt; nra. }
  assert (Hb1 : still (restingAt 300 100) b1 /\ 0 < radius b1 /\
                insideWalls 900 420 b1).
  { unfold b1. rewrite jitterMove_calm.
    - apply calmMove_still; auto.
      + unfold dt; lra.
      + simpl; lra.
      + unfold insideWalls; simpl; lra.
      + destruct Hb as (_ & Hvb & _). unfold dragOnly. simpl. rewrite Hvb.
        simpl. f_equal; lra.
    - unfold dt; lra.
    - destruct Hb as (_ & _ & _ & Hte). exact Hte. }
  destruct Hb1 as (Hb1 & Hrb1 & Hinb1).
  assert (Hfar : pairwise (beyondCutoffs (params s)) (particles s)).
  { rewrite Hps, Hp.
    assert (199 <= separation a b).
    { pose proof (separation_ge_dx a b) as Hd.
      destruct Ha as (Hpa & _). destruct Hb as (Hpb & _).
      rewrite Hpa, Hpb in Hd. simpl in Hd. lra. }
    apply pairwise_two; [|apply beyondCutoffs_sym]; unfold beyondCutoffs;
      simpl; lra. }
  assert (Hmoved : map (jitterMove (3 / 4) (width s) (height s) dt)
                     (afterForces
                        (bool_decide
                           ((fun _ : nat => 0) (clockPos w)
                            - (if decide (lastThermoMs s = 0)
                               then (fun _ : nat => 0) (clockPos w)
                               else lastThermoMs s) > 500))
                        (particles s)) = [a1; b1]).
  { rewrite Hlast, decide_True by reflexivity.
    rewrite bool_decide_eq_false_2 by lra.
    rewrite Hps, Hw, Hh. reflexivity. }
  assert (HkT : kT (params s) = 0) by now rewrite Hp.
  destruct (step_steady threeQuarters (fun _ => 0) (3 / 4) (fun _ => eq_refl)
              (1 / 60) s w Hg Hheat HkT Hfar)
    as ((Hw' & Hh' & Hp' & Hg' & Hheat' & Hacc') & Hps' & Hlast' & _).
  - fold dt. rewrite Hmoved.
    assert (198 <= separation a1 b1).
    { pose proof (separation_ge_dx a1 b1) as Hd.
      destruct Ha1 as (Hpa & _). destruct Hb1 as (Hpb & _).
      rewrite Hpa, Hpb in Hd. simpl in Hd. subst v' dt. nra. }
    destruct Ha1 as (_ & _ & _ & _ & Hra1 & _).
    destruct Hb1 as (_ & _ & Hrb & _). simpl in Hrb.
    apply pairwise_two; [|apply noContact_sym]; unfold noContact;
      rewrite Hra1, Hrb; lra.
  - fold dt. rewrite Hmoved, Hw, Hh.
    constructor; [|constructor; [|constructor]].
    + destruct Ha1 as (Hpa1 & _ & _ & _ & Hra1 & _).
      unfold insideWalls. rewrite Hpa1, Hra1. simpl. subst v' dt. nra.
    + auto.
  - fold dt in Hps'. rewrite Hmoved in Hps'.
    exists (classify (params s) (height s) 0 a1),
      (classify (params s) (height s) 0 b1).
    split; [exact Hps'|].
    split.
    { unfold sameSetup.
      cbn [coldSim width height params gravityOn heatingOn heatAccel].
      rewrite Hw', Hh', Hp', Hg', Hheat', Hacc'. auto 10. }
    split.
    { rewrite Hlast'. rewrite Hlast, decide_True by reflexivity.
      now rewrite bool_decide_eq_false_2 by lra. }
    split.
    + rewrite classify_young; [exact Ha1| |].
      * now destruct Ha1 as (_ & _ & _ & _ & _ & Hs & _).
      * destruct Ha1 as (_ & _ & _ & _ & _ & _ & ->). lra.
    + now apply classify_still.
Qed.

(** C7 as stated fails for a warm particle.  At [kT = 0] with gravity and
    heating off, two particles at rest 200 apart (the largest cutoff is
    25), inside the walls, the first with thermal energy 0.5: when
    [Math.random()] returns 3/4 the jitter of a warm particle gives it a
    velocity in the first step, and it has moved after the second. *)
Lemma warm_pair_at_rest_drifts :
  let a := warmAt 100 100 in
  let b := restingAt 300 100 in
  let s := coldSim [a; b] in
  (vel a = (0, 0) /\ vel b = (0, 0) /\ beyondCutoffs (params s) a b /\
   insideWalls 900 420 a /\ insideWalls 900 420 b) /\
  exists a' b',
    particles (steps threeQuarters (fun _ => 0) 2 (1 / 60) s (mkWorld 0 0)).1
      = [a'; b'] /\
    100.016 < (pos a').1 < 100.017 /\ pos a' <> pos a.
Proof.
  intros a b s.
  assert (Hsep : separation a b = 200).
  { rewrite separation_axis; simpl; lra. }
  split.
  { unfold insideWalls. repeat split; try reflexivity; try (simpl; lra);
      rewrite Hsep; simpl; lra. }
  cbn [steps]. unfold bind.
  destruct (warm_pair_step s a b (mkWorld 0 0) 100 100 0 0.5)
    as (a1 & b1 & Hps1 & Hsetup1 & Hlast1 & Ha1 & Hb1);
    try reflexivity; try lra.
  { unfold sameSetup. simpl. auto 10. }
  { unfold warmBody. simpl. auto 10. }
  { unfold still. simpl. repeat split; auto; lra. }
  destruct (step threeQuarters (fun _ => 0) (1 / 60) s (mkWorld 0 0))
    as [s1 w1]. simpl in Hps1, Hsetup1, Hlast1.
  destruct (warm_pair_step s1 a1 b1 w1 _ _ _ _ Hsetup1 Hlast1 Hps1 Ha1 Hb1)
    as (a2 & b2 & Hps2 & _ & _ & Ha2 & _); try lra.
  destruct (step threeQuarters (fun _ => 0) (1 / 60) s1 w1) as [s2 w2].
  simpl in Hps2. cbn [ret fst].
  exists a2, b2. split; [exact Hps2|].
  destruct Ha2 as (Hpos2 & _).
  assert (Hx : 100.016 < (pos a2).1 < 100.017) by (rewrite Hpos2; simpl; lra).
  split; [exact Hx|].
  intros E. rewrite E in Hx. simpl in Hx. lra.
Qed.

(** ** Neighbour grid: buckets and queries *)

Section GridQueries.
Import NeighborGrid.

Lemma NoDup_flat_map {A B} (f : A -> list B) (l : list A) :
  (forall x1 x2 y, x1 ∈ l -> x2 ∈ l -> y ∈ f x1 -> y ∈ f x2 -> x1 = x2) ->
  (forall x, x ∈ l -> NoDup (f x)) -> NoDup l -> NoDup (flat_map f l).
Proof.
  assert (E : flat_map f l = l ≫= f).
  { induction l as [|a l IH]; [reflexivity|].
    change ((a :: l) ≫= f) with (f a ++ (l ≫= f)). simpl. now rewrite IH. }
  rewrite E. apply NoDup_bind.
Qed.

Lemma elem_of_flat_map {A B} (f : A -> list B) (l : list A) (y : B) :
  y ∈ flat_map f l <-> exists x, x ∈ l /\ y ∈ f x.
Proof.
  rewrite list_elem_of_In, in_flat_map. split; intros (x & Hx & Hy); exists x;
    split; try (now apply list_elem_of_In).
Qed.

(** What a run of insertions adds to a bucket. *)
Lemma insertFrom_bucket_iff (ps : list Particle) (i : nat) (g : NeighborGrid.t)
    (id : nat) (idx : Z) :
  id ∈ bucket (insertFrom i ps g) idx <->
  id ∈ bucket g idx \/
  exists k p, ps !! k = Some p /\ id = (i + k)%nat /\
              idx = cellIndex g (pos p).1 (pos p).2.
Proof.
  revert i g. induction ps as [|q ps IH]; intros i g; cbn [insertFrom].
  - split; [auto|]. intros [H|(k & p & H & _)]; [exact H|]. now destruct k.
  - rewrite IH, bucket_insert. split.
    + intros [H|(k & p & Hk & -> & Hidx)].
      * case_decide as Hc.
        -- apply elem_of_app in H as [H|H]; [now left|].
           apply list_elem_of_singleton in H. right. exists 0%nat, q.
           split; [reflexivity|]. split; [lia|exact Hc].
        -- now left.
      * right. exists (S k), p. split; [exact Hk|]. split; [lia|].
        rewrite Hidx. apply cellIndex_geometry; apply insert_geometry.
    + intros [H|(k & p & Hk & -> & Hidx)].
      * left. case_decide; [apply elem_of_app|]; auto.
      * destruct k as [|k].
        -- injection Hk as ->. left. rewrite decide_True by exact Hidx.
           apply elem_of_app. right. apply list_elem_of_singleton. lia.
        -- right. exists k, p. split; [exact Hk|]. split; [lia|].
           rewrite Hidx. symmetry. apply cellIndex_geometry; apply insert_geometry.
Qed.

Lemma insertFrom_NoDup (ps : list Particle) (i : nat) (g : NeighborGrid.t)
    (idx : Z) :
  NoDup (bucket g idx) -> (forall id, id ∈ bucket g idx -> (id < i)%nat) ->
  NoDup (bucket (insertFrom i ps g) idx).
Proof.
  revert i g. induction ps as [|q ps IH]; intros i g Hnd Hlt; cbn [insertFrom];
    [exact Hnd|].
  apply IH.
  - rewrite bucket_insert. case_decide as Hc; [|exact Hnd].
    apply NoDup_app. split; [exact Hnd|]. split; [|apply NoDup_singleton].
    intros id Hid Hin. apply list_elem_of_singleton in Hin. subst.
    specialize (Hlt _ Hid). lia.
  - intros id. rewrite bucket_insert. case_decide as Hc.
    + intros [Hin|Hin]%elem_of_app; [specialize (Hlt _ Hin); lia|].
      apply list_elem_of_singleton in Hin. lia.
    + intros Hin. specialize (Hlt _ Hin). lia.
Qed.

Lemma bucket_clear (g : NeighborGrid.t) (idx : Z) : bucket (clear g) idx = [].
Proof. unfold bucket, clear. simpl. now rewrite lookup_empty. Qed.

Lemma rebuildGrid_bucket_iff (g : NeighborGrid.t) (ps : list Particle)
    (idx : Z) (id : nat) :
  id ∈ bucket (rebuildGrid g ps) idx <->
  exists p, ps !! id = Some p /\ idx = cellIndex g (pos p).1 (pos p).2.
Proof.
  unfold rebuildGrid. rewrite insertFrom_bucket_iff, bucket_clear. split.
  - intros [H|(k & p & Hk & -> & Hidx)]; [inversion H|].
    exists p. split; [exact Hk|]. rewrite Hidx.
    now apply cellIndex_geometry.
  - intros (p & Hp & Hidx). right. exists id, p. split; [exact Hp|].
    split; [reflexivity|]. rewrite Hidx. symmetry.
    now apply cellIndex_geometry.
Qed.

Lemma rebuildGrid_bucket_NoDup (g : NeighborGrid.t) (ps : list Particle)
    (idx : Z) :
  NoDup (bucket (rebuildGrid g ps) idx).
Proof.
  apply insertFrom_NoDup; rewrite bucket_clear; [constructor|].
  intros id H. inversion H.
Qed.

(** X1.  After the grid is rebuilt, particle [id] is in the bucket of cell
    [idx] exactly when it exists and [cellIndex] sends its position to
    [idx]; no bucket holds a particle twice, and nothing of what the
    grid held before survives. *)
Theorem rebuildGrid_buckets (g : NeighborGrid.t) (ps : list Particle)
    (idx : Z) :
  (forall id,
     id ∈ bucket (rebuildGrid g ps) idx <->
     exists p, ps !! id = Some p /\ idx = cellIndex g (pos p).1 (pos p).2) /\
  NoDup (bucket (rebuildGrid g ps) idx).
Proof.
  split; [intros id; apply rebuildGrid_bucket_iff|].
  apply rebuildGrid_bucket_NoDup.
Qed.

Ltac swept_cell H :=
  match type of H with
  | context [decide ?P] => destruct (decide P); [now apply elem_of_nil in H|]
  end.

(** X2.  A neighbour query on a rebuilt grid hands every particle to the
    callback at most once, whatever the query point and radius. *)
Theorem forNeighbors_visits_once (g : NeighborGrid.t) (ps : list Particle)
    (x y r : R) :
  NoDup (forNeighbors (rebuildGrid g ps) x y r).
Proof.
  set (g' := rebuildGrid g ps).
  assert (Hcell : forall id cx cy cx' cy',
             (0 <= cx < cols g')%Z -> (0 <= cx' < cols g')%Z ->
             id ∈ bucket g' (cy * cols g' + cx) ->
             id ∈ bucket g' (cy' * cols g' + cx') -> cx = cx' /\ cy = cy').
  { intros id cx cy cx' cy' Hcx Hcx' H1 H2.
    apply rebuildGrid_bucket_iff in H1 as (p & Hp & E1).
    apply rebuildGrid_bucket_iff in H2 as (p' & Hp' & E2).
    rewrite Hp in Hp'. injection Hp' as <-.
    assert (E : (cy * cols g' + cx = cy' * cols g' + cx')%Z) by congruence.
    assert (cy = cy')
      by (destruct (Z.lt_trichotomy cy cy') as [?|[?|?]];
          [exfalso; nia|assumption|exfalso; nia]).
    subst cy'. split; [lia|reflexivity]. }
  assert (Hnd : forall idx, NoDup (bucket g' idx))
    by (intros idx; apply rebuildGrid_bucket_NoDup).
  clearbody g'.
  unfold forNeighbors. apply NoDup_flat_map; [| |apply NoDup_seqZ].
  - intros cy cy' id _ _ H1 H2. unfold rowVisits in H1, H2.
    apply elem_of_flat_map in H1 as (cx & _ & H1).
    apply elem_of_flat_map in H2 as (cx' & _ & H2).
    swept_cell H1. swept_cell H2.
    destruct (Hcell id cx cy cx' cy') as [_ E]; auto; lia.
  - intros cy _. unfold rowVisits. apply NoDup_flat_map; [| |apply NoDup_seqZ].
    + intros cx cx' id _ _ H1 H2.
      swept_cell H1. swept_cell H2.
      destruct (Hcell id cx cy cx' cy) as [E _]; auto; lia.
    + intros cx _. case_decide; [constructor|]. apply Hnd.
Qed.

(** X3.  [cellIndex] stays inside the cells array for every position,
    also one outside the canvas: it is at least 0 and less than
    [cols * rows]. *)
Theorem cellIndex_in_range (g : NeighborGrid.t) (x y : R) :
  (1 <= cols g)%Z -> (1 <= rows g)%Z ->
  (0 <= cellIndex g x y < cols g * rows g)%Z.
Proof. intros Hc Hr. unfold cellIndex. nia. Qed.

Lemma cellIndex_in_range_witness :
  let g := NeighborGrid.new 900 420 24 in
  (0 <= cellIndex g (-50) 1000 < cols g * rows g)%Z.
Proof.
  intros g. apply (cellIndex_in_range g (-50) 1000);
    unfold g, NeighborGrid.new; cbn [cols rows]; lia.
Defined.

(** X4.  The constructor never makes an empty grid: the cell size is at
    least 8, there is at least one column and one row, whatever the sizes
    passed; and when the canvas is at least one cell wide the columns
    cover it up to a strip narrower than one cell (likewise for the
    rows). *)
Theorem new_geometry (w h c : R) :
  let g := NeighborGrid.new w h c in
  8 <= cellSize g /\ c <= cellSize g /\
  (1 <= cols g)%Z /\ (1 <= rows g)%Z /\ cells g = ∅ /\
  (cellSize g <= w ->
   IZR (cols g) * cellSize g <= w < (IZR (cols g) + 1) * cellSize g) /\
  (cellSize g <= h ->
   IZR (rows g) * cellSize g <= h < (IZR (rows g) + 1) * cellSize g).
Proof.
  cbv zeta. unfold NeighborGrid.new. cbn [cellSize cols rows cells].
  set (cs := Rmax 8 c).
  assert (Hcs : 8 <= cs /\ c <= cs)
    by (unfold cs, Rmax; destruct (Rle_dec 8 c); lra).
  assert (Hfl : forall v, cs <= v ->
            IZR (Z.max 1 (Math_floor (v / cs))) * cs <= v
            < (IZR (Z.max 1 (Math_floor (v / cs))) + 1) * cs).
  { intros v Hv. pose proof (Math_floor_bounds (v / cs)) as [H1 H2].
    assert (Hq : v / cs * cs = v) by (field; lra).
    assert (1 <= v / cs).
    { apply (Rmult_le_reg_r cs); [lra|]. rewrite Hq. lra. }
    assert (0 < Math_floor (v / cs))%Z by (apply lt_IZR; lra).
    rewrite Z.max_r by lia. nra. }
  destruct Hcs as [Hcs8 Hcsc].
  split; [exact Hcs8|]. split; [exact Hcsc|]. split; [lia|]. split; [lia|].
  split; [reflexivity|]. split; intros Hv; apply Hfl; exact Hv.
Qed.

End GridQueries.

(** ** Vectors, force terms and scenario coefficients *)

Lemma vLen_vMul (a : Vec) (k : R) : vLen (vMul a k) = Rabs k * vLen a.
Proof.
  destruct a as [x y]. unfold vLen, vMul, Math_hypot. cbn [fst snd].
  replace (x * k * (x * k) + y * k * (y * k)) with (k² * (x * x + y * y))
    by (unfold Rsqr; ring).
  rewrite sqrt_mult by (try apply Rle_0_sqr; nra).
  now rewrite sqrt_Rsqr_abs.
Qed.

Lemma vLen_vNorm (a : Vec) :
  vLen (vNorm a) = if decide (vLen a > 1e-12) then 1 else 0.
Proof.
  unfold vNorm. cbv zeta. destruct (decide (vLen a > 1e-12)) as [Hl|Hl].
  - destruct a as [x y]. unfold vLen in *. cbn [fst snd] in *.
    destruct (unit_normal x y) as (Hu & _); [lra|].
    unfold Math_hypot at 1. rewrite Hu. apply sqrt_1.
  - unfold vLen, Math_hypot. cbn [fst snd].
    replace (0 * 0 + 0 * 0) with 0 by ring. apply sqrt_0.
Qed.

(** X5.  [vNorm] returns a unit vector along its argument, or the zero
    vector when the argument is no longer than 1e-12. *)
Theorem vNorm_unit_or_zero (a : Vec) :
  (vLen a > 1e-12 -> vLen (vNorm a) = 1 /\ vMul (vNorm a) (vLen a) = a) /\
  (vLen a <= 1e-12 -> vNorm a = (0, 0)).
Proof.
  split.
  - intros Hl. split.
    + now rewrite vLen_vNorm, decide_True.
    + unfold vNorm. cbv zeta. rewrite decide_True by exact Hl.
      destruct a as [x y]. unfold vMul. cbn [fst snd].
      f_equal; field; lra.
  - intros Hl. unfold vNorm. cbv zeta. now rewrite decide_False by lra.
Qed.

Lemma vLen_scaled_normal (a : Vec) (k : R) :
  vLen (vMul (vNorm a) k) <= Rabs k.
Proof.
  rewrite vLen_vMul, vLen_vNorm. pose proof (Rabs_pos k).
  case_decide; nra.
Qed.

(** X6.  The soft clip caps the Lennard-Jones term at 60 and the
    hydrogen-bond term never exceeds [hbStrength], at any displacement. *)
Theorem force_terms_capped (P : Params) (rVec : Vec) :
  vLen (ljForce P rVec) <= 60 /\
  vLen (hbForce P rVec) <= Rmax 0 (hbStrength P).
Proof.
  assert (Hzero : vLen (0, 0) = 0).
  { unfold vLen, Math_hypot. cbn [fst snd].
    replace (0 * 0 + 0 * 0) with 0 by ring. apply sqrt_0. }
  split.
  - unfold ljForce. cbv zeta.
    match goal with
    | |- vLen (vMul _ (- clamp ?m _ _)) <= _ =>
        pose proof (clamp_bounds m (-60) 60 ltac:(lra)) as Hc;
        set (c := clamp m (-60) 60) in *
    end.
    eapply Rle_trans; [apply vLen_scaled_normal|].
    unfold Rabs. destruct (Rcase_abs (- c)); lra.
  - pose proof (vLen_nonneg rVec) as Hlen.
    unfold hbForce. cbv zeta.
    destruct (decide (hbStrength P <= 0)) as [HE|HE];
      [rewrite Hzero; apply Rmax_l|].
    destruct (decide (vLen rVec + 1e-9 > 1.8 * sigma P)) as [Hr|Hr];
      [rewrite Hzero; apply Rmax_l|].
    eapply Rle_trans; [apply vLen_scaled_normal|].
    eapply Rle_trans; [|apply Rmax_r].
    assert (Hcut : 0 < 1.8 * sigma P) by lra.
    assert (Hpos : 0 < vLen rVec + 1e-9) by lra.
    apply Rnot_gt_le in Hr.
    set (r := vLen rVec + 1e-9) in *. set (rCut := 1.8 * sigma P) in *.
    assert (Hq : 0 <= r / rCut <= 1).
    { split.
      - apply Rmult_le_pos; [lra|]. left. now apply Rinv_0_lt_compat.
      - apply (Rmult_le_reg_r rCut); [lra|].
        replace (r / rCut * rCut) with r by (field; lra). lra. }
    assert (Hm : 0 <= Rmax 0 (1 - r / rCut) <= 1).
    { unfold Rmax. destruct (Rle_dec 0 (1 - r / rCut)); lra. }
    rewrite Rabs_left1 by nra. nra.
Qed.

(** X7.  Particles at the same place (within 1e-12) exert no force on each
    other: every term is a multiple of the zero normal. *)
Theorem coincident_pair_feels_no_force (P : Params) (sa sb : Phase)
    (rVec : Vec) :
  vLen rVec <= 1e-12 -> pairForce P sa sb rVec = (0, 0).
Proof.
  intros Hl.
  assert (Hn : vNorm rVec = (0, 0))
    by (unfold vNorm; cbv zeta; now rewrite decide_False by lra).
  assert (Hlj : ljForce P rVec = (0, 0))
    by (unfold ljForce; cbv zeta; rewrite Hn; apply vMul_zero_l).
  assert (Hhb : hbForce P rVec = (0, 0)).
  { unfold hbForce. cbv zeta. repeat case_decide; try reflexivity.
    rewrite Hn. apply vMul_zero_l. }
  assert (Hdp : dipoleForce P rVec = (0, 0)).
  { unfold dipoleForce. cbv zeta. repeat case_decide; try reflexivity.
    rewrite Hn. apply vMul_zero_l. }
  unfold pairForce. cbv zeta. rewrite Hlj, Hhb, Hdp, !vMul_zero_l.
  unfold vAdd. cbn [fst snd]. f_equal; ring.
Qed.

Lemma coincident_pair_feels_no_force_witness :
  pairForce (scenarioDefaults honey 1) liquid liquid (0, 0) = (0, 0).
Proof.
  apply coincident_pair_feels_no_force.
  unfold vLen, Math_hypot. cbn [fst snd].
  replace (0 * 0 + 0 * 0) with 0 by ring. rewrite sqrt_0. lra.
Defined.

(** X8.  Applying the coefficients of a scenario forgets the scenario
    applied before, and touches nothing but the two strengths and the
    three cohesion weights. *)
Theorem applyIMFCoeffsFor_last_wins (P : Params) (k1 k2 : Scenario) :
  applyIMFCoeffsFor (applyIMFCoeffsFor P k1) k2 = applyIMFCoeffsFor P k2 /\
  epsilon (applyIMFCoeffsFor P k1) = epsilon P /\
  sigma (applyIMFCoeffsFor P k1) = sigma P /\
  viscosity (applyIMFCoeffsFor P k1) = viscosity P /\
  N (applyIMFCoeffsFor P k1) = N P /\ kT (applyIMFCoeffsFor P k1) = kT P.
Proof. destruct k1, k2; repeat split; reflexivity. Qed.

(** X9.  Whatever the viscosity (a negative one counts as zero), the
    applied strengths are not negative, at most one of them is not zero,
    and the three cohesion weights are at least 0.7, so that [|| 1] never
    replaces one. *)
Theorem applyIMFCoeffsFor_coefficients (P : Params) (k : Scenario) :
  let P' := applyIMFCoeffsFor P k in
  0 <= hbStrength P' /\ 0 <= dipole P' /\
  (hbStrength P' = 0 \/ dipole P' = 0) /\
  (exists wLJ wHB wDP,
     cohLJ P' = Some wLJ /\ cohHB P' = Some wHB /\ cohDP P' = Some wDP /\
     0.7 <= wLJ /\ 1 <= wHB /\ 1 <= wDP /\
     orElseU (cohLJ P') 1 = wLJ /\ orElseU (cohHB P') 1 = wHB /\
     orElseU (cohDP P') 1 = wDP).
Proof.
  cbv zeta.
  assert (Hv : 0 <= Rmax 0 (orElse (viscosity P) 0)) by apply Rmax_l.
  set (v := Rmax 0 (orElse (viscosity P) 0)) in *.
  destruct k; unfold applyIMFCoeffsFor; fold v;
    cbn [hbStrength dipole cohLJ cohHB cohDP orElseU];
    (split; [lra|]); (split; [lra|]); (split; [auto; lra|]);
    eexists _, _, _; repeat split; try reflexivity; try lra;
    apply orElse_nonzero; lra.
Qed.

(** X10.  With the coefficients of a scenario applied, hexane has neither
    directional term, honey no dipole term and DMSO no hydrogen-bond
    term, at any displacement. *)
Theorem applied_scenario_terms (P : Params) (rVec : Vec) :
  (hbForce (applyIMFCoeffsFor P hexane) rVec = (0, 0) /\
   dipoleForce (applyIMFCoeffsFor P hexane) rVec = (0, 0)) /\
  dipoleForce (applyIMFCoeffsFor P honey) rVec = (0, 0) /\
  hbForce (applyIMFCoeffsFor P dmso) rVec = (0, 0).
Proof.
  repeat split; unfold hbForce, dipoleForce; cbv zeta;
    cbn [applyIMFCoeffsFor hbStrength dipole];
    rewrite decide_True by lra; reflexivity.
Qed.

(** ** Walls, contacts and phase changes *)

(** X11.  Once applied, the walls change nothing when applied again,
    provided the particle fits between them. *)
Theorem handleWalls_idempotent (w h : R) (p : Particle) :
  fits w h p ->
  handleWalls w h (handleWalls w h p) = handleWalls w h p.
Proof.
  intros Hfit. apply handleWalls_inside_id.
  - destruct (handleWalls_thermal w h p) as (_ & _ & -> & _). apply Hfit.
  - now apply handleWalls_inside.
Qed.

Lemma handleWalls_idempotent_witness :
  handleWalls 900 420 (handleWalls 900 420 (restingAt (-5) 500))
  = handleWalls 900 420 (restingAt (-5) 500).
Proof.
  apply handleWalls_idempotent. unfold fits. simpl. lra.
Defined.

(** X12.  A wall never speeds a particle up: neither velocity component
    grows in absolute value. *)
Theorem handleWalls_never_speeds_up (w h : R) (p : Particle) :
  Rabs (vel (handleWalls w h p)).1 <= Rabs (vel p).1 /\
  Rabs (vel (handleWalls w h p)).2 <= Rabs (vel p).2.
Proof.
  unfold handleWalls. cbv zeta.
  destruct (vel p) as [vx vy] eqn:Hv.
  repeat case_decide; cbn [vel setVel setPos fst snd]; rewrite ?Hv;
    cbn [fst snd]; split; unfold Rabs; repeat destruct (Rcase_abs _); lra.
Qed.

(** X13.  The collision resolver leaves particles that do not overlap
    exactly as they are, in particular an empty or one-particle store. *)
Theorem resolveCollisions_separated_fixed (s : Sim) :
  Forall (fun p => radius p <> 0) (particles s) ->
  pairwise noContact (particles s) ->
  particles (resolveCollisions s) = particles s.
Proof.
  intros Hr Hfar. apply resolveCollisions_fixed.
  intros i j a Ha Hij. apply resolvePair_apart. intros a0 b Ha0 Hb.
  rewrite Ha in Ha0. injection Ha0 as <-.
  pose proof (Hfar i j a b Ha Hb Hij) as Hc. unfold noContact, separation in Hc.
  apply list_elem_of_lookup_2 in Ha, Hb.
  rewrite Forall_forall in Hr.
  rewrite (orElse_nonzero (radius a)) by now apply Hr.
  rewrite (orElse_nonzero (radius b)) by now apply Hr.
  unfold orElse. case_decide as Hz; [|exact Hc]. rewrite Hz in Hc. lra.
Qed.

Lemma resolveCollisions_separated_fixed_witness :
  particles (resolveCollisions (coldSim [restingAt 100 100; restingAt 106 100]))
  = [restingAt 100 100; restingAt 106 100].
Proof.
  apply (resolveCollisions_separated_fixed
           (coldSim [restingAt 100 100; restingAt 106 100])).
  - repeat constructor; simpl; lra.
  - assert (Hsep : separation (restingAt 100 100) (restingAt 106 100) = 6).
    { rewrite separation_axis; simpl; lra. }
    apply pairwise_two; [|apply noContact_sym]; unfold noContact;
      rewrite Hsep; simpl; lra.
Defined.

(** X14.  The normal impulse of a contact turns the closing speed [vn] along
    a unit normal into the separating speed [e * |vn|], and leaves the
    total momentum of the pair alone, for any two positive masses. *)
Theorem normal_impulse_restitution (e ma mb nx ny : R) (va vb : Vec) :
  0 < ma -> 0 < mb -> nx * nx + ny * ny = 1 ->
  let vn := (vb.1 - va.1) * nx + (vb.2 - va.2) * ny in
  let j := (- (1 + e) * vn) / (1 / ma + 1 / mb) in
  let va' := (applyImpulse ma mb (j * nx) (j * ny) va vb).1 in
  let vb' := (applyImpulse ma mb (j * nx) (j * ny) va vb).2 in
  (vb'.1 - va'.1) * nx + (vb'.2 - va'.2) * ny = - e * vn /\
  ma * va'.1 + mb * vb'.1 = ma * va.1 + mb * vb.1 /\
  ma * va'.2 + mb * vb'.2 = ma * va.2 + mb * vb.2.
Proof.
  intros Hma Hmb Hn vn j va' vb'.
  assert (Hs : 1 / ma + 1 / mb <> 0).
  { assert (0 < 1 / ma) by (apply Rdiv_lt_0_compat; lra).
    assert (0 < 1 / mb) by (apply Rdiv_lt_0_compat; lra). lra. }
  assert (Hj : j * (1 / ma + 1 / mb) = - (1 + e) * vn)
    by (unfold j; field; split; [lra|]; split; lra).
  subst va' vb'. unfold applyImpulse. cbn [fst snd].
  split; [|split; field; lra].
  replace ((vb.1 + j * nx / mb - (va.1 - j * nx / ma)) * nx +
           (vb.2 + j * ny / mb - (va.2 - j * ny / ma)) * ny)
    with (vn + j * (1 / ma + 1 / mb) * (nx * nx + ny * ny))
    by (unfold vn; field; lra).
  rewrite Hj, Hn. ring.
Qed.

Lemma normal_impulse_restitution_witness :
  let va : Vec := (10, 0) in
  let vb : Vec := (0, 0) in
  let vn := (vb.1 - va.1) * 1 + (vb.2 - va.2) * 0 in
  let j := (- (1 + 0.2) * vn) / (1 / 1 + 1 / 1) in
  let va' := (applyImpulse 1 1 (j * 1) (j * 0) va vb).1 in
  let vb' := (applyImpulse 1 1 (j * 1) (j * 0) va vb).2 in
  (vb'.1 - va'.1) * 1 + (vb'.2 - va'.2) * 0 = - (0.2) * vn /\
  1 * va'.1 + 1 * vb'.1 = 1 * va.1 + 1 * vb.1 /\
  1 * va'.2 + 1 * vb'.2 = 1 * va.2 + 1 * vb.2.
Proof.
  intros va vb.
  apply (normal_impulse_restitution 0.2 1 1 1 0 va vb); lra.
Defined.

(** X15.  The friction impulse also leaves the total momentum of the pair
    alone. *)
Theorem frictionImpulse_momentum (mu ma mb nx ny j : R) (va vb : Vec) :
  ma <> 0 -> mb <> 0 ->
  let va' := (frictionImpulse mu ma mb nx ny j va vb).1 in
  let vb' := (frictionImpulse mu ma mb nx ny j va vb).2 in
  ma * va'.1 + mb * vb'.1 = ma * va.1 + mb * vb.1 /\
  ma * va'.2 + mb * vb'.2 = ma * va.2 + mb * vb.2.
Proof.
  intros Hma Hmb. cbv zeta. unfold frictionImpulse. cbv zeta.
  case_decide as Htl; [|split; reflexivity].
  unfold applyImpulse. cbn [fst snd].
  split; field; repeat split; auto; lra.
Qed.

Lemma frictionImpulse_momentum_witness :
  let va' := (frictionImpulse 0.3 1 2 1 0 (-6) (4, 3) (0, 0)).1 in
  let vb' := (frictionImpulse 0.3 1 2 1 0 (-6) (4, 3) (0, 0)).2 in
  1 * va'.1 + 2 * vb'.1 = 1 * (4, 3).1 + 2 * (0, 0).1 /\
  1 * va'.2 + 2 * vb'.2 = 1 * (4, 3).2 + 2 * (0, 0).2.
Proof.
  apply (frictionImpulse_momentum 0.3 1 2 1 0 (-6) (4, 3) (0, 0)); lra.
Defined.

Lemma kinetic_after_scaling (m vx vy ke : R) :
  0 < m -> 0 < Math_hypot vx vy -> 0 <= ke ->
  let v := Math_hypot vx vy in
  let sc := sqrt ((2 * ke) / (m * v * v)) in
  0 <= sc /\ 0.5 * m * (vx * sc * (vx * sc) + vy * sc * (vy * sc)) = ke.
Proof.
  intros Hm Hv Hke. cbv zeta.
  assert (Hv2 : vx * vx + vy * vy = Math_hypot vx vy * Math_hypot vx vy)
    by (symmetry; apply Math_hypot_sqr).
  set (v := Math_hypot vx vy) in *.
  assert (Hmv : 0 < m * v * v)
    by (repeat apply Rmult_lt_0_compat; assumption).
  split; [apply sqrt_pos|].
  assert (Hq : 0 <= 2 * ke / (m * v * v)).
  { apply Rmult_le_pos; [lra|]. left. now apply Rinv_0_lt_compat. }
  replace (vx * sqrt (2 * ke / (m * v * v)) * (vx * sqrt (2 * ke / (m * v * v)))
           + vy * sqrt (2 * ke / (m * v * v)) * (vy * sqrt (2 * ke / (m * v * v))))
    with ((vx * vx + vy * vy)
          * (sqrt (2 * ke / (m * v * v)) * sqrt (2 * ke / (m * v * v))))
    by ring.
  rewrite sqrt_sqrt by exact Hq. rewrite Hv2.
  assert (E : m * (v * v * (2 * ke / (m * v * v))) = 2 * ke)
    by (field; split; lra).
  lra.
Qed.

(** X16.  Thermal conduction rescales the two velocities without turning
    them, and never removes kinetic energy from the pair: the total is
    kept when both particles end above the floor of 0.5, and grows when
    the floor lifts one of them. *)
Theorem thermalConduction_energy (ma mb : R) (va vb : Vec) :
  0 < ma -> 0 < mb ->
  let ke := fun m (v : Vec) => 0.5 * m * (v.1 * v.1 + v.2 * v.2) in
  let va' := (thermalConduction ma mb va vb).1 in
  let vb' := (thermalConduction ma mb va vb).2 in
  (exists sa sb, 0 <= sa /\ 0 <= sb /\ va' = vMul va sa /\ vb' = vMul vb sb) /\
  ke ma va + ke mb vb <= ke ma va' + ke mb vb' /\
  (0.5 <= ke ma va - 0.15 * (ke ma va - ke mb vb) ->
   0.5 <= ke mb vb + 0.15 * (ke ma va - ke mb vb) ->
   ke ma va' + ke mb vb' = ke ma va + ke mb vb).
Proof.
  intros Hma Hmb ke va' vb'. subst va' vb'.
  assert (Hid : exists sa sb, 0 <= sa /\ 0 <= sb /\
                  va = vMul va sa /\ vb = vMul vb sb).
  { exists 1, 1. destruct va, vb. unfold vMul. cbn [fst snd].
    repeat split; try lra; f_equal; ring. }
  unfold thermalConduction. cbv zeta.
  fold (ke ma va). fold (ke mb vb).
  set (keA := ke ma va). set (keB := ke mb vb).
  case_decide as Hfire;
    [|cbn [fst snd]; split; [exact Hid|];
      split; [apply Rle_refl|intros _ _; reflexivity]].
  case_decide as Hmag;
    [|cbn [fst snd]; split; [exact Hid|];
      split; [apply Rle_refl|intros _ _; reflexivity]].
  destruct Hmag as [HA HB]. cbn [fst snd].
  set (newA := Rmax 0.5 (keA - 0.15 * (keA - keB))).
  set (newB := Rmax 0.5 (keB + 0.15 * (keA - keB))).
  assert (HnA : 0.5 <= newA /\ keA - 0.15 * (keA - keB) <= newA)
    by (unfold newA, Rmax; destruct (Rle_dec _ _); lra).
  assert (HnB : 0.5 <= newB /\ keB + 0.15 * (keA - keB) <= newB)
    by (unfold newB, Rmax; destruct (Rle_dec _ _); lra).
  destruct (kinetic_after_scaling ma va.1 va.2 newA) as [HsA HkA];
    [lra|lra|lra|].
  destruct (kinetic_after_scaling mb vb.1 vb.2 newB) as [HsB HkB];
    [lra|lra|lra|].
  cbv zeta in HsA, HkA, HsB, HkB.
  split; [eexists _, _; split; [exact HsA|]; split; [exact HsB|];
          split; reflexivity|].
  match goal with
  | |- _ <= ke ma ?a + ke mb ?b /\ _ =>
      assert (EA : ke ma a = newA) by exact HkA;
      assert (EB : ke mb b = newB) by exact HkB;
      rewrite EA, EB
  end.
  split; [lra|]. intros H1 H2.
  unfold newA, newB. rewrite !Rmax_right by lra. lra.
Qed.

Lemma thermalConduction_energy_witness :
  let ke := fun m (v : Vec) => 0.5 * m * (v.1 * v.1 + v.2 * v.2) in
  let va' := (thermalConduction 1 1 (10, 0) (0, 2)).1 in
  let vb' := (thermalConduction 1 1 (10, 0) (0, 2)).2 in
  ke 1 va' + ke 1 vb' = ke 1 (10, 0) + ke 1 (0, 2).
Proof.
  cbv zeta.
  apply (thermalConduction_energy 1 1 (10, 0) (0, 2)); simpl; lra.
Defined.

(** X17.  A phase change needs heat.  A liquid particle with thermal energy
    at most 0.2 is never turned into gas, whatever its speed, and a gas
    particle with thermal energy 0.2 or more is never condensed; in both
    cases the classifier leaves the particle as it is. *)
Theorem phase_change_needs_heat (P : Params) (h nowS : R) (p : Particle) :
  (state p = liquid -> thermalEnergy p <= 0.2 -> classify P h nowS p = p) /\
  (state p = gas -> 0.2 <= thermalEnergy p -> classify P h nowS p = p).
Proof.
  split; intros Hs Hte; unfold classify; rewrite Hs, !orElse_zero; cbv zeta.
  - rewrite (bool_decide_eq_false_2 (thermalEnergy p > 0.7)) by lra.
    repeat case_decide; try lra; reflexivity.
  - case_decide; [reflexivity|].
    rewrite (bool_decide_eq_false_2 (thermalEnergy p < 0.2)) by lra.
    rewrite !andb_false_r, !andb_false_l. reflexivity.
Qed.

(** ** Spawning, particle count and scenario changes *)

Lemma spawnOne_fresh (rs : RandomSource) (w h : R) (wd : World) :
  (forall k, 0 <= draw rs k < 1) -> 0 <= w -> 0 <= h ->
  fresh w h 20 (spawnOne rs w h wd).1 /\
  clockPos (spawnOne rs w h wd).2 = clockPos wd.
Proof.
  intros Hrs Hw Hh.
  unfold spawnOne, makeParticle, randRange, bind, Math_random, ret.
  cbn [fst snd rngPos clockPos].
  set (k := rngPos wd).
  pose proof (Hrs k). pose proof (Hrs (S k)). pose proof (Hrs (S (S k))).
  pose proof (Hrs (S (S (S k)))).
  split; [|reflexivity].
  unfold fresh. cbn [pos vel mass radius state thermalEnergy lastStateChange
                     fst snd].
  repeat split; try reflexivity; nra.
Qed.

Lemma spawnLoop_fresh (rs : RandomSource) (n : nat) (w h : R)
    (ps : list Particle) (wd : World) :
  (forall k, 0 <= draw rs k < 1) -> 0 <= w -> 0 <= h ->
  exists new,
    (spawnLoop rs n w h ps wd).1 = ps ++ new /\ length new = n /\
    Forall (fresh w h 20) new.
Proof.
  intros Hrs Hw Hh. revert ps wd.
  induction n as [|n IH]; intros ps wd; cbn [spawnLoop].
  - exists []. unfold ret. cbn [fst]. rewrite app_nil_r. auto.
  - unfold bind. destruct (spawnOne_fresh rs w h wd Hrs Hw Hh) as [Hp _].
    destruct (spawnOne rs w h wd) as [p w1]. cbn [fst] in Hp.
    destruct (IH (ps ++ [p]) w1) as (new & E & Hl & Hf).
    exists (p :: new). rewrite E, <- app_assoc. cbn [app length].
    split; [reflexivity|]. split; [lia|]. now constructor.
Qed.

(** X18.  [spawnParticles] replaces the store by exactly [params.N] new
    particles, each inside the canvas (not necessarily a radius away from
    the walls), liquid, cold, of mass 1 and radius 3, with velocity
    components between -20 and 20, and changes no setting. *)
Theorem spawnParticles_fresh (rs : RandomSource) (s : Sim) (wd : World) :
  (forall k, 0 <= draw rs k < 1) -> 0 <= width s -> 0 <= height s ->
  let s' := (spawnParticles rs s wd).1 in
  length (particles s') = N (params s) /\
  Forall (fresh (width s) (height s) 20) (particles s') /\
  sameSetup s s'.
Proof.
  intros Hrs Hw Hh. cbv zeta. unfold spawnParticles, bind.
  destruct (spawnLoop_fresh rs (N (params s)) (width s) (height s) [] wd
              Hrs Hw Hh) as (new & E & Hl & Hf).
  destruct (spawnLoop rs _ _ _ [] wd) as [ps w1]. cbn [fst] in E.
  cbn [app] in E. subst ps. cbn [ret fst setParticles particles].
  split; [exact Hl|]. split; [exact Hf|].
  unfold sameSetup. cbn. auto 10.
Qed.

Lemma spawnParticles_fresh_witness :
  let s := newSim 900 420 in
  let s' := (spawnParticles halves s (mkWorld 0 0)).1 in
  length (particles s') = N (params s) /\
  Forall (fresh (width s) (height s) 20) (particles s') /\
  sameSetup s s'.
Proof.
  intros s.
  assert (Hw : width s = 900) by (apply orElse_nonzero; lra).
  assert (Hh : height s = 420) by (apply orElse_nonzero; lra).
  apply (spawnParticles_fresh halves s (mkWorld 0 0)).
  - intros k. simpl. lra.
  - rewrite Hw. lra.
  - rewrite Hh. lra.
Defined.

Lemma popLoop_take (fuel n : nat) (ps : list Particle) :
  (length ps - n <= fuel)%nat -> popLoop fuel n ps = take n ps.
Proof.
  revert ps. induction fuel as [|fuel IH]; intros ps Hf; cbn [popLoop].
  - symmetry. apply take_ge. lia.
  - case_decide as Hn; [|symmetry; apply take_ge; lia].
    destruct (exists_last (l := ps)) as (ps' & x & ->).
    { intros ->. simpl in Hn. lia. }
    rewrite removelast_last. rewrite length_app in Hn, Hf. simpl in Hn, Hf.
    rewrite IH by lia. rewrite take_app_le by lia. reflexivity.
Qed.

Lemma pushLoop_fills (rs : RandomSource) (fuel n : nat) (w h : R)
    (ps : list Particle) (wd : World) :
  (forall k, 0 <= draw rs k < 1) -> 0 <= w -> 0 <= h ->
  (n - length ps <= fuel)%nat ->
  exists new,
    (pushLoop rs fuel n w h ps wd).1 = ps ++ new /\
    length new = (n - length ps)%nat /\ Forall (fresh w h 10) new.
Proof.
  intros Hrs Hw Hh. revert ps wd.
  induction fuel as [|fuel IH]; intros ps wd Hf; cbn [pushLoop].
  - exists []. unfold ret. cbn [fst]. rewrite app_nil_r.
    split; [reflexivity|]. split; [simpl; lia|constructor].
  - case_decide as Hn.
    + unfold bind. destruct (spawnOne_fresh rs w h wd Hrs Hw Hh) as [Hp _].
      destruct (spawnOne rs w h wd) as [p w1]. cbn [fst] in Hp.
      set (q := setVel p ((vel p).1 * 0.5, (vel p).2 * 0.5)).
      destruct (IH (ps ++ [q]) w1) as (new & E & Hl & Hnew).
      { rewrite length_app. simpl. lia. }
      exists (q :: new). rewrite E, <- app_assoc. cbn [app length].
      split; [reflexivity|]. rewrite length_app in Hl. simpl in Hl.
      split; [lia|]. constructor; [|exact Hnew].
      unfold fresh in *. subst q.
      cbn [pos vel mass radius state thermalEnergy lastStateChange setVel
           fst snd].
      intuition lra.
    + exists []. unfold ret. cbn [fst]. rewrite app_nil_r.
      split; [reflexivity|]. split; [simpl; lia|constructor].
Qed.

(** X19.  [adjustParticleCount(targetN)] leaves exactly
    [n = max(1, floor(targetN))] particles and records [n] in
    [params.N]: the first [n] old particles survive unchanged, in order,
    and any particle added is new, with velocity components between -10
    and 10.  A target below 1 still leaves one particle. *)
Theorem adjustParticleCount_count (rs : RandomSource) (targetN : R)
    (s : Sim) (wd : World) :
  (forall k, 0 <= draw rs k < 1) -> 0 <= width s -> 0 <= height s ->
  let n := Z.to_nat (Z.max 1 (Math_floor targetN)) in
  let s' := (adjustParticleCount rs targetN s wd).1 in
  (1 <= n)%nat /\ length (particles s') = n /\ N (params s') = n /\
  exists new,
    particles s' = take n (particles s) ++ new /\
    Forall (fresh (width s) (height s) 10) new.
Proof.
  intros Hrs Hw Hh n s'. subst s'.
  unfold adjustParticleCount. fold n. cbv zeta.
  cbn [setParams particles width height params].
  rewrite popLoop_take by lia. unfold bind.
  destruct (pushLoop_fills rs n n (width s) (height s) (take n (particles s))
              wd Hrs Hw Hh ltac:(lia)) as (new & E & Hl & Hnew).
  destruct (pushLoop rs n n _ _ _ wd) as [ps w1]. cbn [fst] in E. subst ps.
  cbn [ret fst setParticles particles params setN N].
  split; [lia|]. split.
  - rewrite length_app, Hl, length_take. lia.
  - split; [reflexivity|]. exists new. split; [reflexivity|exact Hnew].
Qed.

Lemma adjustParticleCount_count_witness :
  let s := setParticles (newSim 900 420)
             [restingAt 10 10; restingAt 20 20; restingAt 30 30] in
  let s' := (adjustParticleCount halves (-4.5) s (mkWorld 0 0)).1 in
  length (particles s') = 1%nat /\ particles s' = [restingAt 10 10].
Proof.
  intros s.
  assert (Hw : width s = 900) by (apply orElse_nonzero; lra).
  assert (Hh : height s = 420) by (apply orElse_nonzero; lra).
  assert (Hn : Z.to_nat (Z.max 1 (Math_floor (-4.5))) = 1%nat).
  { rewrite (Math_floor_eq (-4.5) (-5)) by lra. reflexivity. }
  destruct (adjustParticleCount_count halves (-4.5) s (mkWorld 0 0))
    as (_ & Hlen & _ & new & E & _).
  - intros k. simpl. lra.
  - rewrite Hw. lra.
  - rewrite Hh. lra.
  - rewrite Hn in Hlen, E. cbv zeta. split; [exact Hlen|].
    rewrite E in Hlen |- *. cbn [take particles setParticles s] in *.
    destruct new; [reflexivity|]. simpl in Hlen. lia.
Defined.

(** X20.  [changeScenario(kind)] keeps the temperature, the canvas and the
    toggles, takes every other parameter from the defaults of the
    scenario (the cohesion weights applied earlier are gone), and
    respawns as many particles as the scenario asks for. *)
Theorem changeScenario_resets (rs : RandomSource) (kind : Scenario)
    (s : Sim) (wd : World) :
  let s' := (changeScenario rs kind s wd).1 in
  params s' = scenarioDefaults kind (kT (params s)) /\
  kT (params s') = kT (params s) /\
  cohLJ (params s') = None /\ cohHB (params s') = None /\
  cohDP (params s') = None /\
  length (particles s') = N (scenarioDefaults kind 0) /\
  width s' = width s /\ height s' = height s /\
  gravityOn s' = gravityOn s /\ heatingOn s' = heatingOn s.
Proof.
  cbv zeta. unfold changeScenario, spawnParticles, bind. cbv zeta.
  cbn [setParams params width height].
  assert (Hlen : forall n w h ps w0,
             length (spawnLoop rs n w h ps w0).1 = (length ps + n)%nat).
  { induction n as [|n IH]; intros w h ps w0; cbn [spawnLoop].
    - unfold ret. simpl. lia.
    - unfold bind. destruct (spawnOne rs w h w0) as [p w1].
      rewrite IH, length_app. simpl. lia. }
  specialize (Hlen (N (scenarioDefaults kind (kT (params s)))) (width s)
                (height s) [] wd).
  destruct (spawnLoop rs _ _ _ [] wd) as [ps w1]. cbn [fst] in Hlen.
  cbn [ret fst setParticles particles params width height gravityOn
       heatingOn].
  rewrite Hlen. destruct kind; repeat split; reflexivity.
Qed.

(** ** What each stage of a step leaves alone *)

Section KeepsFacts.
Context {A : Type}.
Variable f : Particle -> A.
Hypothesis f_setAcc : forall p v, f (setAcc p v) = f p.
Hypothesis f_setLocalNeighbors : forall p n, f (setLocalNeighbors p n) = f p.
Hypothesis f_setVel : forall p v, f (setVel p v) = f p.
Hypothesis f_setPos : forall p v, f (setPos p v) = f p.

Lemma keeps_refl (p : Particle) : keeps f p p.
Proof. reflexivity. Qed.

Lemma keeps_trans (p q r : Particle) :
  keeps f p q -> keeps f q r -> keeps f p r.
Proof. unfold keeps. congruence. Qed.

Lemma all_keep_refl (ps : list Particle) : Forall2 (keeps f) ps ps.
Proof. apply Forall_Forall2_diag, Forall_forall. auto using keeps_refl. Qed.

Lemma all_keep_trans (ps qs rs : list Particle) :
  Forall2 (keeps f) ps qs -> Forall2 (keeps f) qs rs ->
  Forall2 (keeps f) ps rs.
Proof.
  intros H. revert rs. induction H; intros rs Hq; inversion Hq; subst;
    constructor; eauto using keeps_trans.
Qed.

Lemma all_keep_Forall (Q : A -> Prop) (ps qs : list Particle) :
  Forall2 (keeps f) ps qs -> Forall (fun p => Q (f p)) ps ->
  Forall (fun p => Q (f p)) qs.
Proof.
  induction 1 as [|p q ps qs Hpq _ IH]; intros HQ; [constructor|].
  inversion HQ; subst. constructor; [|auto]. now rewrite Hpq.
Qed.

Lemma forceCallback_keeps (P : Params) (i j : nat) (ax ay : R)
    (ps : list Particle) :
  Forall2 (keeps f) ps (forceCallback P i ax ay ps j).
Proof.
  unfold forceCallback. case_decide; [apply all_keep_refl|].
  destruct (ps !! i) as [a|] eqn:Ha; [|apply all_keep_refl].
  destruct (ps !! j) as [b|] eqn:Hb; [|apply all_keep_refl].
  apply Forall2_insert_r_same with a; auto using keeps_refl.
  unfold keeps. cbv zeta. rewrite f_setAcc.
  case_decide; [apply f_setLocalNeighbors|reflexivity].
Qed.

Lemma forcesOn_keeps (P : Params) (g : NeighborGrid.t) (ps : list Particle)
    (i : nat) :
  Forall2 (keeps f) ps (forcesOn P g ps i).
Proof.
  unfold forcesOn. destruct (ps !! i) as [a|]; [|apply all_keep_refl].
  apply (foldl_invariant (fun qs => Forall2 (keeps f) ps qs));
    [|apply all_keep_refl].
  intros qs j Hqs. eapply all_keep_trans; [exact Hqs|].
  apply forceCallback_keeps.
Qed.

Lemma rescaleVelocities_keeps (kT : R) (ps : list Particle) :
  Forall2 (keeps f) ps (rescaleVelocities kT ps).
Proof.
  unfold rescaleVelocities. repeat case_decide; try apply all_keep_refl.
  apply Forall2_map_r_same. intros p. unfold keeps.
  destruct (thermostatted p); [apply f_setVel|reflexivity].
Qed.

Lemma handleWalls_keeps (w h : R) (p : Particle) :
  keeps f p (handleWalls w h p).
Proof.
  unfold handleWalls, keeps. cbv zeta.
  repeat case_decide; repeat (rewrite f_setVel || rewrite f_setPos);
    reflexivity.
Qed.

Lemma resolvePair_keeps (h : R) (i j : nat) (ax ay : R) (ps : list Particle) :
  Forall2 (keeps f) ps (resolvePair h i j ax ay ps).
Proof.
  unfold resolvePair.
  destruct (ps !! i) as [a|] eqn:Ha; [|apply all_keep_refl].
  destruct (ps !! j) as [b|] eqn:Hb; [|apply all_keep_refl].
  case_decide; [|apply all_keep_refl].
  destruct (contactPositions _ _ _ _ _ _ _) as [pa pb].
  destruct (contactVelocities _ _ _ _ _ _ _ _) as [va vb].
  destruct (decide (i = j)) as [->|Hij].
  - rewrite list_insert_insert_eq.
    apply Forall2_insert_r_same with b; auto using keeps_refl.
    unfold keeps. now rewrite f_setVel, f_setPos.
  - apply (all_keep_trans _ (<[i := setVel (setPos a pa) va]> ps)).
    + apply Forall2_insert_r_same with a; auto using keeps_refl.
      unfold keeps. now rewrite f_setVel, f_setPos.
    + apply Forall2_insert_r_same with b; auto using keeps_refl.
      * rewrite list_lookup_insert_ne; auto.
      * unfold keeps. now rewrite f_setVel, f_setPos.
Qed.

Lemma collisionCallback_keeps (h : R) (i j : nat) (ax ay : R)
    (st : list Particle * gset (nat * nat)) :
  Forall2 (keeps f) st.1 (collisionCallback h i ax ay st j).1.
Proof.
  unfold collisionCallback. destruct st as [ps processed]. simpl.
  case_decide; [apply all_keep_refl|].
  destruct (ps !! j); [|apply all_keep_refl].
  case_decide; [apply all_keep_refl|]. simpl. apply resolvePair_keeps.
Qed.

Lemma collisionsOf_keeps (h : R) (g : NeighborGrid.t) (i : nat)
    (st : list Particle * gset (nat * nat)) :
  Forall2 (keeps f) st.1 (collisionsOf h g st i).1.
Proof.
  unfold collisionsOf. destruct (st.1 !! i) as [a|]; [|apply all_keep_refl].
  apply (foldl_invariant (fun st' => Forall2 (keeps f) st.1 st'.1));
    [|apply all_keep_refl].
  intros st' j Hst'. eapply all_keep_trans; [exact Hst'|].
  apply collisionCallback_keeps.
Qed.

Lemma resolveCollisions_keeps (s : Sim) :
  Forall2 (keeps f) (particles s) (particles (resolveCollisions s)).
Proof.
  unfold resolveCollisions. simpl.
  apply (foldl_invariant
           (fun st : list Particle * gset (nat * nat) =>
              Forall2 (keeps f) (particles s) st.1));
    [|apply all_keep_refl].
  intros st i Hst. eapply all_keep_trans; [exact Hst|].
  apply collisionsOf_keeps.
Qed.

Lemma collisionIterations_keeps (n : nat) (s : Sim) :
  Forall2 (keeps f) (particles s) (particles (Nat.iter n collisionIteration s)).
Proof.
  induction n as [|n IH]; [apply all_keep_refl|].
  change (Nat.iter (S n) collisionIteration s)
    with (collisionIteration (Nat.iter n collisionIteration s)).
  eapply all_keep_trans; [exact IH|].
  rewrite collisionIteration_particles.
  eapply all_keep_trans; [apply resolveCollisions_keeps|].
  apply Forall2_map_r_same. intros p. apply handleWalls_keeps.
Qed.

Section WithEnvironment.
Variable rs : RandomSource.
Variable clock : nat -> R.

Lemma dragKick_keeps (gamma kickSigma : R) (p : Particle) (w : World) :
  keeps f p (dragKick rs gamma kickSigma p w).1.
Proof. unfold dragKick, bind, ret, keeps. simpl. apply f_setAcc. Qed.

(** The force pass: every particle keeps [f] up to the thermostat, which
    may then rescale the velocities. *)
Lemma computeForces_shape (dt : R) (s : Sim) (w : World) :
  exists ps1,
    Forall2 (keeps f) (particles s) ps1 /\
    (particles (computeForces rs clock dt s w).1 = ps1 \/
     particles (computeForces rs clock dt s w).1
     = rescaleVelocities (Rmax 0 (orElse (kT (params s)) 0)) ps1).
Proof.
  unfold computeForces, bind.
  match goal with
  | |- context [forEach ?g ?l w] =>
      pose proof (forEach_Forall2 (keeps f) g l w (dragKick_keeps _ _))
        as Hkick;
      destruct (forEach g l w) as [ps1 w1]
  end.
  simpl in *. exists ps1. split.
  - eapply all_keep_trans; [|exact Hkick].
    eapply all_keep_trans.
    + apply (Forall2_map_r_same (keeps f)
               (fun p => setLocalNeighbors (setAcc p (0, 0)) 0)).
      intros p. unfold keeps. now rewrite f_setLocalNeighbors, f_setAcc.
    + apply (foldl_invariant (fun qs => Forall2 (keeps f) _ qs));
        [|apply all_keep_refl].
      intros qs i Hqs. eapply all_keep_trans; [exact Hqs|].
      apply forcesOn_keeps.
  - case_decide; simpl; auto.
Qed.

Lemma computeForces_keeps (dt : R) (s : Sim) (w : World) :
  Forall2 (keeps f) (particles s) (particles (computeForces rs clock dt s w).1).
Proof.
  destruct (computeForces_shape dt s w) as (ps1 & H1 & [-> | ->]);
    [exact H1|].
  eapply all_keep_trans; [exact H1|]. apply rescaleVelocities_keeps.
Qed.

Lemma integrate_keeps (w h dtStep : R) (p : Particle) (wd : World) :
  keeps f p (integrate rs w h dtStep p wd).1.
Proof.
  unfold integrate, bind, ret, Math_random. cbv zeta.
  case_decide; cbn [fst];
    (eapply keeps_trans; [|apply handleWalls_keeps]); unfold keeps, eulerStep;
    cbv zeta; repeat (rewrite f_setVel || rewrite f_setPos); reflexivity.
Qed.
End WithEnvironment.
End KeepsFacts.

Lemma rescaleFactor_range (k a : R) : 0.9 <= rescaleFactor k a <= 1.1.
Proof.
  unfold rescaleFactor. cbv zeta. unfold Rmax, Rmin.
  repeat destruct (Rle_dec _ _); lra.
Qed.

Lemma vMul_one (v : Vec) : v = vMul v 1.
Proof. destruct v. unfold vMul. simpl. f_equal; ring. Qed.

Lemma nudged_refl (p : Particle) : nudged p p.
Proof.
  unfold nudged. repeat split; auto. exists 1. split; [lra|apply vMul_one].
Qed.

Lemma rescaleVelocities_nudged (k : R) (ps : list Particle) :
  Forall2 nudged ps (rescaleVelocities k ps).
Proof.
  assert (Hrefl : Forall2 nudged ps ps)
    by (apply Forall_Forall2_diag, Forall_forall; auto using nudged_refl).
  unfold rescaleVelocities. cbv zeta. repeat case_decide; try exact Hrefl.
  apply Forall2_map_r_same. intros p.
  destruct (thermostatted p); [|apply nudged_refl].
  unfold nudged. cbn [pos thermalEnergy mass radius state vel setVel].
  repeat split; auto. eexists. split; [apply rescaleFactor_range|].
  reflexivity.
Qed.

Lemma Forall2_compose {A} (R S T : A -> A -> Prop) (l1 l2 l3 : list A) :
  (forall a b c, R a b -> S b c -> T a c) ->
  Forall2 R l1 l2 -> Forall2 S l2 l3 -> Forall2 T l1 l3.
Proof.
  intros H HR. revert l3. induction HR; intros l3 HS; inversion HS; subst;
    constructor; eauto.
Qed.

Section ForcePassFacts.
Variable rs : RandomSource.
Variable clock : nat -> R.

(** X21.  The force pass never moves, heats, adds or removes a particle:
    besides the accelerations and neighbour counts it writes, all it does
    is rescale velocities, by between -10 % and +10 %. *)
Theorem computeForces_nudges (dt : R) (s : Sim) (w : World) :
  Forall2 nudged (particles s) (particles (computeForces rs clock dt s w).1) /\
  sameSetup s (computeForces rs clock dt s w).1.
Proof.
  split; [|apply computeForces_frame].
  set (f := fun p => (pos p, vel p, thermalEnergy p, mass p, radius p, state p)).
  assert (Hk : forall p q r, keeps f p q -> nudged q r -> nudged p r).
  { intros p q r Hpq (Hpos & Hte & Hm & Hr & Hst & c & Hc & Hv).
    unfold keeps, f in Hpq. injection Hpq as Hpos' Hvel' Hte' Hm' Hr' Hst'.
    unfold nudged. repeat split; try congruence.
    exists c. split; [exact Hc|]. congruence. }
  destruct (computeForces_shape f ltac:(reflexivity) ltac:(reflexivity)
              rs clock dt s w) as (ps1 & H1 & [-> | ->]).
  - eapply Forall2_impl; [exact H1|]. intros p q Hpq.
    apply (Hk p q q Hpq), nudged_refl.
  - eapply Forall2_compose; [exact Hk|exact H1|].
    apply rescaleVelocities_nudged.
Qed.
End ForcePassFacts.

Lemma forEach_Forall {A} (I : A -> Prop) (f : A -> Env A) (l : list A)
    (w : World) :
  (forall x w, I x -> I (f x w).1) -> Forall I l -> Forall I (forEach f l w).1.
Proof.
  intros Hf Hl. revert w. induction Hl as [|x t Hx _ IH]; intros w; simpl.
  - constructor.
  - unfold bind. specialize (Hf x w Hx). destruct (f x w) as [y w1].
    specialize (IH w1). destruct (forEach f t w1) as [t' w2]. simpl in *.
    now constructor.
Qed.

Lemma heat_kept (ps qs : list Particle) :
  Forall2 (keeps thermalEnergy) ps qs ->
  Forall heatInRange ps -> Forall heatInRange qs.
Proof.
  apply (all_keep_Forall thermalEnergy (fun t => 0 <= t <= 1)).
Qed.

Lemma hotspot_nonneg (w x : R) (k : nat) :
  0 <= (hotspot w x k).1 /\ 0 <= (hotspot w x k).2.
Proof.
  unfold hotspot. cbv zeta. case_decide as Hi; cbn [fst snd]; [|split; lra].
  split; [lra|]. apply Rmult_le_pos; [lra|].
  destruct k as [|[|[|k]]]; simpl; try (rewrite orElse_nonzero by lra); lra.
Qed.

Lemma coolParticle_heat (dtStep : R) (p : Particle) :
  0 <= dtStep -> heatInRange p -> heatInRange (coolParticle dtStep p).
Proof.
  unfold heatInRange, coolParticle. cbn [thermalEnergy setThermalEnergy].
  rewrite orElse_zero. intros Hdt Hp. unfold Rmax.
  destruct (Rle_dec _ _); nra.
Qed.

Lemma classify_heat (P : Params) (h nowS : R) (p : Particle) :
  heatInRange p -> heatInRange (classify P h nowS p).
Proof.
  unfold heatInRange. intros Hp. unfold classify. cbv zeta.
  rewrite !orElse_zero. destruct (state p).
  - destruct (bool_decide (thermalEnergy p > 0.7)); repeat case_decide;
      cbn [thermalEnergy setPhase setVel setThermalEnergy]; exact Hp.
  - case_decide; [exact Hp|]. destruct (_ || _); [|exact Hp].
    case_decide; cbn [thermalEnergy setPhase setVel setThermalEnergy];
      [|exact Hp].
    unfold Rmax. destruct (Rle_dec _ _); lra.
Qed.

Section HeatFacts.
Variable rs : RandomSource.
Variable clock : nat -> R.

Lemma heatParticle_heat (w h aH dtStep : R) (p : Particle) (wd : World) :
  0 <= dtStep -> 0 < w -> 0 < h ->
  heatInRange p -> heatInRange (heatParticle rs w h aH dtStep p wd).1.
Proof.
  intros Hdt Hw Hh Hp. unfold heatInRange in *.
  unfold heatParticle. cbv zeta. rewrite !orElse_zero.
  case_decide as Hzone.
  - destruct (hotspot_nonneg w (pos p).1 0) as [Ha0 Hb0].
    destruct (hotspot_nonneg w (pos p).1 1) as [Ha1 Hb1].
    destruct (hotspot_nonneg w (pos p).1 2) as [Ha2 Hb2].
    cbn [map foldl].
    set (total := 0 + (hotspot w (pos p).1 0).1 + (hotspot w (pos p).1 1).1
                  + (hotspot w (pos p).1 2).1).
    set (weighted := 0 + (hotspot w (pos p).1 0).2 + (hotspot w (pos p).1 1).2
                     + (hotspot w (pos p).1 2).2).
    assert (Ht : 0 <= total) by (unfold total; lra).
    assert (Hwt : 0 <= weighted) by (unfold weighted; lra).
    set (avg := if decide (total > 0) then weighted / total else 0.7).
    assert (Havg : 0 <= avg).
    { unfold avg. case_decide; [|lra].
      apply Rmult_le_pos; [exact Hwt|]. left. now apply Rinv_0_lt_compat. }
    set (q := (h - _) / (h * 0.1)).
    set (nd := Rmax 0 (Rmin 1 q)).
    assert (Hnd : 0 <= nd <= 1).
    { unfold nd. clearbody q. unfold Rmax, Rmin.
      repeat destruct (Rle_dec _ _); lra. }
    clearbody avg nd total weighted.
    set (hi := (1.0 - nd * (1.0 - 0.2)) * (0.3 + total * 0.7 * avg)).
    assert (Hhi : 0 <= hi).
    { unfold hi. apply Rmult_le_pos; [nra|].
      assert (0 <= total * 0.7 * avg) by (apply Rmult_le_pos; [apply Rmult_le_pos|]; lra).
      lra. }
    clearbody hi.
    assert (Hgain : 0 <= 0.03 * hi * dtStep)
      by (apply Rmult_le_pos; [apply Rmult_le_pos|]; lra).
    set (te := Rmin 1.0 (thermalEnergy p + 0.03 * hi * dtStep)).
    assert (Hte : 0 <= te <= 1)
      by (unfold te, Rmin; destruct (Rle_dec _ _); lra).
    clearbody te.
    unfold bind, Math_random, ret.
    repeat case_decide;
      cbn [fst thermalEnergy setThermalEnergy addAcc addAccY addVelY setAcc
           setVel]; exact Hte.
  - set (te := Rmax 0 (thermalEnergy p - 0.015 * dtStep)).
    assert (Hte : 0 <= te <= 1)
      by (unfold te, Rmax; destruct (Rle_dec _ _); nra).
    clearbody te.
    unfold bind, Math_random, ret.
    repeat case_decide;
      cbn [fst thermalEnergy setThermalEnergy addAcc addAccY addVelY setAcc
           setVel]; exact Hte.
Qed.

Lemma advance_heat (dtStep : R) (s : Sim) (w : World) :
  0 <= dtStep -> 0 < width s -> 0 < height s ->
  Forall heatInRange (particles s) ->
  Forall heatInRange (particles (advance rs clock dtStep s w).1).
Proof.
  intros Hdt Hw Hh Hps. unfold advance, bind.
  pose proof (computeForces_keeps thermalEnergy ltac:(reflexivity)
                ltac:(reflexivity) ltac:(reflexivity) rs clock dtStep s w)
    as Hk1.
  destruct (computeForces_frame rs clock dtStep s w) as [Hs1 _].
  destruct (computeForces rs clock dtStep s w) as [s1 w1]. simpl in Hk1, Hs1.
  pose proof (heat_kept _ _ Hk1 Hps) as H1.
  destruct Hs1 as (Hw1 & Hh1 & _).
  set (s2 := if gravityOn s1 then _ else s1).
  assert (H2 : Forall heatInRange (particles s2) /\
               width s2 = width s /\ height s2 = height s).
  { subst s2. destruct (gravityOn s1); [|auto]. simpl. split; [|auto].
    apply Forall_map. eapply Forall_impl; [exact H1|]. auto. }
  destruct H2 as (H2 & Hw2 & Hh2). clearbody s2.
  match goal with
  | |- context [(if heatingOn s2 then ?a else ?b) w1] =>
      assert (H3 : Forall heatInRange
                     ((if heatingOn s2 then a else b) w1).1);
      [|destruct ((if heatingOn s2 then a else b) w1) as [ps3 w3]]
  end.
  { destruct (heatingOn s2).
    - apply forEach_Forall; [|exact H2]. intros x w0 Hx.
      apply heatParticle_heat; auto; lra.
    - simpl. apply Forall_map. eapply Forall_impl; [exact H2|].
      intros x Hx. now apply coolParticle_heat. }
  simpl in H3.
  set (s4 := if gravityOn (setParticles s2 ps3) then _ else _).
  assert (H4 : Forall heatInRange (particles s4)).
  { subst s4. simpl. destruct (gravityOn s2); simpl; [|exact H3].
    apply Forall_map. eapply Forall_impl; [exact H3|].
    intros x Hx. case_decide; exact Hx. }
  clearbody s4.
  pose proof (forEach_Forall2 (keeps thermalEnergy)
                (integrate rs (width s4) (height s4) dtStep) (particles s4) w3
                (integrate_keeps thermalEnergy ltac:(reflexivity)
                   ltac:(reflexivity) rs _ _ _)) as H5.
  destruct (forEach _ (particles s4) w3) as [ps5 w5]. cbn [fst] in H5.
  unfold ret. cbn [fst].
  pose proof (heat_kept _ _ H5 H4) as H6.
  apply (heat_kept ps5); [|exact H6].
  apply (collisionIterations_keeps thermalEnergy ltac:(reflexivity)
           ltac:(reflexivity) 5 (setParticles s4 ps5)).
Qed.

Lemma substeps_heat (n : nat) (dtStep : R) (s : Sim) (w : World) :
  0 <= dtStep -> 0 < width s -> 0 < height s ->
  Forall heatInRange (particles s) ->
  Forall heatInRange (particles (substeps rs clock n dtStep s w).1).
Proof.
  intros Hdt. revert s w. induction n as [|n IH]; intros s w Hw Hh Hps;
    [exact Hps|].
  cbn [substeps]. unfold bind.
  pose proof (advance_heat dtStep s w Hdt Hw Hh Hps) as Ha.
  destruct (advance_frame rs clock dtStep s w) as [(Hw1 & Hh1 & _) _].
  unfold substep, bind.
  destruct (advance rs clock dtStep s w) as [s1 w1]. simpl in Ha, Hw1, Hh1.
  unfold updateStates, bind, performance_now, ret. cbn [fst snd].
  apply IH; cbn [setParticles width height particles]; try lra.
  apply Forall_map. eapply Forall_impl; [exact Ha|].
  intros p Hp. now apply classify_heat.
Qed.

(** X22.  Thermal energy stays between 0 and 1 through a step, heating on
    or off. *)
Theorem step_keeps_heat_in_range (dt : R) (s : Sim) (w : World) :
  0 <= dt -> 0 < width s -> 0 < height s ->
  Forall heatInRange (particles s) ->
  Forall heatInRange (particles (step rs clock dt s w).1).
Proof.
  intros Hdt Hw Hh Hps. unfold step. apply substeps_heat; auto.
  pose proof (substepsOf_pos s dt) as Hn.
  apply Rmult_le_pos; [exact Hdt|]. left. apply Rinv_0_lt_compat.
  apply IZR_lt. lia.
Qed.

Lemma substeps_frame (n : nat) (dtStep : R) (s : Sim) (w : World) :
  sameSetup s (substeps rs clock n dtStep s w).1 /\
  Forall2 sameSize (particles s) (particles (substeps rs clock n dtStep s w).1).
Proof.
  revert s w. induction n as [|n IH]; intros s w; cbn [substeps].
  - split; [apply sameSetup_refl|].
    apply Forall_Forall2_diag, Forall_forall. unfold sameSize. auto.
  - unfold bind, substep, bind.
    destruct (advance_frame rs clock dtStep s w) as [Hs1 Hp1].
    destruct (advance rs clock dtStep s w) as [s1 w1]. simpl in Hs1, Hp1.
    unfold updateStates, bind, performance_now, ret. cbn [fst snd].
    match goal with
    | |- context [substeps rs clock n dtStep ?s2 ?w2] =>
        destruct (IH s2 w2) as [Hs2 Hp2]
    end.
    split.
    + eapply sameSetup_trans; [|exact Hs2]. unfold sameSetup in *. cbn. tauto.
    + cbn [particles setParticles] in Hp2.
      assert (H12 : Forall2 sameSize (particles s)
                      (map (classify (params s1) (height s1)
                              (clock (clockPos w1))) (particles s1))).
      { apply Forall2_fmap_r. eapply Forall2_impl; [exact Hp1|].
        intros a b (Hr & Hm & _).
        destruct (classify_keeps (params s1) (height s1)
                    (clock (clockPos w1)) b) as (_ & Hcr & Hcm).
        unfold sameSize. split; congruence. }
      eapply Forall2_compose; [|exact H12|exact Hp2].
      unfold sameSize. intros a b c (? & ?) (? & ?). split; congruence.
Qed.

(** X23.  A step never adds, removes or reorders particles, never changes a
    mass or a radius, and leaves the canvas size, the parameters and the
    toggles alone. *)
Theorem step_frame (dt : R) (s : Sim) (w : World) :
  sameSetup s (step rs clock dt s w).1 /\
  Forall2 sameSize (particles s) (particles (step rs clock dt s w).1) /\
  length (particles (step rs clock dt s w).1) = length (particles s).
Proof.
  destruct (substeps_frame (Z.to_nat (substepsOf s dt))
              (dt / IZR (substepsOf s dt)) s w) as [Hs Hp].
  unfold step. split; [exact Hs|]. split; [exact Hp|].
  symmetry. eapply Forall2_length, Hp.
Qed.
End HeatFacts.

Lemma step_keeps_heat_in_range_witness :
  Forall heatInRange
    (particles
       (step halves (fun _ => 0) (1 / 60)
          (setParticles (newSim 900 420) [warmAt 100 100; restingAt 200 415])
          (mkWorld 0 0)).1).
Proof.
  set (s0 := setParticles (newSim 900 420) [warmAt 100 100; restingAt 200 415]).
  assert (Hw : width s0 = 900) by (apply orElse_nonzero; lra).
  assert (Hh : height s0 = 420) by (apply orElse_nonzero; lra).
  apply (step_keeps_heat_in_range halves (fun _ => 0) (1 / 60) s0 (mkWorld 0 0)).
  - lra.
  - rewrite Hw. lra.
  - rewrite Hh. lra.
  - repeat constructor; simpl; lra.
Defined.

(** ** Substeps *)

Lemma Math_ceil_ge (x : R) : x <= IZR (Math_ceil x).
Proof.
  unfold Math_ceil. rewrite opp_IZR.
  pose proof (Math_floor_bounds (- x)) as [H _]. unfold Math_floor in H. lra.
Qed.

Lemma Math_ceil_le (x : R) (n : Z) : x <= IZR n -> (Math_ceil x <= n)%Z.
Proof.
  intros Hx. unfold Math_ceil.
  assert (- n <= Math_floor (- x))%Z.
  { rewrite <- (Math_floor_eq (IZR (- n)) (- n)) by lra.
    apply Math_floor_mono. rewrite opp_IZR. lra. }
  unfold Math_floor in *. lia.
Qed.

Lemma maxSpeed_fold (ps : list Particle) (m : R) :
  let f := fun m p =>
             let sp := Math_hypot (vel p).1 (vel p).2 in
             if decide (sp > m) then sp else m in
  m <= foldl f m ps /\
  (forall p, p ∈ ps -> vLen (vel p) <= foldl f m ps) /\
  (foldl f m ps = m \/ exists p, p ∈ ps /\ foldl f m ps = vLen (vel p)).
Proof.
  cbv zeta. revert m. induction ps as [|q ps IH]; intros m; cbn [foldl].
  - split; [lra|]. split; [|now left]. intros p Hp. inversion Hp.
  - match goal with
    | |- context [foldl ?f ?m' ps] => destruct (IH m') as (H1 & H2 & H3)
    end.
    assert (Hm : m <= (if decide (Math_hypot (vel q).1 (vel q).2 > m)
                       then Math_hypot (vel q).1 (vel q).2 else m) /\
                 vLen (vel q) <= (if decide (Math_hypot (vel q).1 (vel q).2 > m)
                       then Math_hypot (vel q).1 (vel q).2 else m))
      by (unfold vLen; case_decide; lra).
    destruct Hm as [Hm Hq].
    split; [lra|]. split.
    + intros p [->|Hp]%elem_of_cons; [lra|]. now apply H2.
    + destruct H3 as [H3|(p & Hp & H3)].
      * rewrite H3. case_decide; [|now left].
        right. exists q. split; [left|reflexivity].
      * right. exists p. split; [now right|exact H3].
Qed.

(** X24.  With gravity on, a step is cut into 2 to 12 substeps, and into
    enough of them that no particle's speed at the start of the step
    carries it farther than [safeDisp = max(2, radius / 2)] in one
    substep, as long as 12 substeps can achieve that. *)
Theorem substeps_bound_displacement (s : Sim) (dt : R) :
  gravityOn s = true -> 0 <= dt ->
  (forall p, p ∈ particles s ->
     vLen (vel p) * dt <= 12 * safeDispOf (particles s)) ->
  (2 <= substepsOf s dt <= 12)%Z /\
  forall p, p ∈ particles s ->
    vLen (vel p) * (dt / IZR (substepsOf s dt)) <= safeDispOf (particles s).
Proof.
  intros Hg Hdt Hfast.
  unfold substepsOf. rewrite Hg. cbv zeta.
  fold (maxSpeedOf (particles s)). fold (safeDispOf (particles s)).
  set (safe := safeDispOf (particles s)) in *.
  assert (Hsafe : 2 <= safe) by apply Rmax_l.
  destruct (maxSpeed_fold (particles s) 0) as (H0 & Hge & Hmax).
  cbv zeta in H0, Hge, Hmax. fold (maxSpeedOf (particles s)) in H0, Hge, Hmax.
  set (vmax := maxSpeedOf (particles s)) in *.
  assert (Hq : vmax * dt <= 12 * safe).
  { destruct Hmax as [->|(p & Hp & ->)]; [nra|]. now apply Hfast. }
  clearbody vmax safe.
  set (q := vmax * dt / safe).
  assert (Hq12 : q <= 12).
  { unfold q. apply (Rmult_le_reg_r safe); [lra|].
    replace (vmax * dt / safe * safe) with (vmax * dt) by (field; lra). lra. }
  pose proof (Math_ceil_ge q) as Hc1.
  pose proof (Math_ceil_le q 12 Hq12) as Hc2.
  set (n := Z.min 12 (Z.max 2 (Math_ceil q))).
  assert (Hn : (2 <= n <= 12)%Z) by (unfold n; lia).
  assert (Hnq : q <= IZR n).
  { assert (Math_ceil q <= n)%Z by (unfold n; lia).
    apply IZR_le in H. lra. }
  split; [exact Hn|]. intros p Hp. specialize (Hge p Hp).
  assert (Hn2 : 2 <= IZR n) by (apply IZR_le; lia).
  assert (Hvd : vmax * dt <= IZR n * safe).
  { replace (vmax * dt) with (q * safe) by (unfold q; field; lra).
    clearbody q. nra. }
  assert (Hdn : 0 <= dt / IZR n).
  { apply Rmult_le_pos; [lra|]. left. apply Rinv_0_lt_compat. lra. }
  apply Rle_trans with (vmax * (dt / IZR n)); [nra|].
  apply (Rmult_le_reg_r (IZR n)); [lra|].
  replace (vmax * (dt / IZR n) * IZR n) with (vmax * dt) by (field; lra).
  lra.
Qed.

Lemma substeps_bound_displacement_witness :
  let s := setParticles (newSim 900 420) [mover 100 100] in
  (2 <= substepsOf s 0.033 <= 12)%Z /\
  forall p, p ∈ particles s ->
    vLen (vel p) * (0.033 / IZR (substepsOf s 0.033))
    <= safeDispOf (particles s).
Proof.
  intros s.
  apply (substeps_bound_displacement s 0.033); [reflexivity|lra|].
  intros p Hp. apply list_elem_of_singleton in Hp. subst p.
  assert (Hv : vLen (vel (mover 100 100)) = 10).
  { unfold vLen. simpl. apply Math_hypot_axis. lra. }
  rewrite Hv.
  pose proof (Rmax_l 2 (0.5 * orElse 3 3)).
  unfold safeDispOf. cbn [particles setParticles s radius mover]. lra.
Defined.

(** ** The periodic revision *)

Lemma wrapIndex_mod (a n : Z) :
  (0 < n)%Z -> Periodic.wrapIndex a n = (a mod n)%Z.
Proof.
  intros Hn. unfold Periodic.wrapIndex.
  pose proof (Z.rem_bound_abs a n ltac:(lia)) as Hb.
  assert (0 <= Z.rem a n + n)%Z by lia.
  rewrite Z.rem_mod_nonneg by lia.
  rewrite (Z.quot_rem' a n) at 2.
  replace (n * (a ÷ n) + Z.rem a n)%Z with (Z.rem a n + (a ÷ n) * n)%Z by ring.
  rewrite Z_mod_plus_full.
  replace (Z.rem a n + n)%Z with (Z.rem a n + 1 * n)%Z by ring.
  now rewrite Z_mod_plus_full.
Qed.

(** X25.  In the periodic revision [cellIndex] needs no clamp: the double
    remainder is the mathematical modulo, so the index of any position,
    negative ones included, is that of the cell it falls in modulo the
    grid size, and lies inside the cells array. *)
Theorem periodic_cellIndex_in_range (g : NeighborGrid.t) (x y : R) :
  (1 <= NeighborGrid.cols g)%Z -> (1 <= NeighborGrid.rows g)%Z ->
  Periodic.cellIndex g x y
  = ((Math_floor (y / NeighborGrid.cellSize g) mod NeighborGrid.rows g)
     * NeighborGrid.cols g
     + Math_floor (x / NeighborGrid.cellSize g) mod NeighborGrid.cols g)%Z /\
  (0 <= Periodic.cellIndex g x y
   < NeighborGrid.cols g * NeighborGrid.rows g)%Z.
Proof.
  intros Hc Hr. unfold Periodic.cellIndex. cbv zeta.
  rewrite !wrapIndex_mod by lia. split; [reflexivity|].
  pose proof (Z.mod_pos_bound (Math_floor (x / NeighborGrid.cellSize g))
                (NeighborGrid.cols g) ltac:(lia)).
  pose proof (Z.mod_pos_bound (Math_floor (y / NeighborGrid.cellSize g))
                (NeighborGrid.rows g) ltac:(lia)).
  nia.
Qed.

Lemma periodic_cellIndex_in_range_witness :
  let g := NeighborGrid.new 900 420 24 in
  Periodic.cellIndex g (-50) 1000
  = ((Math_floor (1000 / NeighborGrid.cellSize g) mod NeighborGrid.rows g)
     * NeighborGrid.cols g
     + Math_floor (-50 / NeighborGrid.cellSize g) mod NeighborGrid.cols g)%Z /\
  (0 <= Periodic.cellIndex g (-50) 1000
   < NeighborGrid.cols g * NeighborGrid.rows g)%Z.
Proof.
  intros g. apply (periodic_cellIndex_in_range g (-50) 1000);
    unfold g, NeighborGrid.new; cbn [NeighborGrid.cols NeighborGrid.rows]; lia.
Defined.

(** X26.  In the periodic revision [wrap] brings a position that is less
    than one domain size outside back inside, by exactly one domain size,
    and leaves the velocity alone; it is not a modulo: a position two
    widths out is only brought one width closer. *)
Theorem periodic_wrap_one_lap (w h : R) (p : Particle) :
  0 < w -> 0 < h ->
  let p' := Periodic.wrap w h p in
  vel p' = vel p /\
  (- w <= (pos p).1 < 2 * w ->
   0 <= (pos p').1 < w /\
   ((pos p').1 = (pos p).1 \/ (pos p').1 = (pos p).1 + w \/
    (pos p').1 = (pos p).1 - w)) /\
  (- h <= (pos p).2 < 2 * h ->
   0 <= (pos p').2 < h /\
   ((pos p').2 = (pos p).2 \/ (pos p').2 = (pos p).2 + h \/
    (pos p').2 = (pos p).2 - h)) /\
  (2 * w <= (pos p).1 -> (pos p').1 = (pos p).1 - w /\ w <= (pos p').1).
Proof.
  intros Hw Hh. cbv zeta. unfold Periodic.wrap. cbv zeta.
  destruct (pos p) as [x y] eqn:Hp.
  repeat case_decide; cbn [pos vel setPos fst snd] in *; rewrite ?Hp in *;
    cbn [fst snd] in *;
    (split; [reflexivity|]); (split; [intros ?; split; lra|]);
    (split; [intros ?; split; lra|]); intros ?; split; lra.
Qed.

Lemma periodic_wrap_one_lap_witness :
  (pos (Periodic.wrap 900 420 (restingAt 905 (-3)))).1 = 5 /\
  (pos (Periodic.wrap 900 420 (restingAt 905 (-3)))).2 = 417.
Proof.
  destruct (periodic_wrap_one_lap 900 420 (restingAt 905 (-3)))
    as (_ & Hx & Hy & _); [lra|lra|].
  cbn [pos restingAt fst snd] in Hx, Hy.
  destruct Hx as [Hx [Hx1|[Hx1|Hx1]]]; [lra|lra|lra|..]; try lra.
  all: destruct Hy as [Hy [Hy1|[Hy1|Hy1]]]; [lra|lra|lra|..]; try lra.
  all: split; lra.
Defined.

Lemma wrapped_range (w z : R) : 0 < w -> 0 <= wrapped w z < w.
Proof.
  intros Hw. unfold wrapped.
  pose proof (Math_floor_bounds (z / w)) as [H1 H2].
  assert (E : z = z / w * w) by (field; lra).
  set (q := z / w) in *. clearbody q. subst z. nra.
Qed.

Lemma wrapped_unique (w z r : R) (c : Z) :
  0 < w -> 0 <= r < w -> r = z + IZR c * w -> wrapped w z = r.
Proof.
  intros Hw Hr E. unfold wrapped.
  assert (Hq : z / w = r / w - IZR c) by (subst r; field; lra).
  assert (Hrw : 0 <= r / w < 1).
  { split.
    - apply Rmult_le_pos; [lra|]. left. now apply Rinv_0_lt_compat.
    - apply (Rmult_lt_reg_r w); [lra|].
      replace (r / w * w) with r by (field; lra). lra. }
  rewrite (Math_floor_eq (z / w) (- c)).
  - rewrite opp_IZR. lra.
  - rewrite opp_IZR, Hq. lra.
Qed.

Lemma wrapped_add (w a b : R) :
  0 < w -> wrapped w (wrapped w a + b) = wrapped w (a + b).
Proof.
  intros Hw.
  apply (wrapped_unique w (wrapped w a + b) (wrapped w (a + b))
           (Math_floor (a / w) - Math_floor ((a + b) / w))).
  - exact Hw.
  - now apply wrapped_range.
  - unfold wrapped. rewrite minus_IZR. ring.
Qed.

Lemma wrapped_inside (w z : R) : 0 < w -> 0 <= z < w -> wrapped w z = z.
Proof.
  intros Hw Hz. apply (wrapped_unique w z z 0); auto. simpl. ring.
Qed.

(** Where [wrap] puts a position less than one domain size outside. *)
Lemma periodic_wrap_pos (w h : R) (p : Particle) :
  0 < w -> 0 < h ->
  - w <= (pos p).1 < 2 * w -> - h <= (pos p).2 < 2 * h ->
  pos (Periodic.wrap w h p) = (wrapped w (pos p).1, wrapped h (pos p).2) /\
  vel (Periodic.wrap w h p) = vel p /\ mass (Periodic.wrap w h p) = mass p.
Proof.
  intros Hw Hh Hx Hy. unfold Periodic.wrap. cbv zeta.
  destruct (pos p) as [x y] eqn:Hp. cbn [fst snd] in Hx, Hy.
  repeat case_decide; cbn [pos vel mass setPos fst snd] in *;
    rewrite ?Hp in *; cbn [fst snd] in *;
    (split; [|split; reflexivity]); try lra; f_equal; symmetry;
    first [ apply (wrapped_unique _ _ _ 0); simpl; lra
          | apply (wrapped_unique _ _ _ 1); simpl; lra
          | apply (wrapped_unique _ _ _ (-1)); simpl; lra ].
Qed.

Lemma periodic_forceCallback_single (w h : R) (P : Params) (ax ay : R)
    (q : Particle) (j : nat) :
  Periodic.forceCallback w h P 0 ax ay [q] j = [q].
Proof.
  unfold Periodic.forceCallback. case_decide; [reflexivity|].
  destruct j; [congruence|]. reflexivity.
Qed.

Lemma periodic_forcesOn_single (w h : R) (P : Params) (g : NeighborGrid.t)
    (q : Particle) :
  Periodic.forcesOn w h P g [q] 0 = [q].
Proof.
  unfold Periodic.forcesOn. cbn [lookup list_lookup]. cbv zeta.
  generalize (Periodic.forNeighbors g (pos q).1 (pos q).2 28).
  intros l. induction l as [|j l IH]; [reflexivity|].
  cbn [foldl]. now rewrite periodic_forceCallback_single.
Qed.

(** One step of the periodic revision on a lone particle without drag or
    kicks. *)
Lemma periodic_step_single (rs : RandomSource) (dt : R) (s : Sim)
    (q : Particle) (wd : World) :
  particles s = [q] -> viscosity (params s) = 0 -> kT (params s) = 0 ->
  0 < width s -> 0 < height s ->
  0 <= (pos q).1 < width s -> 0 <= (pos q).2 < height s ->
  Rabs ((vel q).1 * dt) <= width s -> Rabs ((vel q).2 * dt) <= height s ->
  exists q',
    particles (Periodic.step rs dt s wd).1 = [q'] /\
    pos q' = (wrapped (width s) ((pos q).1 + (vel q).1 * dt),
              wrapped (height s) ((pos q).2 + (vel q).2 * dt)) /\
    vel q' = vel q /\
    width (Periodic.step rs dt s wd).1 = width s /\
    height (Periodic.step rs dt s wd).1 = height s /\
    params (Periodic.step rs dt s wd).1 = params s.
Proof.
  intros Hps Hvis HkT Hw Hh Hx Hy Hvx Hvy.
  unfold Periodic.step, Periodic.computeForces, bind. cbv zeta.
  rewrite Hps, Hvis, HkT. cbn [map length seq foldl].
  rewrite periodic_forcesOn_single. cbn [forEach].
  unfold bind, Periodic.dragKick, bind, randRange, bind, Math_random, ret.
  cbn [fst snd particles setParticles setGrid width height params map].
  eexists. split; [reflexivity|].
  set (a1 := _ + (_ + (_ + _ * _)) : R).
  set (a2 := _ + (_ + (_ + _ * _)) : R).
  assert (Ha1 : a1 = 0).
  { unfold a1, clamp. cbn [acc setAcc fst snd].
    rewrite Rmin_right, Rmax_left by (try rewrite Rmin_right; lra). lra. }
  assert (Ha2 : a2 = 0).
  { unfold a2, clamp. cbn [acc setAcc fst snd].
    rewrite Rmin_right, Rmax_left by (try rewrite Rmin_right; lra). lra. }
  clearbody a1 a2. subst a1 a2.
  set (e := eulerStep dt _).
  assert (He : pos e = ((pos q).1 + (vel q).1 * dt, (pos q).2 + (vel q).2 * dt)
               /\ vel e = vel q).
  { unfold e, eulerStep. cbn [pos vel acc mass setPos setVel setAcc fst snd].
    assert (E1 : (vel q).1 + 0 / mass q * dt = (vel q).1)
      by (unfold Rdiv; ring).
    assert (E2 : (vel q).2 + 0 / mass q * dt = (vel q).2)
      by (unfold Rdiv; ring).
    rewrite E1, E2. split; [reflexivity|]. now destruct (vel q). }
  destruct He as [Hpe Hve]. clearbody e.
  apply Rabs_le_bounds in Hvx, Hvy.
  destruct (periodic_wrap_pos (width s) (height s) e Hw Hh)
    as (Hp' & Hv' & _); rewrite ?Hpe; cbn [fst snd]; try lra.
  rewrite Hp', Hv', Hpe, Hve. cbn [fst snd]. auto 10.
Qed.

(** X27.  In the periodic revision, with zero viscosity (this revision's
    drag coefficient) and [kT = 0], a lone particle moves in a straight
    line at constant velocity and re-enters on the other side: after [k]
    steps of [dt] it is at its start plus [k * dt] times its velocity,
    taken modulo the domain size -- for velocity (10, 0) and 60 steps of
    1/60, at the start plus (10, 0) modulo the width. *)
Theorem periodic_lone_particle_wraps (rs : RandomSource) (k : nat) (dt : R)
    (s : Sim) (q : Particle) (wd : World) :
  particles s = [q] -> viscosity (params s) = 0 -> kT (params s) = 0 ->
  0 < width s -> 0 < height s ->
  0 <= (pos q).1 < width s -> 0 <= (pos q).2 < height s ->
  Rabs ((vel q).1 * dt) <= width s -> Rabs ((vel q).2 * dt) <= height s ->
  exists q',
    particles (Periodic.steps rs k dt s wd).1 = [q'] /\
    pos q' = (wrapped (width s) ((pos q).1 + INR k * ((vel q).1 * dt)),
              wrapped (height s) ((pos q).2 + INR k * ((vel q).2 * dt))) /\
    vel q' = vel q.
Proof.
  intros Hps Hvis HkT Hw Hh Hx Hy Hvx Hvy.
  assert (Hgen : forall k s0 q0 wd0 x0 y0,
             particles s0 = [q0] -> params s0 = params s ->
             width s0 = width s -> height s0 = height s ->
             vel q0 = vel q ->
             pos q0 = (wrapped (width s) x0, wrapped (height s) y0) ->
             exists q',
               particles (Periodic.steps rs k dt s0 wd0).1 = [q'] /\
               pos q' = (wrapped (width s) (x0 + INR k * ((vel q).1 * dt)),
                         wrapped (height s) (y0 + INR k * ((vel q).2 * dt))) /\
               vel q' = vel q).
  { clear k wd Hps Hx Hy. intros k. induction k as [|k IH];
      intros s0 q0 wd0 x0 y0 Hps0 HP0 Hw0 Hh0 Hv0 Hp0.
    - exists q0. cbn [Periodic.steps ret fst]. split; [exact Hps0|].
      split; [|exact Hv0]. rewrite Hp0. simpl. f_equal; f_equal; ring.
    - cbn [Periodic.steps]. unfold bind.
      pose proof (wrapped_range (width s) x0 Hw) as Hx0.
      pose proof (wrapped_range (height s) y0 Hh) as Hy0.
      destruct (periodic_step_single rs dt s0 q0 wd0) as
        (q1 & Hps1 & Hp1 & Hv1 & Hw1 & Hh1 & HP1);
        rewrite ?HP0, ?Hw0, ?Hh0, ?Hp0, ?Hv0; cbn [fst snd]; auto.
      destruct (Periodic.step rs dt s0 wd0) as [s1 w1].
      cbn [fst] in Hps1, Hw1, Hh1, HP1.
      rewrite Hw0, Hh0, Hp0, Hv0 in Hp1. cbn [fst snd] in Hp1.
      rewrite !wrapped_add in Hp1 by assumption.
      destruct (IH s1 q1 w1 (x0 + (vel q).1 * dt) (y0 + (vel q).2 * dt))
        as (q' & Hq' & Hpq' & Hvq'); try congruence.
      exists q'. split; [exact Hq'|]. split; [|exact Hvq'].
      rewrite Hpq', S_INR. f_equal; f_equal; ring. }
  destruct (Hgen k s q wd (pos q).1 (pos q).2) as (q' & H1 & H2 & H3); auto.
  - rewrite !wrapped_inside by assumption. now destruct (pos q).
  - exists q'. auto.
Qed.

Lemma periodic_lone_particle_wraps_witness :
  exists q',
    particles
      (Periodic.steps halves 60 (1 / 60)
         (mkSim 900 420 (mkParams 0.7 10 0 0 0 1 0 None None None)
            [mover 897 200] (NeighborGrid.new 900 420 24) false false 80 0)
         (mkWorld 0 0)).1 = [q'] /\
    pos q' = (7, 200) /\ vel q' = (10, 0).
Proof.
  destruct (periodic_lone_particle_wraps halves 60 (1 / 60)
              (mkSim 900 420 (mkParams 0.7 10 0 0 0 1 0 None None None)
                 [mover 897 200] (NeighborGrid.new 900 420 24)
                 false false 80 0)
              (mover 897 200) (mkWorld 0 0))
    as (q' & H1 & H2 & H3); try reflexivity;
    cbn [width height pos vel mover fst snd]; try lra.
  - unfold Rabs. destruct (Rcase_abs _); lra.
  - unfold Rabs. destruct (Rcase_abs _); lra.
  - exists q'. split; [exact H1|]. split; [|exact H3].
    rewrite H2. cbn [width height pos vel mover fst snd].
    replace (INR 60) with 60 by (simpl; lra).
    f_equal.
    + apply (wrapped_unique 900 _ 7 (-1)); simpl; lra.
    + apply (wrapped_unique 420 _ 200 0); simpl; lra.
Defined.

(** ** Thermostat and contact positions *)

(** X28.  The periodic rescale pushes the velocities toward the target
    kinetic energy [40 (kT + 0.05)], never away from it: the factor is
    between 0.9 and 1 when the average is at or above the target, and
    between 1 and 1.1 when it is at or below. *)
Theorem rescaleFactor_toward_target (k keAvg : R) :
  0 <= k ->
  (40 * (k + 0.05) <= keAvg -> 0.9 <= rescaleFactor k keAvg <= 1) /\
  (keAvg <= 40 * (k + 0.05) -> 1 <= rescaleFactor k keAvg <= 1.1).
Proof.
  intros Hk. unfold rescaleFactor. cbv zeta.
  set (target := 40 * (k + 0.05)).
  assert (Ht : 2 <= target) by (unfold target; lra).
  clearbody target.
  set (d := Rmax 1e-6 keAvg).
  assert (Hd : 1e-6 <= d /\ keAvg <= d /\ (1e-6 <= keAvg -> d = keAvg) /\
               (keAvg <= 1e-6 -> d = 1e-6))
    by (unfold d, Rmax; destruct (Rle_dec _ _); repeat split; lra).
  clearbody d. destruct Hd as (Hd1 & Hd2 & Hd3 & Hd4).
  assert (Hdi : 0 < / d) by (apply Rinv_0_lt_compat; lra).
  set (q := target / d).
  assert (Hq : 0 < q) by (unfold q; apply Rmult_lt_0_compat; lra).
  set (m := Rmax 1e-6 q).
  assert (Hm : (q <= 1 -> m <= 1) /\ (1 <= q -> 1 <= m) /\ 0 <= m)
    by (unfold m, Rmax; destruct (Rle_dec _ _); repeat split; lra).
  destruct Hm as (Hm1 & Hm2 & Hm0).
  assert (Hs : (m <= 1 -> sqrt m <= 1) /\ (1 <= m -> 1 <= sqrt m)).
  { split; intros H; rewrite <- sqrt_1; apply sqrt_le_1_alt; exact H. }
  destruct Hs as (Hs1 & Hs2).
  split; intros Hcmp.
  - assert (Hq1 : q <= 1).
    { unfold q. apply (Rmult_le_reg_r d); [lra|].
      replace (target / d * d) with target by (field; lra).
      rewrite Hd3 by lra. lra. }
    specialize (Hs1 (Hm1 Hq1)). clearbody m.
    unfold Rmax, Rmin. repeat destruct (Rle_dec _ _); lra.
  - assert (Hq1 : 1 <= q).
    { unfold q. apply (Rmult_le_reg_r d); [lra|].
      replace (target / d * d) with target by (field; lra).
      destruct (Rle_dec 1e-6 keAvg) as [H|H]; [rewrite Hd3 by lra; lra|].
      rewrite Hd4 by lra. lra. }
    specialize (Hs2 (Hm2 Hq1)). clearbody m.
    unfold Rmax, Rmin. repeat destruct (Rle_dec _ _); lra.
Qed.

Lemma rescaleFactor_toward_target_witness :
  (40 * (1 + 0.05) <= 100 -> 0.9 <= rescaleFactor 1 100 <= 1) /\
  (100 <= 40 * (1 + 0.05) -> 1 <= rescaleFactor 1 100 <= 1.1).
Proof. apply (rescaleFactor_toward_target 1 100). lra. Defined.

(** X29.  The position correction of a contact ends with the two centres
    exactly [minDist] apart along the normal, for any two positive masses
    (no lighter than 1e-9 in total inverse mass): the overlap is shared in
    inverse proportion to the masses, unless one of the two rests on the
    floor and would be pushed into it, in which case the other one takes
    the whole correction. *)
Theorem contactPositions_separates (h : R) (a b : Particle)
    (nx ny overlap minDist : R) :
  0 < mass a -> 0 < mass b -> 1e-9 <= 1 / mass a + 1 / mass b ->
  nx * nx + ny * ny = 1 -> 0 < minDist ->
  (pos b).1 - (pos a).1 = (minDist - overlap) * nx ->
  (pos b).2 - (pos a).2 = (minDist - overlap) * ny ->
  let groundedA := bool_decide ((pos a).2 >= h - orElse (radius a) 3 - 0.6) in
  let groundedB := bool_decide ((pos b).2 >= h - orElse (radius b) 3 - 0.6) in
  exists mA mB,
    contactPositions h a b nx ny overlap minDist
    = (((pos a).1 - nx * mA, (pos a).2 - ny * mA),
       ((pos b).1 + nx * mB, (pos b).2 + ny * mB)) /\
    mA + mB = overlap /\
    (if groundedA && negb groundedB && bool_decide (ny < 0)
     then mA = 0
     else if negb groundedA && groundedB && bool_decide (ny > 0)
          then mB = 0
          else mass a * mA = mass b * mB).
Proof.
  intros Hma Hmb Hsum Hn Hmd Hx Hy gA gB.
  unfold contactPositions. cbv zeta. fold gA gB.
  rewrite (orElse_nonzero (mass a)), (orElse_nonzero (mass b)) by lra.
  rewrite Rmax_right by exact Hsum.
  set (S := 1 / mass a + 1 / mass b) in *.
  assert (HS : 0 < S) by lra.
  set (mA := overlap * (1 / mass a / S)).
  set (mB := overlap * (1 / mass b / S)).
  assert (Hshare : mA + mB = overlap /\ mass a * mA = mass b * mB).
  { unfold mA, mB, S. split; field; repeat split; try lra;
      unfold S in HS; intros E; rewrite E in HS; lra. }
  destruct Hshare as [Hadd Hprop]. clearbody mA mB.
  assert (Hfinal : forall mA' mB' : R,
             mA' + mB' = overlap ->
             let pa := ((pos a).1 - nx * mA', (pos a).2 - ny * mA') in
             let pb := ((pos b).1 + nx * mB', (pos b).2 + ny * mB') in
             (if decide (orElse (Math_hypot (pb.1 - pa.1) (pb.2 - pa.2)) 1e-9
                         < minDist * 0.99)
              then
                let overlap2 :=
                  minDist - orElse (Math_hypot (pb.1 - pa.1) (pb.2 - pa.2)) 1e-9 in
                let nx2 :=
                  (pb.1 - pa.1)
                  / orElse (Math_hypot (pb.1 - pa.1) (pb.2 - pa.2)) 1e-9 in
                let ny2 :=
                  (pb.2 - pa.2)
                  / orElse (Math_hypot (pb.1 - pa.1) (pb.2 - pa.2)) 1e-9 in
                ((pa.1 - nx2 * overlap2 * 0.5, pa.2 - ny2 * overlap2 * 0.5),
                 (pb.1 + nx2 * overlap2 * 0.5, pb.2 + ny2 * overlap2 * 0.5))
              else (pa, pb)) = (pa, pb)).
  { intros mA' mB' Hsum' pa pb.
    assert (Ex : pb.1 - pa.1 = minDist * nx).
    { subst pa pb. cbn [fst snd].
      replace ((pos b).1 + nx * mB' - ((pos a).1 - nx * mA'))
        with ((pos b).1 - (pos a).1 + nx * (mA' + mB')) by ring.
      rewrite Hx, Hsum'. ring. }
    assert (Ey : pb.2 - pa.2 = minDist * ny).
    { subst pa pb. cbn [fst snd].
      replace ((pos b).2 + ny * mB' - ((pos a).2 - ny * mA'))
        with ((pos b).2 - (pos a).2 + ny * (mA' + mB')) by ring.
      rewrite Hy, Hsum'. ring. }
    rewrite Ex, Ey, Math_hypot_scaled by (auto; lra).
    rewrite orElse_nonzero by lra.
    now rewrite decide_False by lra. }
  destruct (negb gA && gB && bool_decide (ny > 0)) eqn:E1;
    destruct (gA && negb gB && bool_decide (ny < 0)) eqn:E2.
  - exists 0, overlap. split; [exact (Hfinal 0 overlap ltac:(ring))|].
    split; [ring|reflexivity].
  - exists overlap, 0. split; [exact (Hfinal overlap 0 ltac:(ring))|].
    split; [ring|reflexivity].
  - exists 0, overlap. split; [exact (Hfinal 0 overlap ltac:(ring))|].
    split; [ring|reflexivity].
  - exists mA, mB. split; [exact (Hfinal mA mB Hadd)|].
    split; [exact Hadd|exact Hprop].
Qed.

Lemma contactPositions_separates_witness :
  exists mA mB,
    contactPositions 420 (restingAt 100 100)
      (mkParticle (104, 100) (0, 0) (0, 0) 3 3 liquid 0 0 0 0) 1 0 2 6
    = ((100 - 1 * mA, 100 - 0 * mA), (104 + 1 * mB, 100 + 0 * mB)) /\
    mA + mB = 2 /\ 1 * mA = 3 * mB.
Proof.
  destruct (contactPositions_separates 420 (restingAt 100 100)
              (mkParticle (104, 100) (0, 0) (0, 0) 3 3 liquid 0 0 0 0)
              1 0 2 6) as (mA & mB & E & Hs & Hc);
    cbn [pos mass radius restingAt fst snd]; try lra.
  exists mA, mB. split; [exact E|]. split; [exact Hs|].
  cbn [pos mass radius restingAt fst snd] in Hc.
  rewrite (bool_decide_eq_false_2 (0 < 0)) in Hc by lra.
  rewrite (bool_decide_eq_false_2 (0 > 0)) in Hc by lra.
  rewrite !andb_false_r in Hc. exact Hc.
Defined.

(** ** Free flight on a periodic domain *)

(** With a drag, [gamma] times the distance is the speed lost. *)
Lemma travel_closed (gamma dt v : R) (k : nat) :
  gamma * travel gamma dt v k
  = v * (1 - gamma * dt) * (1 - (1 - gamma * dt) ^ k).
Proof.
  revert v. induction k as [|k IH]; intros v.
  - simpl. ring.
  - cbn [travel pow]. cbv zeta. rewrite Rmult_plus_distr_l, IH. ring.
Qed.

(** Without drag the distance is the speed times the time. *)
Lemma travel_no_drag (dt v : R) (k : nat) : travel 0 dt v k = INR k * (v * dt).
Proof.
  revert v. induction k as [|k IH]; intros v.
  - simpl. ring.
  - rewrite S_INR. cbn [travel]. cbv zeta. rewrite IH. ring.
Qed.

Lemma travel_at_rest (gamma dt : R) (k : nat) : travel gamma dt 0 k = 0.
Proof.
  induction k as [|k IH]; [reflexivity|].
  cbn [travel]. cbv zeta. rewrite Rmult_0_l, IH. ring.
Qed.

(** A drag only shortens the distance. *)
Lemma travel_bound (gamma dt v : R) (k : nat) :
  0 <= v -> 0 <= dt -> 0 <= 1 - gamma * dt <= 1 ->
  0 <= travel gamma dt v k <= INR k * (v * (1 - gamma * dt) * dt).
Proof.
  intros Hv Hdt Hc. revert v Hv. induction k as [|k IH]; intros v Hv.
  - simpl. lra.
  - rewrite S_INR. cbn [travel]. cbv zeta.
    set (c := 1 - gamma * dt) in *. clearbody c.
    assert (Hvc : 0 <= v * c) by nra.
    destruct (IH (v * c) Hvc) as [H1 H2].
    pose proof (pos_INR k) as Hk.
    assert (0 <= v * c * dt) by nra.
    assert (v * c * c * dt <= v * c * dt) by nra.
    assert (INR k * (v * c * c * dt) <= INR k * (v * c * dt)) by nra.
    nra.
Qed.

Lemma travel_short (gamma : R) :
  0 < gamma <= 4 -> travel gamma (1 / 60) 10 60 < 10.
Proof.
  intros Hg.
  destruct (travel_bound gamma (1 / 60) 10 60) as [_ H]; try lra.
  replace (INR 60) with 60 in H by (simpl; lra). lra.
Qed.

Lemma travel_03 : 8.61 < travel 0.3 (1 / 60) 10 60 < 8.62.
Proof.
  pose proof (travel_closed 0.3 (1 / 60) 10 60) as E.
  replace (1 - 0.3 * (1 / 60)) with 0.995 in E by lra.
  lra.
Qed.

Lemma travel_2 : 4.20 < travel 2 (1 / 60) 10 60 < 4.21.
Proof.
  pose proof (travel_closed 2 (1 / 60) 10 60) as E.
  replace (1 - 2 * (1 / 60)) with (29 / 30) in E by lra.
  lra.
Qed.

(** The Euler update under a drag, then the wrap: the velocity shrinks by
    [1 - gamma * dt] and the particle moves on modulo the domain. *)
Lemma coast_step (w h gamma dt X Y vx vy : R) (e : Particle) :
  0 < w -> 0 < h ->
  pos e = (wrapped w X, wrapped h Y) -> vel e = (vx, vy) -> mass e = 1 ->
  acc e = (- gamma * vx, - gamma * vy) ->
  Rabs (vx * (1 - gamma * dt) * dt) <= w ->
  Rabs (vy * (1 - gamma * dt) * dt) <= h ->
  let e' := Periodic.wrap w h (eulerStep dt e) in
  pos e' = (wrapped w (X + vx * (1 - gamma * dt) * dt),
            wrapped h (Y + vy * (1 - gamma * dt) * dt)) /\
  vel e' = (vx * (1 - gamma * dt), vy * (1 - gamma * dt)) /\
  mass e' = 1.
Proof.
  intros Hw Hh Hpos Hvel Hm Hacc Hvx Hvy. cbv zeta.
  set (q := eulerStep dt e).
  assert (Hq : pos q = (wrapped w X + vx * (1 - gamma * dt) * dt,
                        wrapped h Y + vy * (1 - gamma * dt) * dt)
               /\ vel q = (vx * (1 - gamma * dt), vy * (1 - gamma * dt))
               /\ mass q = 1).
  { unfold q, eulerStep. cbn [pos vel mass setPos setVel fst snd].
    rewrite Hpos, Hvel, Hacc, Hm. cbn [fst snd].
    split; [|split; [|reflexivity]]; f_equal; field. }
  destruct Hq as (Hpq & Hvq & Hmq). clearbody q.
  pose proof (wrapped_range w X Hw) as HX.
  pose proof (wrapped_range h Y Hh) as HY.
  apply Rabs_le_bounds in Hvx, Hvy.
  destruct (periodic_wrap_pos w h q Hw Hh) as (Hp' & Hv' & Hm');
    rewrite ?Hpq; cbn [fst snd]; try lra.
  rewrite Hp', Hv', Hm', Hpq, Hvq, Hmq. cbn [fst snd].
  rewrite !wrapped_add by assumption. auto.
Qed.

(** One step of the periodic revision on a lone particle at [kT = 0]. *)
Lemma periodic_step_drag (rs : RandomSource) (dt X Y vx vy : R) (s : Sim)
    (q : Particle) (wd : World) :
  particles s = [q] -> kT (params s) = 0 ->
  0 < width s -> 0 < height s ->
  pos q = (wrapped (width s) X, wrapped (height s) Y) ->
  vel q = (vx, vy) -> mass q = 1 ->
  let gamma := clamp (viscosity (params s)) 0 4 in
  Rabs (vx * (1 - gamma * dt) * dt) <= width s ->
  Rabs (vy * (1 - gamma * dt) * dt) <= height s ->
  exists q',
    particles (Periodic.step rs dt s wd).1 = [q'] /\
    pos q' = (wrapped (width s) (X + vx * (1 - gamma * dt) * dt),
              wrapped (height s) (Y + vy * (1 - gamma * dt) * dt)) /\
    vel q' = (vx * (1 - gamma * dt), vy * (1 - gamma * dt)) /\
    mass q' = 1 /\
    width (Periodic.step rs dt s wd).1 = width s /\
    height (Periodic.step rs dt s wd).1 = height s /\
    params (Periodic.step rs dt s wd).1 = params s.
Proof.
  intros Hps HkT Hw Hh Hpos Hvel Hm gamma Hvx Hvy.
  unfold Periodic.step, Periodic.computeForces, bind. cbv zeta.
  rewrite Hps, HkT. cbn [map length seq foldl].
  rewrite periodic_forcesOn_single. cbn [forEach].
  unfold bind, Periodic.dragKick, bind, randRange, bind, Math_random, ret.
  cbn [fst snd particles setParticles setGrid width height params map].
  fold gamma.
  eexists. split; [reflexivity|].
  set (a1 := _ + (_ + (_ + _ * _)) : R).
  set (a2 := _ + (_ + (_ + _ * _)) : R).
  assert (Ha1 : a1 = - gamma * vx).
  { unfold a1. cbn [acc vel setAcc fst snd]. rewrite Hvel. cbn [fst]. lra. }
  assert (Ha2 : a2 = - gamma * vy).
  { unfold a2. cbn [acc vel setAcc fst snd]. rewrite Hvel. cbn [snd]. lra. }
  clearbody a1 a2. subst a1 a2.
  destruct (coast_step (width s) (height s) gamma dt X Y vx vy
              (setAcc (setAcc q (0, 0)) (- gamma * vx, - gamma * vy)))
    as (H1 & H2 & H3); auto.
  cbv zeta in H1, H2, H3. rewrite H1, H2, H3. auto 10.
Qed.

(** A run of the periodic revision on a lone particle at [kT = 0]. *)
Lemma periodic_steps_drag (rs : RandomSource) (dt : R) (s : Sim) :
  kT (params s) = 0 -> 0 < width s -> 0 < height s -> 0 <= dt ->
  let gamma := clamp (viscosity (params s)) 0 4 in
  0 <= 1 - gamma * dt <= 1 ->
  forall (k : nat) (s0 : Sim) (q : Particle) (wd : World) (X Y vx : R),
    particles s0 = [q] -> params s0 = params s ->
    width s0 = width s -> height s0 = height s ->
    pos q = (wrapped (width s) X, wrapped (height s) Y) ->
    vel q = (vx, 0) -> mass q = 1 -> 0 <= vx -> vx * dt <= width s ->
    exists q',
      particles (Periodic.steps rs k dt s0 wd).1 = [q'] /\
      pos q' = (wrapped (width s) (X + travel gamma dt vx k),
                wrapped (height s) Y) /\
      vel q' = (vx * (1 - gamma * dt) ^ k, 0).
Proof.
  intros HkT Hw Hh Hdt gamma Hc k.
  induction k as [|k IH]; intros s0 q wd X Y vx Hps HP Hw0 Hh0 Hpos Hvel Hm Hv Hvw.
  - exists q. cbn [Periodic.steps ret fst travel pow]. split; [exact Hps|].
    rewrite Hpos, Hvel. split; f_equal; try f_equal; ring.
  - cbn [Periodic.steps]. unfold bind.
    assert (Hvc : 0 <= vx * (1 - gamma * dt) <= vx) by nra.
    assert (Hvcd : 0 <= vx * (1 - gamma * dt) * dt <= vx * dt) by nra.
    destruct (periodic_step_drag rs dt X Y vx 0 s0 q wd) as
      (q1 & Hps1 & Hp1 & Hv1 & Hm1 & Hw1 & Hh1 & HP1);
      rewrite ?HP, ?Hw0, ?Hh0; auto; try congruence.
    { fold gamma. rewrite Rabs_right; lra. }
    { fold gamma. rewrite !Rmult_0_l, Rabs_R0. lra. }
    rewrite HP, Hw0, Hh0 in Hp1. rewrite HP in Hv1. fold gamma in Hp1, Hv1.
    destruct (Periodic.step rs dt s0 wd) as [s1 w1].
    cbn [fst] in Hps1, Hw1, Hh1, HP1.
    rewrite !Rmult_0_l, Rplus_0_r in Hp1. rewrite Rmult_0_l in Hv1.
    destruct (IH s1 q1 w1 (X + vx * (1 - gamma * dt) * dt) Y
                (vx * (1 - gamma * dt)))
      as (q' & Hq' & Hpq' & Hvq'); try congruence; try lra.
    exists q'. split; [exact Hq'|]. split.
    + rewrite Hpq'. cbn [travel]. cbv zeta. f_equal. f_equal. ring.
    + rewrite Hvq'. cbn [pow]. f_equal. ring.
Qed.

(** ** A lone particle in the engine of highlow.js *)

Lemma highlow_forceCallback_single (w h : R) (P : Params) (ax ay : R)
    (q : Particle) (j : nat) :
  HighLow.forceCallback w h P 0 ax ay [q] j = [q].
Proof.
  unfold HighLow.forceCallback. case_decide; [reflexivity|].
  destruct j; [congruence|]. reflexivity.
Qed.

Lemma highlow_forcesOn_single (w h : R) (P : Params) (g : NeighborGrid.t)
    (q : Particle) :
  HighLow.forcesOn w h P g [q] 0 = [q].
Proof.
  unfold HighLow.forcesOn. cbn [lookup list_lookup]. cbv zeta.
  generalize (Periodic.forNeighbors g (pos q).1 (pos q).2 28).
  intros l. induction l as [|j l IH]; [reflexivity|].
  cbn [foldl]. now rewrite highlow_forceCallback_single.
Qed.

Lemma highlow_collisionCallback_single (w h ax ay : R) (q : Particle)
    (j : nat) :
  HighLow.collisionCallback w h 0 ax ay [q] j = [q].
Proof.
  unfold HighLow.collisionCallback. case_decide; [reflexivity|].
  destruct j; [congruence|]. reflexivity.
Qed.

Lemma highlow_collisionsOf_single (w h : R) (g : NeighborGrid.t)
    (q : Particle) :
  HighLow.collisionsOf w h g [q] 0 = [q].
Proof.
  unfold HighLow.collisionsOf. cbn [lookup list_lookup]. cbv zeta.
  generalize (Periodic.forNeighbors g (pos q).1 (pos q).2 14).
  intros l. induction l as [|j l IH]; [reflexivity|].
  cbn [foldl]. now rewrite highlow_collisionCallback_single.
Qed.

(** A lone particle has nothing to collide with. *)
Lemma highlow_resolveCollisions_single (s : Sim) (q : Particle) :
  particles s = [q] ->
  particles (HighLow.resolveCollisions s) = [q] /\
  sameSetup s (HighLow.resolveCollisions s) /\
  lastThermoMs (HighLow.resolveCollisions s) = lastThermoMs s.
Proof.
  intros Hps. unfold HighLow.resolveCollisions. cbv zeta. rewrite Hps.
  cbn [length seq foldl]. rewrite highlow_collisionsOf_single.
  unfold sameSetup. cbn. auto 10.
Qed.

Lemma highlow_classify_keeps (P : Params) (nowS : R) (p : Particle) :
  pos (HighLow.classify P nowS p) = pos p /\
  vel (HighLow.classify P nowS p) = vel p /\
  mass (HighLow.classify P nowS p) = mass p.
Proof.
  unfold HighLow.classify. cbv zeta.
  destruct (state p); case_decide; auto.
Qed.

Section HighLowSingle.
Variable rs : RandomSource.
Variable clock : nat -> R.

(** The force pass on a lone particle at [kT = 0] while the thermostat is
    idle leaves the drag alone. *)
Lemma highlow_computeForces_single (dt : R) (s : Sim) (q : Particle)
    (wd : World) :
  particles s = [q] -> kT (params s) = 0 ->
  let nowT := clock (clockPos wd) in
  let last := if decide (lastThermoMs s = 0) then nowT else lastThermoMs s in
  nowT - last <= 500 ->
  exists r,
    HighLow.computeForces rs clock dt s wd
    = (mkSim (width s) (height s) (params s) [dragOnly q]
         (Periodic.rebuildGrid (grid s) [q])
         (gravityOn s) (heatingOn s) (heatAccel s) last,
       mkWorld r (S (clockPos wd))).
Proof.
  intros Hps HkT nowT last Hidle.
  unfold HighLow.computeForces. cbv zeta.
  rewrite Hps. cbn [map length seq foldl].
  rewrite highlow_forcesOn_single.
  rewrite (sqrt_kick_zero _ HkT). cbn [forEach].
  unfold bind at 1. unfold bind at 1.
  destruct (dragKick_quiet rs (setLocalNeighbors (setAcc q (0, 0)) 0) wd
              eq_refl) as [Hd Hclk].
  destruct (dragKick rs 0.3 0 (setLocalNeighbors (setAcc q (0, 0)) 0) wd)
    as [p1 w1].
  cbn [fst snd] in Hd, Hclk. subst p1.
  unfold bind, ret, performance_now. rewrite Hclk. fold nowT. fold last.
  exists (rngPos w1).
  rewrite (decide_False (P := nowT - last > 500)) by lra.
  reflexivity.
Qed.

(** One call of [step] on a lone particle with gravity and heating off,
    at [kT = 0], while the thermostat is idle: drag at the rate 0.3, Euler
    update, wrap. *)
Lemma highlow_step_single (dt X Y vx vy : R) (s : Sim) (q : Particle)
    (wd : World) :
  particles s = [q] -> kT (params s) = 0 ->
  gravityOn s = false -> heatingOn s = false ->
  0 < width s -> 0 < height s ->
  pos q = (wrapped (width s) X, wrapped (height s) Y) ->
  vel q = (vx, vy) -> mass q = 1 ->
  Rabs (vx * (1 - 0.3 * dt) * dt) <= width s ->
  Rabs (vy * (1 - 0.3 * dt) * dt) <= height s ->
  let nowT := clock (clockPos wd) in
  let last := if decide (lastThermoMs s = 0) then nowT else lastThermoMs s in
  nowT - last <= 500 ->
  let s' := (HighLow.step rs clock dt s wd).1 in
  exists q',
    particles s' = [q'] /\
    pos q' = (wrapped (width s) (X + vx * (1 - 0.3 * dt) * dt),
              wrapped (height s) (Y + vy * (1 - 0.3 * dt) * dt)) /\
    vel q' = (vx * (1 - 0.3 * dt), vy * (1 - 0.3 * dt)) /\
    mass q' = 1 /\
    sameSetup s s' /\ lastThermoMs s' = last.
Proof.
  intros Hps HkT Hg Hheat Hw Hh Hpos Hvel Hm Hvx Hvy nowT last Hidle.
  destruct (highlow_computeForces_single dt s q wd Hps HkT Hidle) as [r E].
  fold nowT last in E.
  cbv zeta. remember (HighLow.step rs clock dt s wd).1 as s' eqn:Es'.
  unfold HighLow.step in Es'. unfold bind at 1 in Es'. rewrite E in Es'.
  rewrite Hg, Hheat in Es'. cbv zeta in Es'.
  cbn [gravityOn heatingOn heatAccel particles setParticles width height
       params] in Es'.
  unfold bind, ret, performance_now, HighLow.integrate in Es'.
  cbv zeta in Es'.
  cbn [fst snd gravityOn particles setParticles width height params map
       clockPos] in Es'.
  subst s'.
  set (e := Periodic.wrap (width s) (height s) (eulerStep dt (dragOnly q))).
  set (c := HighLow.classify (params s) (clock (S (clockPos wd))) e).
  set (s1 := setParticles _ [c]).
  destruct (highlow_resolveCollisions_single s1 c eq_refl) as (Hp1 & Hs1 & Hl1).
  destruct (highlow_resolveCollisions_single (HighLow.resolveCollisions s1) c Hp1)
    as (Hp2 & Hs2 & Hl2).
  exists c. split; [exact Hp2|].
  destruct (coast_step (width s) (height s) 0.3 dt X Y vx vy (dragOnly q))
    as (H1 & H2 & H3); auto.
  { unfold dragOnly. cbn [acc setAcc vel setLocalNeighbors]. rewrite Hvel.
    cbn [fst snd]. f_equal; lra. }
  fold e in H1, H2, H3.
  destruct (highlow_classify_keeps (params s) (clock (S (clockPos wd))) e)
    as (K1 & K2 & K3). fold c in K1, K2, K3.
  rewrite K1, K2, K3, H1, H2, H3.
  split; [reflexivity|]. split; [reflexivity|]. split; [reflexivity|].
  split.
  - destruct Hs1 as (A1 & A2 & A3 & A4 & A5 & A6).
    destruct Hs2 as (B1 & B2 & B3 & B4 & B5 & B6).
    unfold sameSetup. rewrite B1, B2, B3, B4, B5, B6, A1, A2, A3, A4, A5, A6.
    unfold s1. cbn. rewrite Hg, Hheat. auto 10.
  - rewrite Hl2, Hl1. reflexivity.
Qed.

(** A run on a lone particle while the thermostat is idle. *)
Lemma highlow_steps_single (dt : R) (s : Sim) :
  kT (params s) = 0 -> gravityOn s = false -> heatingOn s = false ->
  0 < width s -> 0 < height s -> 0 <= dt -> 0 <= 1 - 0.3 * dt <= 1 ->
  idle clock ->
  forall (k : nat) (s0 : Sim) (q : Particle) (wd : World) (X Y vx : R),
    particles s0 = [q] -> sameSetup s s0 ->
    (lastThermoMs s0 = 0 \/ exists i, lastThermoMs s0 = clock i) ->
    pos q = (wrapped (width s) X, wrapped (height s) Y) ->
    vel q = (vx, 0) -> mass q = 1 -> 0 <= vx -> vx * dt <= width s ->
    exists q',
      particles (HighLow.steps rs clock k dt s0 wd).1 = [q'] /\
      pos q' = (wrapped (width s) (X + travel 0.3 dt vx k),
                wrapped (height s) Y) /\
      vel q' = (vx * (1 - 0.3 * dt) ^ k, 0).
Proof.
  intros HkT Hg Hheat Hw Hh Hdt Hc Hidle k.
  induction k as [|k IH];
    intros s0 q wd X Y vx Hps Hsame Hlast Hpos Hvel Hm Hv Hvw.
  - exists q. cbn [HighLow.steps ret fst travel pow]. split; [exact Hps|].
    rewrite Hpos, Hvel. split; f_equal; try f_equal; ring.
  - cbn [HighLow.steps]. unfold bind.
    destruct Hsame as (Hw0 & Hh0 & HP0 & Hg0 & Hheat0 & Ha0).
    assert (Hvc : 0 <= vx * (1 - 0.3 * dt) <= vx) by nra.
    assert (Hvcd : 0 <= vx * (1 - 0.3 * dt) * dt <= vx * dt) by nra.
    set (nowT := clock (clockPos wd)).
    set (last := if decide (lastThermoMs s0 = 0) then nowT else lastThermoMs s0).
    assert (Hlast' : exists i, last = clock i).
    { subst last. destruct (decide (lastThermoMs s0 = 0)) as [E|E].
      - now exists (clockPos wd).
      - destruct Hlast as [E'|Hi]; [contradiction|exact Hi]. }
    destruct (highlow_step_single dt X Y vx 0 s0 q wd) as
      (q1 & Hps1 & Hp1 & Hv1 & Hm1 & Hs1 & Hl1);
      rewrite ?HP0, ?Hw0, ?Hh0, ?Hg0, ?Hheat0; auto.
    { rewrite Rabs_right; lra. }
    { rewrite !Rmult_0_l, Rabs_R0. lra. }
    { fold nowT last. destruct Hlast' as [i ->]. apply Hidle. }
    fold nowT last in Hl1. rewrite Hw0, Hh0 in Hp1.
    destruct (HighLow.step rs clock dt s0 wd) as [s1 w1].
    cbn [fst] in Hps1, Hs1, Hl1.
    rewrite !Rmult_0_l, Rplus_0_r in Hp1. rewrite Rmult_0_l in Hv1.
    destruct (IH s1 q1 w1 (X + vx * (1 - 0.3 * dt) * dt) Y
                (vx * (1 - 0.3 * dt)))
      as (q' & Hq' & Hpq' & Hvq'); auto; try lra.
    { destruct Hs1 as (C1 & C2 & C3 & C4 & C5 & C6).
      unfold sameSetup. rewrite C1, C2, C3, C4, C5, C6. auto 10. }
    { right. rewrite Hl1. exact Hlast'. }
    exists q'. split; [exact Hq'|]. split.
    + rewrite Hpq'. cbn [travel]. cbv zeta. f_equal. f_equal. ring.
    + rewrite Hvq'. cbn [pow]. f_equal. ring.
Qed.
End HighLowSingle.

(** ** A lone particle launched on a periodic domain *)

Lemma clamp_range (x lo hi : R) : lo <= hi -> lo <= clamp x lo hi <= hi.
Proof. intros H. destruct_minmax; lra. Qed.

Section WrapAround.
Variable rs : RandomSource.
Variable clock : nat -> R.

(** C8, amended.  With wrap-around on, no heating, no gravity and
    [kT = 0], a lone particle of mass 1 launched inside the domain with
    velocity (10, 0) is, after 60 steps of 1/60, at its initial position
    plus [(d, 0)] modulo the domain width, where [d] is the distance
    covered under the viscous drag of the engine, and its velocity has
    decayed accordingly.  In the periodic revision of [imfs.js] the drag
    rate is [clamp(viscosity, 0, 4)]; in [highlow.js], where the domain
    wraps while gravity is off, it is 0.3 whatever the parameters, as long
    as the periodic thermostat stays idle.  The distance is 10 without drag,
    less than 10 with any drag, and between 8.61 and 8.62 at the rate
    0.3; the cohesion coefficients play no part. *)
Theorem lone_particle_coasts_around (s : Sim) (q : Particle) (x y : R)
    (w : World) :
  particles s = [q] -> pos q = (x, y) -> vel q = (10, 0) -> mass q = 1 ->
  kT (params s) = 0 -> gravityOn s = false -> heatingOn s = false ->
  0 <= x < width s -> 0 <= y < height s -> 1 / 6 <= width s ->
  coasted (width s) (clamp (viscosity (params s)) 0 4) x y
    (particles (Periodic.steps rs 60 (1 / 60) s w).1) /\
  (idle clock -> lastThermoMs s = 0 ->
   coasted (width s) 0.3 x y
     (particles (HighLow.steps rs clock 60 (1 / 60) s w).1)) /\
  travel 0 (1 / 60) 10 60 = 10 /\
  (forall gamma, 0 < gamma <= 4 -> travel gamma (1 / 60) 10 60 < 10) /\
  8.61 < travel 0.3 (1 / 60) 10 60 < 8.62.
Proof.
  intros Hps Hpos Hvel Hm HkT Hg Hheat Hx Hy Hw.
  assert (Hw0 : 0 < width s) by lra.
  assert (Hh0 : 0 < height s) by lra.
  assert (Hq : pos q = (wrapped (width s) x, wrapped (height s) y)).
  { rewrite !wrapped_inside by assumption. exact Hpos. }
  split; [|split; [|split; [|split]]].
  - pose proof (clamp_range (viscosity (params s)) 0 4 ltac:(lra)) as Hc.
    destruct (periodic_steps_drag rs (1 / 60) s HkT Hw0 Hh0 ltac:(lra)
                ltac:(cbv zeta; lra) 60 s q w x y 10)
      as (q' & H1 & H2 & H3); auto; try lra.
    exists q'. split; [exact H1|]. split; [|exact H3].
    rewrite H2. now rewrite (wrapped_inside (height s) y).
  - intros Hidle Hlast.
    destruct (highlow_steps_single rs clock (1 / 60) s HkT Hg Hheat Hw0 Hh0
                ltac:(lra) ltac:(lra) Hidle 60 s q w x y 10)
      as (q' & H1 & H2 & H3); auto; try lra.
    { unfold sameSetup. auto 10. }
    exists q'. split; [exact H1|]. split; [|exact H3].
    rewrite H2. now rewrite (wrapped_inside (height s) y).
  - rewrite travel_no_drag. replace (INR 60) with 60 by (simpl; lra). lra.
  - exact travel_short.
  - exact travel_03.
Qed.
End WrapAround.

(** The theorem at a launch from (897, 200) on the canvas of 900 by 420
    with every coefficient at zero: the particle re-enters on the left in
    both revisions. *)
Lemma lone_particle_coasts_around_witness :
  coasted 900 (clamp 0 0 4) 897 200
    (particles
       (Periodic.steps halves 60 (1 / 60) (inertSim 0 [launched 897 200])
          (mkWorld 0 0)).1) /\
  coasted 900 0.3 897 200
    (particles
       (HighLow.steps halves (fun _ => 0) 60 (1 / 60)
          (inertSim 0 [launched 897 200]) (mkWorld 0 0)).1).
Proof.
  destruct (lone_particle_coasts_around halves (fun _ => 0)
              (inertSim 0 [launched 897 200]) (launched 897 200) 897 200
              (mkWorld 0 0))
    as (H1 & H2 & _); try reflexivity; cbn [width height inertSim]; try lra.
  split; [exact H1|]. apply H2; [apply halves_idle|reflexivity].
Defined.

(** Where a position just short of the right edge of the canvas lands
    after a move of less than 10. *)
Lemma wrapped_past_edge (t : R) :
  3 <= t < 10 -> wrapped 900 (897 + t) = t - 3.
Proof.
  intros Ht. apply (wrapped_unique 900 _ _ (-1)); simpl; lra.
Qed.

(** C8 as stated fails in both revisions that wrap.  On the canvas of 900
    by 420 with [kT = 0], gravity and heating off and every force
    coefficient and cohesion weight at zero, a lone particle launched from
    (897, 200) with velocity (10, 0) would be at x = 7 after one second if
    it had covered 10.  In [highlow.js] (all parameters zero, thermostat
    idle) it re-enters on the left but ends more than 1.38 short of
    there; in the periodic revision of [imfs.js] at the viscosity 2 of the
    default scenario it ends more than 5.79 short. *)
Lemma lone_particle_ends_short_of_ten :
  (exists p,
     particles
       (HighLow.steps halves (fun _ => 0) 60 (1 / 60)
          (inertSim 0 [launched 897 200]) (mkWorld 0 0)).1 = [p] /\
     0 <= (pos p).1 < 7 /\
     Rabs ((pos p).1 - wrapped 900 (897 + 10)) > 1.38) /\
  (exists p,
     particles
       (Periodic.steps halves 60 (1 / 60) (inertSim 2 [launched 897 200])
          (mkWorld 0 0)).1 = [p] /\
     0 <= (pos p).1 < 7 /\
     Rabs ((pos p).1 - wrapped 900 (897 + 10)) > 5.79).
Proof.
  assert (Hq : pos (launched 897 200) = (wrapped 900 897, wrapped 420 200)).
  { rewrite !wrapped_inside by lra. reflexivity. }
  split.
  - destruct (highlow_steps_single halves (fun _ => 0) (1 / 60)
                (inertSim 0 [launched 897 200]) eq_refl eq_refl eq_refl
                ltac:(simpl; lra) ltac:(simpl; lra) ltac:(lra) ltac:(lra)
                halves_idle 60 (inertSim 0 [launched 897 200])
                (launched 897 200) (mkWorld 0 0) 897 200 10)
      as (p & H1 & H2 & _); auto; try (simpl; lra).
    { unfold sameSetup. auto 10. }
    exists p. split; [exact H1|]. rewrite H2. cbn [fst width inertSim].
    pose proof travel_03 as Ht.
    rewrite wrapped_past_edge, wrapped_907 by lra.
    split; [lra|]. rewrite Rabs_left; lra.
  - destruct (periodic_steps_drag halves (1 / 60)
                (inertSim 2 [launched 897 200]) eq_refl
                ltac:(simpl; lra) ltac:(simpl; lra) ltac:(lra))
      with (k := 60%nat) (s0 := inertSim 2 [launched 897 200])
           (q := launched 897 200) (wd := mkWorld 0 0) (X := 897) (Y := 200)
           (vx := 10)
      as (p & H1 & H2 & _); auto; try (simpl; lra).
    { cbv zeta. cbn [params viscosity inertSim]. unfold clamp.
      rewrite Rmin_right, Rmax_right by (try rewrite Rmin_right; lra). lra. }
    exists p. split; [exact H1|]. rewrite H2.
    cbn [fst width inertSim params viscosity].
    assert (Hc : clamp 2 0 4 = 2).
    { unfold clamp.
      rewrite Rmin_right, Rmax_right by (try rewrite Rmin_right; lra).
      reflexivity. }
    rewrite Hc.
    pose proof travel_2 as Ht.
    rewrite wrapped_past_edge, wrapped_907 by lra.
    split; [lra|]. rewrite Rabs_left; lra.
Qed.
